(** * Tween.js: the tween state machine and its manager

    A shallow embedding of [src/Tween.js] (PLAYGROUND.Tween and
    PLAYGROUND.TweenManager).  JavaScript numbers are IEEE 754 binary64
    values, modelled by Rocq's primitive floats; objects that are shared by
    reference (tweens, contexts) live in an explicit store. *)

From Stdlib Require Import ZArith Floats.
From stdpp Require Import base list gmap strings pretty.

Local Open Scope Z_scope.

(** ** JavaScript values *)

(** The values a context property or a target can hold. *)
Inductive value :=
| VUndefined
| VBool (b : bool)
| VNumber (x : float)
| VString (s : string).

(** What [cq.color] returns: an array-like of three numeric channels. *)
Definition channels : Type := float * float * float.

(** An entry of the [before] and [change] arrays: a plain value, or the
    three channels of a colour. *)
Inductive slot :=
| Scalar (v : value)
| Triple (c : channels).

(** A context: a JavaScript object used as a map from names to values. *)
Abbreviation object := (gmap string value).

(** Reading a property that is absent gives [undefined]. *)
Definition obj_get (o : object) (key : string) : value :=
  default VUndefined (o !! key).

Definition obj_set (o : object) (key : string) (v : value) : object :=
  <[key := v]> o.

(** [arr[i]] for an index that may be negative or past the end: [None]
    stands for [undefined]. *)
Definition js_nth {A} (l : list A) (i : Z) : option A :=
  if i <? 0 then None else l !! Z.to_nat i.

(** ** The host platform

    [Tween.js] calls helpers that live outside of it: the easing library,
    the colour parser [cq.color], the circular arithmetic of
    [PLAYGROUND.Utils], and the built-in conversions of the language.  They
    are taken as an interface. *)
Class Platform := {
  (** [PLAYGROUND.Utils.ease(progress, easing)] *)
  ease : float → option string → float;
  (** [PLAYGROUND.Utils.circWrappedDistance(a, b)] *)
  circWrappedDistance : value → float → float;
  (** [PLAYGROUND.Utils.circWrap(val)] *)
  circWrap : value → value;
  (** [cq.color(value)]; [None] when it throws *)
  cq_color : value → option channels;
  (** built-in [parseFloat] on a string *)
  parseFloat : string → float;
  (** the value of a string as a numeric literal, [NaN] when it is none *)
  StringNumericLiteral : string → float;
  (** ToString on a number *)
  NumberToString : float → string
}.

(** An ASCII letter. *)
Definition is_letter (a : Ascii.ascii) : bool :=
  let n := Ascii.N_of_ascii a in
  ((65 <=? n) && (n <=? 90) || (97 <=? n) && (n <=? 122))%N.

(** Can a numeric literal start with this character?  After white space,
    a literal starts with a digit, a sign, a dot or the [I] of
    [Infinity]: no other letter starts one. *)
Definition may_start_literal (a : Ascii.ascii) : bool :=
  negb (is_letter a) || (Ascii.N_of_ascii a =? 73)%N.

Section Coercions.
Context `{Platform}.

(** ToNumber on a string: the empty string is [0], and a string that
    cannot start a numeric literal is [NaN]. *)
Definition StringToNumber (s : string) : float :=
  match s with
  | "" => 0%float
  | String a _ => if may_start_literal a then StringNumericLiteral s else nan
  end.

(** ToNumber *)
Definition to_number (v : value) : float :=
  match v with
  | VUndefined => nan
  | VBool b => if b then 1%float else 0%float
  | VNumber x => x
  | VString s => StringToNumber s
  end.

(** ToString *)
Definition to_string (v : value) : string :=
  match v with
  | VUndefined => "undefined"
  | VBool b => if b then "true" else "false"
  | VNumber x => NumberToString x
  | VString s => s
  end.

(** [a + x] where [x] is a number: concatenation when [a] is a string. *)
Definition js_add (a : value) (x : float) : value :=
  match a with
  | VString s => VString (s +:+ NumberToString x)
  | _ => VNumber (to_number a + x)%float
  end.

(** [a > b], for operands that are not both strings. *)
Definition js_gt (a b : value) : bool :=
  (to_number b <? to_number a)%float.
End Coercions.

(** ToBoolean on a number or [undefined]: [0], [-0] and [NaN] are falsy. *)
Definition truthy_number (d : option float) : bool :=
  match d with
  | None => false
  | Some x => negb (is_zero x || is_nan x)
  end.

(** ToBoolean on a string or [undefined]: the empty string is falsy. *)
Definition truthy_string (e : option string) : bool :=
  match e with
  | None | Some "" => false
  | Some _ => true
  end.

(** An [undefined] operand of an arithmetic operator becomes [NaN]. *)
Definition num (d : option float) : float := default nan d.

(** [Math.min(a, b)] *)
Definition Math_min (a b : float) : float :=
  if is_nan a || is_nan b then nan
  else if (a <? b)%float then a
  else if (b <? a)%float then b
  else if get_sign a then a else b.

(** The integer part of a finite number (rounding towards zero). *)
Definition truncate (x : float) : Z :=
  match Prim2SF x with
  | S754_finite s m e =>
      let a := if 0 <=? e then Z.pos m * 2 ^ e else Z.pos m / 2 ^ (- e) in
      if s then - a else a
  | _ => 0
  end.

(** ToInt32, which [x | 0] applies to [x]. *)
Definition ToInt32 (x : float) : Z :=
  let n := truncate x mod 2 ^ 32 in
  if 2 ^ 31 <=? n then n - 2 ^ 32 else n.

(** [t] is the number [x] rounded towards zero: [t] has the sign of [x]
    and its magnitude is the integer part of the magnitude of [x], which
    is [m * 2 ^ e]: [|t| <= m * 2 ^ e < |t| + 1], written without
    fractions.  [NaN], the infinities and the zeros give [0]. *)
Definition toward_zero (x : float) (t : Z) : Prop :=
  match Prim2SF x with
  | S754_finite s m e =>
      (if s then t ≤ 0 else 0 ≤ t)
      ∧ Z.abs t * 2 ^ Z.max 0 (- e) ≤ Z.pos m * 2 ^ Z.max 0 e
          < (Z.abs t + 1) * 2 ^ Z.max 0 (- e)
  | _ => t = 0
  end.

(** [n] is the signed 32-bit integer that differs from [t] by a multiple
    of [2 ^ 32]. *)
Definition wraps_to (t n : Z) : Prop :=
  - 2 ^ 31 ≤ n < 2 ^ 31 ∧ ∃ k, n = t + k * 2 ^ 32.

(** [n] is what [x | 0] gives in JavaScript. *)
Definition or_zero (x : float) (n : Z) : Prop :=
  ∃ t, toward_zero x t ∧ wraps_to t n.

(** [s.indexOf(pat)] *)
Definition indexOf (s pat : string) : Z :=
  match String.index 0 pat s with
  | Some i => Z.of_nat i
  | None => -1
  end.

(** ** Actions *)

(** The first component of an action: a property map (an object, its
    entries in [Object.keys] order) or a string such as ["wait"]. *)
Inductive properties :=
| Props (kv : list (string * value))
| Tag (s : string).

(** An entry of [actions]: the array [[properties, duration, easing]];
    ["wait"] and ["repeat"] entries have two components only. *)
Record action := Action {
  a_props : properties;
  a_duration : option float;
  a_easing : option string
}.

(** The own enumerable properties of the first component.  A string (of
    ASCII characters) has one per character, named by its position. *)
Definition entries (p : properties) : list (string * value) :=
  match p with
  | Props kv => kv
  | Tag s =>
      imap (λ i c, (pretty (N.of_nat i), VString (String c "")))
           (String.list_ascii_of_string s)
  end.

(** [Object.keys(properties)] *)
Definition Object_keys (p : properties) : list string := (entries p).*1.

(** Looking a name up in a list of entries. *)
Fixpoint assoc (kv : list (string * value)) (key : string) : option value :=
  match kv with
  | [] => None
  | (k, v) :: kv' => if bool_decide (k = key) then Some v else assoc kv' key
  end.

(** [properties[key]] *)
Definition prop_get (p : properties) (key : string) : value :=
  default VUndefined (assoc (entries p) key).

(** [properties === "wait"] *)
Definition is_wait (p : properties) : bool :=
  match p with
  | Tag s => bool_decide (s = "wait")
  | Props _ => false
  end.

(** [typeof properties === "object"] *)
Definition is_object (p : properties) : bool :=
  match p with
  | Props _ => true
  | Tag _ => false
  end.

(** ** Effects

    A method mutates the object it is called on and may throw.  A thrown
    exception keeps the mutations made before it. *)

Inductive exn := TypeError | ColorError.

Inductive outcome (S A : Type) :=
| Ret (a : A) (s : S)
| Throw (e : exn) (s : S).
Arguments Ret {S A} a s.
Arguments Throw {S A} e s.

Definition M (S A : Type) : Type := S → outcome S A.

Definition ret {S A} (a : A) : M S A := λ s, Ret a s.

Definition bind {S A B} (m : M S A) (k : A → M S B) : M S B :=
  λ s, match m s with
       | Ret a s' => k a s'
       | Throw e s' => Throw e s'
       end.

Definition throw {S A} (e : exn) : M S A := λ s, Throw e s.

Definition get_state {S} : M S S := λ s, Ret s s.

Definition modify {S} (f : S → S) : M S unit := λ s, Ret tt (f s).

(** The state an outcome ends in, thrown or not. *)
Definition final {S A} (o : outcome S A) : S :=
  match o with
  | Ret _ s => s
  | Throw _ s => s
  end.

Declare Scope eff_scope.
Delimit Scope eff_scope with eff.
Notation "x <- m ;; k" := (bind m (λ x, k))
  (at level 100, m at next level, k at level 200, right associativity) : eff_scope.
Notation "m ;; k" := (bind m (λ _, k))
  (at level 100, k at level 200, right associativity) : eff_scope.

(** [for (...) body(x)] over the elements of a list, in order. *)
Fixpoint for_each {S A} (body : A → M S unit) (l : list A) : M S unit :=
  match l with
  | [] => ret tt
  | x :: l' => (body x ;; for_each body l')%eff
  end.

(** What a method returns to its caller. *)
Inductive retval := This | Undefined.

(** The handler [step] dispatches to: the strings ["animate"] and ["wait"]. *)
Inductive handler := Animate | Wait.

(** ** PLAYGROUND.Tween *)

Module Tween.

(** The fields of a tween.  [context] is a reference into the store of
    contexts; a field that the constructor leaves [undefined] starts as
    [None] or the empty list, and as [false] where the code only ever tests
    it ([looped], [_remove]).  [finished] is written [true] by [next] and
    [false] by [play], and is [undefined] before. *)
Record t := Make {
  context : nat;
  actions : list action;
  index : Z;
  prevEasing : option string;
  prevDuration : option float;
  current : option action;
  looped : bool;
  finished : option bool;
  delta : option float;
  duration : option float;
  easing : option string;
  currentAction : option handler;
  keys : list string;
  change : list slot;
  before : list slot;
  types : list Z;
  progress : option float;
  _remove : bool
}.

(** [new PLAYGROUND.Tween(manager, context)] *)
Definition new (context : nat) : t :=
  Make context [] (-1) (Some "045") (Some 0.5%float) None false None
       None None None None [] [] [] [] None false.

Definition set_actions v (x : t) : t :=
  Make (context x) v (index x) (prevEasing x) (prevDuration x) (current x)
       (looped x) (finished x) (delta x) (duration x) (easing x)
       (currentAction x) (keys x) (change x) (before x) (types x)
       (progress x) (_remove x).
Definition set_index v (x : t) : t :=
  Make (context x) (actions x) v (prevEasing x) (prevDuration x) (current x)
       (looped x) (finished x) (delta x) (duration x) (easing x)
       (currentAction x) (keys x) (change x) (before x) (types x)
       (progress x) (_remove x).
Definition set_prevEasing v (x : t) : t :=
  Make (context x) (actions x) (index x) v (prevDuration x) (current x)
       (looped x) (finished x) (delta x) (duration x) (easing x)
       (currentAction x) (keys x) (change x) (before x) (types x)
       (progress x) (_remove x).
Definition set_prevDuration v (x : t) : t :=
  Make (context x) (actions x) (index x) (prevEasing x) v (current x)
       (looped x) (finished x) (delta x) (duration x) (easing x)
       (currentAction x) (keys x) (change x) (before x) (types x)
       (progress x) (_remove x).
Definition set_current v (x : t) : t :=
  Make (context x) (actions x) (index x) (prevEasing x) (prevDuration x) v
       (looped x) (finished x) (delta x) (duration x) (easing x)
       (currentAction x) (keys x) (change x) (before x) (types x)
       (progress x) (_remove x).
Definition set_looped v (x : t) : t :=
  Make (context x) (actions x) (index x) (prevEasing x) (prevDuration x)
       (current x) v (finished x) (delta x) (duration x) (easing x)
       (currentAction x) (keys x) (change x) (before x) (types x)
       (progress x) (_remove x).
Definition set_finished v (x : t) : t :=
  Make (context x) (actions x) (index x) (prevEasing x) (prevDuration x)
       (current x) (looped x) v (delta x) (duration x) (easing x)
       (currentAction x) (keys x) (change x) (before x) (types x)
       (progress x) (_remove x).
Definition set_delta v (x : t) : t :=
  Make (context x) (actions x) (index x) (prevEasing x) (prevDuration x)
       (current x) (looped x) (finished x) v (duration x) (easing x)
       (currentAction x) (keys x) (change x) (before x) (types x)
       (progress x) (_remove x).
Definition set_duration v (x : t) : t :=
  Make (context x) (actions x) (index x) (prevEasing x) (prevDuration x)
       (current x) (looped x) (finished x) (delta x) v (easing x)
       (currentAction x) (keys x) (change x) (before x) (types x)
       (progress x) (_remove x).
Definition set_easing v (x : t) : t :=
  Make (context x) (actions x) (index x) (prevEasing x) (prevDuration x)
       (current x) (looped x) (finished x) (delta x) (duration x) v
       (currentAction x) (keys x) (change x) (before x) (types x)
       (progress x) (_remove x).
Definition set_currentAction v (x : t) : t :=
  Make (context x) (actions x) (index x) (prevEasing x) (prevDuration x)
       (current x) (looped x) (finished x) (delta x) (duration x) (easing x)
       v (keys x) (change x) (before x) (types x) (progress x) (_remove x).
Definition set_keys v (x : t) : t :=
  Make (context x) (actions x) (index x) (prevEasing x) (prevDuration x)
       (current x) (looped x) (finished x) (delta x) (duration x) (easing x)
       (currentAction x) v (change x) (before x) (types x) (progress x)
       (_remove x).
Definition set_change v (x : t) : t :=
  Make (context x) (actions x) (index x) (prevEasing x) (prevDuration x)
       (current x) (looped x) (finished x) (delta x) (duration x) (easing x)
       (currentAction x) (keys x) v (before x) (types x) (progress x)
       (_remove x).
Definition set_before v (x : t) : t :=
  Make (context x) (actions x) (index x) (prevEasing x) (prevDuration x)
       (current x) (looped x) (finished x) (delta x) (duration x) (easing x)
       (currentAction x) (keys x) (change x) v (types x) (progress x)
       (_remove x).
Definition set_types v (x : t) : t :=
  Make (context x) (actions x) (index x) (prevEasing x) (prevDuration x)
       (current x) (looped x) (finished x) (delta x) (duration x) (easing x)
       (currentAction x) (keys x) (change x) (before x) v (progress x)
       (_remove x).
Definition set_progress v (x : t) : t :=
  Make (context x) (actions x) (index x) (prevEasing x) (prevDuration x)
       (current x) (looped x) (finished x) (delta x) (duration x) (easing x)
       (currentAction x) (keys x) (change x) (before x) (types x) v
       (_remove x).
Definition set__remove v (x : t) : t :=
  Make (context x) (actions x) (index x) (prevEasing x) (prevDuration x)
       (current x) (looped x) (finished x) (delta x) (duration x) (easing x)
       (currentAction x) (keys x) (change x) (before x) (types x)
       (progress x) v.

(** What a method of a tween can reach without going through the
    manager's collection: the tween itself, the context object it is
    bound to, and the events it has triggered (latest first). *)
Record local := Local {
  self : t;
  ctx : object;
  emitted : list string
}.

Definition upd (f : t → t) : M local unit :=
  modify (λ l, Local (f (self l)) (ctx l) (emitted l)).

Definition this : M local t := λ l, Ret (self l) l.

(** [this.context[key]] *)
Definition read (key : string) : M local value :=
  λ l, Ret (obj_get (ctx l) key) l.

(** [this.context[key] = v] *)
Definition write (key : string) (v : value) : M local unit :=
  modify (λ l, Local (self l) (obj_set (ctx l) key v) (emitted l)).

(** [this.trigger(name, {tween: this})], which a tween takes over from
    [PLAYGROUND.Events]: the event is recorded.  Listeners are registered
    through [PLAYGROUND.Events] only, which is not part of this file; none
    is modelled, and no listener runs here. *)
Definition trigger (name : string) : M local unit :=
  modify (λ l, Local (self l) (ctx l) (name :: emitted l)).

(** [this.manager.remove(this)], which is [this._remove = true]. *)
Definition manager_remove : M local unit := upd (set__remove true).

Local Open Scope eff_scope.

(** [add(properties, duration, easing)] *)
Definition add (props : properties) (duration : option float)
    (easing : option string) : M local retval :=
  (if truthy_number duration then upd (set_prevDuration duration) else ret tt) ;;
  let duration := if truthy_number duration then duration else Some 0.5%float in
  (if truthy_string easing then upd (set_prevEasing easing) else ret tt) ;;
  let easing := if truthy_string easing then easing else Some "045" in
  x <- this ;;
  upd (set_actions (actions x ++ [Action props duration easing])) ;;
  ret This.

(** [to(properties, duration, easing)] *)
Definition to (props : properties) (duration : option float)
    (easing : option string) : M local retval :=
  add props duration easing.

(** [loop()] *)
Definition loop : M local retval :=
  upd (set_looped true) ;;
  ret This.

(** [repeat(times)] *)
Definition repeat (times : option float) : M local retval :=
  x <- this ;;
  upd (set_actions (actions x ++ [Action (Tag "repeat") times None])) ;;
  ret Undefined.

(** [wait(time)] *)
Definition wait (time : option float) : M local retval :=
  x <- this ;;
  upd (set_actions (actions x ++ [Action (Tag "wait") time None])) ;;
  ret This.

(** [delay(time)] *)
Definition delay (time : option float) : M local retval :=
  x <- this ;;
  upd (set_actions (actions x ++ [Action (Tag "wait") time None])) ;;
  ret Undefined.

(** [stop()] *)
Definition stop : M local retval :=
  manager_remove ;;
  ret This.

Section Stepping.
Context `{Platform}.

(** The colour branch of [next]: both the current value and the target go
    through [cq.color]; [before] is pushed before the target is parsed. *)
Definition decompose_color (value target : value) : M local unit :=
  match cq_color value with
  | None => throw ColorError
  | Some b =>
      x <- this ;;
      upd (set_before (before x ++ [Triple b])) ;;
      match cq_color target with
      | None => throw ColorError
      | Some a =>
          let '(a0, a1, a2) := a in
          let '(b0, b1, b2) := b in
          let temp := (a0 - b0, a1 - b1, a2 - b2)%float in
          x <- this ;;
          upd (set_change (change x ++ [Triple temp])) ;;
          x <- this ;;
          upd (set_types (types x ++ [1]))
      end
  end.

(** The argument of [indexOf] in [next]: the comparison ["rad" > -1],
    converted to a string. *)
Definition needle : string :=
  to_string (VBool (js_gt (VString "rad") (VNumber (-1)%float))).

(** One round of the loop of [next] over the keys. *)
Definition decompose (props : properties) (key : string) : M local unit :=
  value <- read key ;;
  match prop_get props key with
  | VNumber target =>
      x <- this ;;
      upd (set_before (before x ++ [Scalar value])) ;;
      x <- this ;;
      upd (set_change
             (change x ++ [Scalar (VNumber (target - to_number value)%float)])) ;;
      x <- this ;;
      upd (set_types (types x ++ [0]))
  | VString target =>
      if negb (indexOf target needle =? 0) then
        x <- this ;;
        upd (set_before (before x ++ [Scalar value])) ;;
        x <- this ;;
        upd (set_change
               (change x ++
                [Scalar (VNumber (circWrappedDistance value (parseFloat target)))])) ;;
        x <- this ;;
        upd (set_types (types x ++ [2]))
      else decompose_color value (VString target)
  | target => decompose_color value target
  end.

(** The part of [next] after the end-of-sequence test: make
    [actions[index]] current and prepare it. *)
Definition select : M local unit :=
  x <- this ;;
  let cur := js_nth (actions x) (index x) in
  upd (set_current cur) ;;
  match cur with
  | None => throw TypeError
  | Some a =>
      if is_wait (a_props a) then
        upd (set_duration (a_duration a)) ;;
        upd (set_currentAction (Some Wait))
      else
        let props := a_props a in
        upd (set_keys (Object_keys props)) ;;
        upd (set_change []) ;;
        upd (set_before []) ;;
        upd (set_types []) ;;
        for_each (decompose props) (Object_keys props) ;;
        upd (set_currentAction (Some Animate)) ;;
        upd (set_duration (a_duration a)) ;;
        upd (set_easing (a_easing a))
  end.

(** [next()] *)
Definition next : M local unit :=
  upd (set_delta (Some 0%float)) ;;
  upd (λ x, set_index (index x + 1) x) ;;
  x <- this ;;
  if Z.of_nat (length (actions x)) <=? index x then
    if looped x then
      trigger "loop" ;;
      upd (set_index 0) ;;
      select
    else
      trigger "finished" ;;
      trigger "finish" ;;
      upd (set_finished (Some true)) ;;
      manager_remove
  else select.

(** [color.join(",")] for an array of 32-bit integers. *)
Definition join_channels (color : list Z) : string :=
  String.concat "," (pretty <$> color).

(** One round of the loop of [doAnimate]: the switch on [types[i]].  [next]
    fills [before], [change] and [types] together, so an entry of [types]
    comes with entries of the matching shape. *)
Definition animate (mod_ : float) (i : nat) (key : string) : M local unit :=
  x <- this ;;
  match types x !! i, before x !! i, change x !! i with
  | Some 0, Some (Scalar b), Some (Scalar c) =>
      write key (js_add b (to_number c * mod_))
  | Some 1, Some (Triple (b0, b1, b2)), Some (Triple (c0, c1, c2)) =>
      let color := [ToInt32 (b0 + c0 * mod_); ToInt32 (b1 + c1 * mod_);
                    ToInt32 (b2 + c2 * mod_)] in
      write key (VString ("rgb(" +:+ join_channels color +:+ ")"))
  | Some 2, Some (Scalar b), Some (Scalar c) =>
      write key (circWrap (js_add b (to_number c * mod_)))
  | _, _, _ => ret tt
  end.

(** The loop of [doAnimate] over the keys, with the factor [mod_]. *)
Definition animate_all (mod_ : float) (keys : list string) : M local unit :=
  for_each (λ ik, animate mod_ ik.1 ik.2) (imap pair keys).

(** [doAnimate(delta)] *)
Definition doAnimate (d : float) : M local unit :=
  x <- this ;;
  let p := Math_min 1 (num (delta x) / num (duration x)) in
  upd (set_progress (Some p)) ;;
  let mod_ := ease p (easing x) in
  animate_all mod_ (keys x) ;;
  if (1 <=? p)%float then next else ret tt.

(** [doWait(delta)] *)
Definition doWait (d : float) : M local unit :=
  x <- this ;;
  if (num (duration x) <=? num (delta x))%float then next else ret tt.

(** [step(delta)] *)
Definition step (d : float) : M local unit :=
  upd (λ x, set_delta (Some (num (delta x) + d)%float) x) ;;
  x <- this ;;
  match current x with Some _ => ret tt | None => next end ;;
  x <- this ;;
  match currentAction x with
  | Some Animate => doAnimate d
  | Some Wait => doWait d
  | None => ret tt
  end.

(** The loop of [end]: [n] rounds from position [i]; [None] when
    [actions[i]] is [undefined]. *)
Fixpoint scan (acts : list action) (n : nat) (i lastAnimationIndex : Z)
    : option Z :=
  match n with
  | O => Some lastAnimationIndex
  | S n' =>
      match js_nth acts i with
      | None => None
      | Some a =>
          scan acts n' (i + 1)
               (if is_object (a_props a) then i else lastAnimationIndex)
      end
  end.

(** [end()] *)
Definition end_ : M local retval :=
  x <- this ;;
  let len := Z.of_nat (length (actions x)) in
  match scan (actions x) (Z.to_nat (len - (index x + 1))) (index x + 1) 0 with
  | None => throw TypeError
  | Some lastAnimationIndex =>
      upd (set_index (lastAnimationIndex - 1)) ;;
      next ;;
      upd (λ x, set_delta (duration x) x) ;;
      step 0 ;;
      ret This
  end.

(** [forward()] *)
Definition forward : M local retval :=
  upd (λ x, set_delta (duration x) x) ;;
  step 0 ;;
  ret Undefined.

(** [rewind()] *)
Definition rewind : M local retval :=
  upd (set_delta (Some 0%float)) ;;
  step 0 ;;
  ret Undefined.

(** [prev()] *)
Definition prev : M local retval := ret Undefined.

End Stepping.

End Tween.

(** ** PLAYGROUND.TweenManager *)

Module TweenManager.

(** The manager together with the objects it reaches by reference.
    [tweens] is [this.tweens], an array of references into [heap];
    [contexts] holds the context objects the tweens are bound to, which
    several tweens may share; [events] records the triggered events with
    the tween that triggered each, latest first. *)
Record t := Make {
  tweens : list nat;
  delta : float;
  heap : list Tween.t;
  contexts : list object;
  events : list (string * nat)
}.

(** [new PLAYGROUND.TweenManager(app)], in a store of context objects. *)
Definition new (contexts : list object) : t := Make [] 0%float [] contexts [].

Definition set_tweens v (w : t) : t :=
  Make v (delta w) (heap w) (contexts w) (events w).
Definition set_delta v (w : t) : t :=
  Make (tweens w) v (heap w) (contexts w) (events w).
Definition set_heap v (w : t) : t :=
  Make (tweens w) (delta w) v (contexts w) (events w).

Local Open Scope eff_scope.

(** [arr.indexOf(x)] on an array of references. *)
Fixpoint indexOf (l : list nat) (x : nat) : Z :=
  match l with
  | [] => -1
  | y :: l' =>
      if bool_decide (y = x) then 0
      else let i := indexOf l' x in if i =? -1 then -1 else i + 1
  end.

(** Dereferencing a tween; a reference to nothing throws. *)
Definition deref (tween : nat) : M t Tween.t :=
  λ w, match heap w !! tween with
       | Some x => Ret x w
       | None => Throw TypeError w
       end.

(** Storing what a method left of the tween [tween] and of its context. *)
Definition store (w : t) (tween context : nat) (l : Tween.local) : t :=
  Make (tweens w) (delta w)
       (<[tween := Tween.self l]> (heap w))
       (<[context := Tween.ctx l]> (contexts w))
       (((λ name, (name, tween)) <$> Tween.emitted l) ++ events w).

(** Running a method of the tween [tween] on its own fields and its
    context, and storing what it leaves, thrown or not. *)
Definition on_tween {A} (tween : nat) (m : M Tween.local A) : M t A :=
  λ w, match heap w !! tween with
       | None => Throw TypeError w
       | Some x =>
           match contexts w !! Tween.context x with
           | None => Throw TypeError w
           | Some c =>
               match m (Tween.Local x c []) with
               | Ret a l => Ret a (store w tween (Tween.context x) l)
               | Throw e l => Throw e (store w tween (Tween.context x) l)
               end
           end
       end.

(** [remove(tween)] *)
Definition remove (tween : nat) : M t unit :=
  modify (λ w, set_heap (alter (Tween.set__remove true) tween (heap w)) w).

(** The body of the loop of [discard]. *)
Definition discard_one (object : nat) (safe : option nat) (tween : nat)
    : M t unit :=
  x <- deref tween ;;
  if bool_decide (Tween.context x = object)
     && negb (bool_decide (Some tween = safe))
  then remove tween else ret tt.

(** [discard(object, safe)] *)
Definition discard (object : nat) (safe : option nat) : M t unit :=
  w <- get_state ;;
  for_each (discard_one object safe) (tweens w).

(** [add(tween)] *)
Definition add (tween : nat) : M t unit :=
  modify (λ w, set_heap (alter (Tween.set__remove false) tween (heap w)) w) ;;
  w <- get_state ;;
  let index := indexOf (tweens w) tween in
  if index =? -1 then modify (set_tweens (tweens w ++ [tween])) else ret tt.

(** [tween(context)]: the new object gets the next free reference. *)
Definition tween (context : nat) : M t nat :=
  w <- get_state ;;
  let tween := length (heap w) in
  modify (set_heap (heap w ++ [Tween.new context])) ;;
  add tween ;;
  ret tween.

Section Stepping.
Context `{Platform}.

(** The body of the loop of [step] at position [i]; it returns the value
    of [i] it leaves. *)
Definition step_body (d : float) (i : Z) (tween : nat) : M t Z :=
  x <- deref tween ;;
  (if Tween._remove x then ret tt else on_tween tween (Tween.step d)) ;;
  x <- deref tween ;;
  if Tween._remove x then
    w <- get_state ;;
    modify (set_tweens (delete (Z.to_nat i) (tweens w))) ;;
    ret (i - 1)
  else ret i.

(** The loop of [step] from position [i], for at most [fuel] rounds;
    [None] when the rounds do not suffice. *)
Fixpoint step_loop (fuel : nat) (d : float) (i : Z) (w : t)
    : option (outcome t unit) :=
  match fuel with
  | O => None
  | S fuel' =>
      if i <? Z.of_nat (length (tweens w)) then
        match js_nth (tweens w) i with
        | None => Some (Throw TypeError w)
        | Some tween =>
            match step_body d i tween w with
            | Ret i' w' => step_loop fuel' d (i' + 1) w'
            | Throw e w' => Some (Throw e w')
            end
        end
      else Some (Ret tt w)
  end.

(** [step(delta)] *)
Definition step (d : float) (w : t) : option (outcome t unit) :=
  let w := set_delta (delta w + d)%float w in
  step_loop (S (length (tweens w))) d 0 w.

End Stepping.

End TweenManager.

(** ** Methods of a tween that go through its manager, and calls by
    reference *)

Module Bound.

Local Open Scope eff_scope.

(** [tween.discard()] *)
Definition discard (this : nat) : M TweenManager.t retval :=
  x <- TweenManager.deref this ;;
  TweenManager.discard (Tween.context x) (Some this) ;;
  ret This.

(** [tween.play()] *)
Definition play (this : nat) : M TweenManager.t retval :=
  TweenManager.deref this ;;
  TweenManager.add this ;;
  TweenManager.on_tween this (Tween.upd (Tween.set_finished (Some false))) ;;
  ret This.

(** The methods of a tween, as a caller names them. *)
Inductive method :=
| add (props : properties) (duration : option float) (easing : option string)
| to (props : properties) (duration : option float) (easing : option string)
| loop
| repeat (times : option float)
| wait (time : option float)
| delay (time : option float)
| stop
| play_
| discard_
| end_
| forward
| rewind
| next
| prev
| step (d : float).

Section Calls.
Context `{Platform}.

(** [tween.m(...)] for the tween that [this] refers to. *)
Definition call (this : nat) (m : method) : M TweenManager.t retval :=
  match m with
  | add p d e => TweenManager.on_tween this (Tween.add p d e)
  | to p d e => TweenManager.on_tween this (Tween.to p d e)
  | loop => TweenManager.on_tween this Tween.loop
  | repeat n => TweenManager.on_tween this (Tween.repeat n)
  | wait n => TweenManager.on_tween this (Tween.wait n)
  | delay n => TweenManager.on_tween this (Tween.delay n)
  | stop => TweenManager.on_tween this Tween.stop
  | play_ => play this
  | discard_ => discard this
  | end_ => TweenManager.on_tween this Tween.end_
  | forward => TweenManager.on_tween this Tween.forward
  | rewind => TweenManager.on_tween this Tween.rewind
  | next => TweenManager.on_tween this Tween.next ;; ret Undefined
  | prev => TweenManager.on_tween this Tween.prev
  | step d => TweenManager.on_tween this (Tween.step d) ;; ret Undefined
  end.

(** A method chain [r.m1(...).m2(...)...]: each call is made on what the
    call before it returned; a call on [undefined] throws. *)
Fixpoint chain (r : option nat) (ms : list method) : M TweenManager.t (option nat) :=
  match ms with
  | [] => ret r
  | m :: ms' =>
      match r with
      | None => throw TypeError
      | Some this =>
          v <- call this m ;;
          chain (match v with This => Some this | Undefined => None end) ms'
      end
  end.

End Calls.

End Bound.

(** ** Programs of a caller *)

(** What a caller can do with a manager and the tweens it made. *)
Inductive op :=
| Create (context : nat)
| ManagerAdd (tween : nat)
| ManagerRemove (tween : nat)
| ManagerDiscard (object : nat) (safe : option nat)
| ManagerStep (d : float)
| Call (this : nat) (m : Bound.method).

(** The store one operation leaves, whether it returned or threw (a caller
    may catch what is thrown and go on). *)
Definition exec1 `{Platform} (o : op) (w : TweenManager.t) : TweenManager.t :=
  match o with
  | Create context => final (TweenManager.tween context w)
  | ManagerAdd tween => final (TweenManager.add tween w)
  | ManagerRemove tween => final (TweenManager.remove tween w)
  | ManagerDiscard object safe => final (TweenManager.discard object safe w)
  | ManagerStep d => from_option final w (TweenManager.step d w)
  | Call this m => final (Bound.call this m w)
  end.

Definition exec `{Platform} (ops : list op) (w : TweenManager.t) : TweenManager.t :=
  foldl (λ w o, exec1 o w) w ops.

(** The easing is linear when the factor is the progress itself. *)
Definition linear (P : Platform) : Prop := ∀ p e, ease p e = p.

(** A host to run the model on: linear easing, no wrapping of angles, a
    colour parser that knows no colour, and conversions between strings
    and numbers that know no number but [NaN]. *)
Definition test_host : Platform := {|
  ease := λ p _, p;
  circWrappedDistance := λ _ b, b;
  circWrap := λ v, v;
  cq_color := λ _, None;
  parseFloat := λ _, nan;
  StringNumericLiteral := λ _, nan;
  NumberToString := λ _, "NaN"
|}.

(** A tween just constructed, with the context object [c]. *)
Definition fresh (c : object) : Tween.local := Tween.Local (Tween.new 0) c [].

(** The flag [_remove] of the tween that [r] refers to. *)
Definition flagged (h : list Tween.t) (r : nat) : bool :=
  from_option Tween._remove false (h !! r).

(** Does the string contain the angle unit? *)
Definition mentions_rad (s : string) : bool := negb (indexOf s "rad" =? -1).

(** The entry of [types] that [next] computes for a target. *)
Definition kind_of (target : value) : Z :=
  match target with
  | VNumber _ => 0
  | VString s => if indexOf s "false" =? 0 then 1 else 2
  | _ => 1
  end.

(** ** Frames and invariants of effectful code *)

(** [m] leaves the observation [f] of the state as it found it, also when
    it throws. *)
Definition keeps {S A B} (f : S → B) (m : M S A) : Prop :=
  ∀ s, f (final (m s)) = f s.

(** [m] takes a state in [I] to a state in [I], also when it throws. *)
Definition preserves {S A} (I : S → Prop) (m : M S A) : Prop :=
  ∀ s, I s → I (final (m s)).

(** From a state in [P], [m] returns, with a result and a state in [Q]. *)
Definition total {S A} (P : S → Prop) (m : M S A) (Q : A → S → Prop) : Prop :=
  ∀ s, P s → ∃ a s', m s = Ret a s' ∧ Q a s'.

(** Every reference of the store is to an object of the store: the
    manager's collection holds tweens, and each tween is bound to a
    context. *)
Definition wf (w : TweenManager.t) : Prop :=
  Forall (λ r, is_Some (TweenManager.heap w !! r)) (TweenManager.tweens w)
  ∧ Forall (λ x, is_Some (TweenManager.contexts w !! Tween.context x))
           (TweenManager.heap w).

(** The part of a tween that decides where [next] goes: the index, the
    actions and the loop flag. *)
Definition cursor (s : Tween.local) : Z * list action * bool :=
  (Tween.index (Tween.self s), Tween.actions (Tween.self s),
   Tween.looped (Tween.self s)).

(** A tween and its surroundings but for the arrays [before], [change]
    and [types], which the loop of [next] fills. *)
Definition but_arrays (s : Tween.local) : Tween.t * object * list string :=
  (Tween.set_types [] (Tween.set_change [] (Tween.set_before [] (Tween.self s))),
   Tween.ctx s, Tween.emitted s).

(** The index of a tween never lies below [-1], where the constructor
    puts it. *)
Definition index_ok (s : Tween.local) : Prop := -1 ≤ Tween.index (Tween.self s).

(** The same bound on every tween of the store. *)
Definition heap_ok (w : TweenManager.t) : Prop :=
  Forall (λ x, -1 ≤ Tween.index x) (TweenManager.heap w).

(** The index of a tween lies at most at the length of [actions], unless
    the tween has triggered [finished]. *)
Definition within (s : Tween.local) : Prop :=
  Tween.index (Tween.self s) ≤ Z.of_nat (length (Tween.actions (Tween.self s)))
  ∨ "finished" ∈ Tween.emitted s.

(** The same bound on every tween of the store, with the events that
    the manager's store recorded for it. *)
Definition heap_within (w : TweenManager.t) : Prop :=
  ∀ r x, TweenManager.heap w !! r = Some x →
    Tween.index x ≤ Z.of_nat (length (Tween.actions x))
    ∨ ("finished", r) ∈ TweenManager.events w.

(** No tween is twice in the manager's collection. *)
Definition once (w : TweenManager.t) : Prop := NoDup (TweenManager.tweens w).

(** The progress that [doAnimate] recorded last. *)
Definition progress_of (s : Tween.local) : option float :=
  Tween.progress (Tween.self s).

(** What tells whether a tween has come to its end: the events it
    triggered, its flag [_remove] and its field [finished]. *)
Definition lifecycle (s : Tween.local) : list string * bool * option bool :=
  (Tween.emitted s, Tween._remove (Tween.self s), Tween.finished (Tween.self s)).

(** Where [next] takes the cursor: one further, or back to [0] when a
    looped tween has run past its last action. *)
Definition advance (c : Z * list action * bool) : Z * list action * bool :=
  let '(i, acts, l) := c in
  (if (Z.of_nat (length acts) <=? i + 1) && l then 0 else i + 1, acts, l).

(** Every target of the property map is a number. *)
Definition numeric (kv : list (string * value)) : Prop :=
  Forall (λ p, ∃ t, p.2 = VNumber t) kv.

(** The context [{x: 0}] and the target [{x: 10}]. *)
Definition x0 : object := {["x" := VNumber 0%float]}.
Definition x10 : properties := Props [("x", VNumber 10%float)].

(** The context [{color: "rgb(0,0,0)"}] and the target
    [{color: "rgb(255,255,255)"}]. *)
Definition black : object := {["color" := VString "rgb(0,0,0)"]}.
Definition white : properties := Props [("color", VString "rgb(255,255,255)")].

(** On the test host: the tween of [{x: 0}] after [to({x: 10}, 1000)] and
    a first [step(0)], which selects the action. *)
Definition selected_x10 : Tween.local :=
  final ((Tween.to x10 (Some 1000%float) None ;; @Tween.step test_host 0)%eff
           (fresh x0)).

(** On the test host: a manager makes a tween of [{x: 0}], which gets
    [to({x: 10}, 1000)]; three frames of [500] finish it; it is played
    again and two more frames pass. *)
Definition replayed : TweenManager.t :=
  @exec test_host
    [Create 0; Call 0 (Bound.to x10 (Some 1000%float) None);
     ManagerStep 500; ManagerStep 500; ManagerStep 500;
     Call 0 Bound.play_; ManagerStep 500; ManagerStep 500]
    (TweenManager.new [x0]).

(** On the test host: a manager makes a tween of [{x: 0}], which gets
    [to({x: 10}, 1000)], and two frames of [500] pass. *)
Definition running : TweenManager.t :=
  @exec test_host
    [Create 0; Call 0 (Bound.to x10 (Some 1000%float) None);
     ManagerStep 500; ManagerStep 500]
    (TweenManager.new [x0]).

(** On the test host: a looped tween of [{x: 0}] with two Animate actions,
    after a selecting [step(0)] and a [step(1000)] that completes the
    first action and selects the second. *)
Definition on_last_of_loop : Tween.local :=
  final ((Tween.to x10 (Some 1000%float) None ;;
          Tween.to (Props [("x", VNumber 0%float)]) (Some 1000%float) None ;;
          Tween.loop ;;
          @Tween.step test_host 0 ;; @Tween.step test_host 1000)%eff
           (fresh x0)).

(** On the test host: a manager makes two tweens of the same context. *)
Definition two_on_one : TweenManager.t :=
  @exec test_host [Create 0; Create 0] (TweenManager.new [x0]).

(** A tween whose only property was decomposed as a colour, from black
    to white. *)
Definition black_to_white : Tween.t :=
  Tween.set_types [1]
    (Tween.set_change [Triple (255, 255, 255)%float]
       (Tween.set_before [Triple (0, 0, 0)%float] (Tween.new 0))).

(** Two calls of [add], the first with a duration and an easing, the
    second without, on a tween just constructed. *)
Definition add_twice : outcome Tween.local retval :=
  (Tween.add (Props [("x", VNumber 1)]) (Some 1000%float) (Some "012") ;;
   Tween.add (Props [("x", VNumber 2)]) None None)%eff (fresh ∅).

(** ** Numeric targets, the pass of the manager, plain queues *)

(** A property map whose targets are all numbers. *)
Definition targets (nums : list (string * float)) : properties :=
  Props ((λ p, (p.1, VNumber p.2)) <$> nums).

Section Snapshot.
Context `{Platform}.

(** What [next] records for the numeric target [p] in the context [c0]. *)
Definition before_of (c0 : object) (p : string * float) : slot :=
  Scalar (obj_get c0 p.1).

Definition change_of (c0 : object) (p : string * float) : slot :=
  Scalar (VNumber (p.2 - to_number (obj_get c0 p.1))%float).

(** What [doAnimate] writes for it with the factor [mod_]. *)
Definition written (c0 : object) (mod_ : float) (p : string * float) : value :=
  js_add (obj_get c0 p.1) ((p.2 - to_number (obj_get c0 p.1)) * mod_)%float.

(** The tween has a current Animate action whose arrays were filled for
    the numeric targets [nums] in the context [c0]. *)
Definition animating (x : Tween.t) (c0 : object) (nums : list (string * float))
    : Prop :=
  is_Some (Tween.current x)
  ∧ Tween.currentAction x = Some Animate
  ∧ Tween.keys x = nums.*1
  ∧ Tween.before x = before_of c0 <$> nums
  ∧ Tween.change x = change_of c0 <$> nums
  ∧ Tween.types x = (λ _, 0) <$> nums.

(** The context after the loop of [doAnimate] over such arrays. *)
Definition animated (c0 : object) (mod_ : float) (nums : list (string * float))
    (c : object) : object :=
  foldl (λ c p, obj_set c p.1 (written c0 mod_ p)) c nums.

End Snapshot.

(** Stepping the tween [r] unless it is flagged: what one round of the
    loop of [step] of the manager does to the tweens. *)
Definition visit `{Platform} (d : float) (r : nat) : M TweenManager.t unit :=
  (x <- TweenManager.deref r ;;
   if Tween._remove x then ret tt
   else TweenManager.on_tween r (Tween.step d))%eff.

(** An outcome, with the manager's collection replaced by [l]. *)
Definition with_tweens {A} (l : list nat) (o : outcome TweenManager.t A)
    : outcome TweenManager.t A :=
  match o with
  | Ret a w => Ret a (TweenManager.set_tweens l w)
  | Throw e w => Throw e (TweenManager.set_tweens l w)
  end.


(** An action that [next] can prepare without the colour parser: a wait,
    or a property map whose targets are numbers. *)
Definition plain (a : action) : Prop :=
  is_wait (a_props a) = true ∨ ∃ kv, a_props a = Props kv ∧ numeric kv.

(** A tween with a queue of plain actions and an index not below [-1],
    that is not both looped and without actions. *)
Definition plain_tween (x : Tween.t) : Prop :=
  Forall plain (Tween.actions x)
  ∧ -1 ≤ Tween.index x
  ∧ (Tween.looped x = true → Tween.actions x ≠ []).

Definition plain_queue (s : Tween.local) : Prop := plain_tween (Tween.self s).

(** The context a tween is bound to. *)
Definition binding (s : Tween.local) : nat := Tween.context (Tween.self s).

(** A store whose references are to objects of the store and whose tweens
    are all plain. *)
Definition plain_store (w : TweenManager.t) : Prop :=
  wf w ∧ Forall plain_tween (TweenManager.heap w).

(** The numeric targets [{x: 10}]. *)
Definition to_ten : list (string * float) := [("x", 10%float)].

(** A tween of [{x: 0}] after [to({x: 10}, 1000)], before its first
    [step]. *)
Definition queued_x10 : Tween.local :=
  final (Tween.to (targets to_ten) (Some 1000%float) None (fresh x0)).

(** A tween of [{x: 0}] after [wait()], called without a time. *)
Definition queued_wait : Tween.local := final (Tween.wait None (fresh x0)).

(** A tween of [{x: 0}] after [loop()], without actions. *)
Definition looped_empty : Tween.local := final (Tween.loop (fresh x0)).

(** A tween of [{x: 0}] after [repeat(2)]. *)
Definition queued_repeat : Tween.local :=
  final (Tween.repeat (Some 2%float) (fresh x0)).

(** On the test host: a tween of [{x: 0}] after [wait(200)] and a first
    [step(0)], which selects the wait. *)
Definition waiting_200 : Tween.local :=
  final ((Tween.wait (Some 200%float) ;; @Tween.step test_host 0)%eff (fresh x0)).

(** On the test host: a tween of [{x: 0}] after [wait(200)],
    [to({x: 10}, 1000)] and two calls [step(100)]. *)
Definition gated_x10 : Tween.local :=
  final ((Tween.wait (Some 200%float) ;; Tween.to x10 (Some 1000%float) None ;;
          @Tween.step test_host 100 ;; @Tween.step test_host 100)%eff
           (fresh x0)).

(** * Properties *)

(** ** The effect monad *)

Section Effects.
Context {S : Type}.
Implicit Types s : S.

Lemma final_bind {A B} (m : M S A) (k : A → M S B) s :
  final (bind m k s) =
  match m s with
  | Ret a s' => final (k a s')
  | Throw _ s' => s'
  end.
Proof. unfold bind. by destruct (m s). Qed.

Lemma bind_Ret {A B} (m : M S A) (k : A → M S B) s a s' :
  m s = Ret a s' → bind m k s = k a s'.
Proof. intros Hm. unfold bind. by rewrite Hm. Qed.

Lemma final_bind_ret {A B} (m : M S A) (b : B) s :
  final (bind m (λ _, ret b) s) = final (m s).
Proof. rewrite final_bind. by destruct (m s). Qed.

Lemma preserves_ret {A} (I : S → Prop) (a : A) : preserves I (ret a).
Proof. by intros s. Qed.

Lemma preserves_throw {A} (I : S → Prop) e : preserves I (@throw S A e).
Proof. by intros s. Qed.

Lemma preserves_get (I : S → Prop) : preserves I get_state.
Proof. by intros s. Qed.

Lemma preserves_bind {A B} (I : S → Prop) (m : M S A) (k : A → M S B) :
  preserves I m → (∀ a, preserves I (k a)) → preserves I (bind m k).
Proof.
  intros Hm Hk s Hs. rewrite final_bind.
  specialize (Hm s Hs). destruct (m s) as [a s'|e s']; simpl in Hm; [|done].
  by apply Hk.
Qed.

Lemma preserves_for_each {A} (I : S → Prop) (body : A → M S unit) l :
  (∀ x, preserves I (body x)) → preserves I (for_each body l).
Proof.
  intros Hbody. induction l as [|x l IH]; simpl.
  - apply preserves_ret.
  - apply preserves_bind; [apply Hbody | intros _; apply IH].
Qed.

(** Keeping an observation is preserving each of its values. *)
Lemma keeps_preserves {A B} (f : S → B) (m : M S A) :
  keeps f m ↔ ∀ b, preserves (λ s, f s = b) m.
Proof.
  split.
  - intros Hk b s Hs. by rewrite Hk.
  - intros Hp s. by apply (Hp (f s)).
Qed.

Lemma keeps_ret {A B} (f : S → B) (a : A) : keeps f (ret a).
Proof. by intros s. Qed.

Lemma keeps_throw {A B} (f : S → B) e : keeps f (@throw S A e).
Proof. by intros s. Qed.

Lemma keeps_get {B} (f : S → B) : keeps f get_state.
Proof. by intros s. Qed.

Lemma keeps_bind {A B C} (f : S → C) (m : M S A) (k : A → M S B) :
  keeps f m → (∀ a, keeps f (k a)) → keeps f (bind m k).
Proof.
  rewrite !keeps_preserves. intros Hm Hk c.
  apply preserves_bind; [done|]. intros a. revert c. by apply keeps_preserves.
Qed.

Lemma keeps_for_each {A B} (f : S → B) (body : A → M S unit) l :
  (∀ x, keeps f (body x)) → keeps f (for_each body l).
Proof.
  rewrite keeps_preserves. intros Hbody c. apply preserves_for_each.
  intros x. revert c. by apply keeps_preserves.
Qed.

Lemma total_ret {A} (P : S → Prop) (Q : A → S → Prop) (a : A) :
  (∀ s, P s → Q a s) → total P (ret a) Q.
Proof. intros HPQ s Hs. exists a, s. split; [done | by apply HPQ]. Qed.

Lemma total_bind {A B} (P : S → Prop) (R : A → S → Prop) (Q : B → S → Prop)
    (m : M S A) (k : A → M S B) :
  total P m R → (∀ a, total (R a) (k a) Q) → total P (bind m k) Q.
Proof.
  intros Hm Hk s Hs. destruct (Hm s Hs) as (a & s' & Hms & HR).
  unfold bind. rewrite Hms. by apply Hk.
Qed.

(** A loop whose body keeps the invariant [I] on the elements it meets. *)
Lemma total_for_each {A} (I : S → Prop) (body : A → M S unit) (l : list A) :
  (∀ x, x ∈ l → total I (body x) (λ _, I)) →
  total I (for_each body l) (λ _, I).
Proof.
  induction l as [|x l IH]; intros Hbody; simpl.
  - by apply total_ret.
  - eapply total_bind; [apply Hbody; left |].
    intros ?. apply IH. intros y Hy. apply Hbody. by right.
Qed.

End Effects.

(** ** What the methods of a tween leave alone *)

Create HintDb frames.

(** Splits a [keeps] goal along the structure of the code, after trying
    the frames that are known already. *)
Ltac frame_step :=
  first
    [ solve [auto with frames nocore]
    | apply keeps_ret
    | apply keeps_throw
    | apply keeps_get
    | apply keeps_bind; [| intros ?]
    | apply keeps_for_each; intros ? ].

Ltac frame := repeat (frame_step || case_match).

Section TweenFrames.
Context `{Platform}.
Implicit Types s : Tween.local.

Lemma needle_false : Tween.needle = "false".
Proof. reflexivity. Qed.

Lemma upd_keeps_ctx g : keeps Tween.ctx (Tween.upd g).
Proof. by intros s. Qed.

Lemma upd_keeps_cursor g :
  (∀ x, Tween.index (g x) = Tween.index x
        ∧ Tween.actions (g x) = Tween.actions x
        ∧ Tween.looped (g x) = Tween.looped x) →
  keeps cursor (Tween.upd g).
Proof.
  intros Hg [x c e]. unfold cursor. simpl.
  by destruct (Hg x) as (-> & -> & ->).
Qed.

Lemma upd_keeps_lifecycle g :
  (∀ x, Tween._remove (g x) = Tween._remove x
        ∧ Tween.finished (g x) = Tween.finished x) →
  keeps lifecycle (Tween.upd g).
Proof.
  intros Hg [x c e]. unfold lifecycle. simpl. by destruct (Hg x) as [-> ->].
Qed.

Lemma upd_keeps_progress g :
  (∀ x, Tween.progress (g x) = Tween.progress x) →
  keeps progress_of (Tween.upd g).
Proof. intros Hg [x c e]. apply Hg. Qed.

End TweenFrames.

#[export] Hint Extern 1 (keeps _ (Tween.upd _)) =>
  first [ apply upd_keeps_ctx
        | apply upd_keeps_cursor; by intros []
        | apply upd_keeps_progress; by intros []
        | apply upd_keeps_lifecycle; by intros [] ] : frames.
#[export] Hint Extern 1 (keeps _ (Tween.trigger _)) => by intros ? : frames.
#[export] Hint Extern 1 (keeps _ (Tween.write _ _)) => by intros ? : frames.
#[export] Hint Extern 1 (keeps _ (Tween.read _)) => by intros ? : frames.
#[export] Hint Extern 1 (keeps _ Tween.this) => by intros ? : frames.

Section ContextFrame.
Context `{Platform}.

Lemma decompose_color_keeps_ctx v target :
  keeps Tween.ctx (Tween.decompose_color v target).
Proof. unfold Tween.decompose_color. frame. Qed.

Hint Resolve decompose_color_keeps_ctx : frames.

Lemma decompose_keeps_ctx props key :
  keeps Tween.ctx (Tween.decompose props key).
Proof. unfold Tween.decompose. frame. Qed.

Hint Resolve decompose_keeps_ctx : frames.

Lemma select_keeps_ctx : keeps Tween.ctx Tween.select.
Proof. unfold Tween.select. frame. Qed.

Hint Resolve select_keeps_ctx : frames.

(** [next] never writes to the context. *)
Lemma next_keeps_ctx : keeps Tween.ctx Tween.next.
Proof. unfold Tween.next, Tween.manager_remove. frame. Qed.

End ContextFrame.

Section ProgressFrame.
Context `{Platform}.

Lemma decompose_color_keeps_progress v target :
  keeps progress_of (Tween.decompose_color v target).
Proof. unfold Tween.decompose_color. frame. Qed.

Hint Resolve decompose_color_keeps_progress : frames.

Lemma decompose_keeps_progress props key :
  keeps progress_of (Tween.decompose props key).
Proof. unfold Tween.decompose. frame. Qed.

Hint Resolve decompose_keeps_progress : frames.

Lemma select_keeps_progress : keeps progress_of Tween.select.
Proof. unfold Tween.select. frame. Qed.

Hint Resolve select_keeps_progress : frames.

(** [next] leaves the recorded progress as it is. *)
Lemma next_keeps_progress : keeps progress_of Tween.next.
Proof. unfold Tween.next, Tween.manager_remove. frame. Qed.

End ProgressFrame.

Section LifecycleFrame.
Context `{Platform}.

Lemma decompose_color_keeps_lifecycle v target :
  keeps lifecycle (Tween.decompose_color v target).
Proof. unfold Tween.decompose_color. frame. Qed.

Hint Resolve decompose_color_keeps_lifecycle : frames.

Lemma decompose_keeps_lifecycle props key :
  keeps lifecycle (Tween.decompose props key).
Proof. unfold Tween.decompose. frame. Qed.

Hint Resolve decompose_keeps_lifecycle : frames.

(** Preparing an action triggers nothing and ends nothing. *)
Lemma select_keeps_lifecycle : keeps lifecycle Tween.select.
Proof. unfold Tween.select. frame. Qed.

End LifecycleFrame.

Section CursorFrame.
Context `{Platform}.
Implicit Types s : Tween.local.

Lemma decompose_color_keeps_cursor v target :
  keeps cursor (Tween.decompose_color v target).
Proof. unfold Tween.decompose_color. frame. Qed.

Hint Resolve decompose_color_keeps_cursor : frames.

Lemma decompose_keeps_cursor props key :
  keeps cursor (Tween.decompose props key).
Proof. unfold Tween.decompose. frame. Qed.

Hint Resolve decompose_keeps_cursor : frames.

(** Preparing an action moves nothing in the queue. *)
Lemma select_keeps_cursor : keeps cursor Tween.select.
Proof. unfold Tween.select. frame. Qed.

(** [next] moves the cursor by [advance], whatever else happens. *)
Lemma next_cursor s : cursor (final (Tween.next s)) = advance (cursor s).
Proof.
  destruct s as [x c e]. unfold Tween.next.
  rewrite !final_bind. cbn -[Z.add Z.leb Tween.select].
  destruct (_ <=? _) eqn:Hend; [destruct (Tween.looped x) eqn:Hl|];
    rewrite ?final_bind; cbn -[Z.add Z.leb Tween.select];
    rewrite ?select_keeps_cursor; unfold cursor, advance;
    cbn -[Z.add Z.leb]; rewrite ?Hend, ?Hl, ?andb_false_r; done.
Qed.

End CursorFrame.

(** ** Building the queue *)

(** C5, as the claim states it, fails: after [add({x:1}, 1000, "012")] the
    tween remembers [1000] and ["012"], yet [add({x:2})] queues its action
    with the duration [0.5] and the easing ["045"]. *)
Lemma C5_defaults_not_remembered :
  ∃ s, add_twice = Ret This s
       ∧ Tween.prevDuration (Tween.self s) = Some 1000%float
       ∧ Tween.prevEasing (Tween.self s) = Some "012"
       ∧ Tween.actions (Tween.self s) !! 1%nat =
           Some (Action (Props [("x", VNumber 2)]) (Some 0.5%float) (Some "045")).
Proof. exists (final add_twice). by vm_compute. Qed.

(** What [add] does, in full. *)
Lemma add_ret (s : Tween.local) props duration easing :
  Tween.add props duration easing s =
    Ret This
      (Tween.Local
         (Tween.set_actions
            (Tween.actions (Tween.self s) ++
             [Action props
                (if truthy_number duration then duration else Some 0.5%float)
                (if truthy_string easing then easing else Some "045")])
            (Tween.set_prevEasing
               (if truthy_string easing then easing
                else Tween.prevEasing (Tween.self s))
               (Tween.set_prevDuration
                  (if truthy_number duration then duration
                   else Tween.prevDuration (Tween.self s))
                  (Tween.self s))))
         (Tween.ctx s) (Tween.emitted s)).
Proof.
  destruct s as [x c e]. unfold Tween.add, bind, Tween.upd, Tween.this, modify.
  destruct (truthy_number duration), (truthy_string easing), x; reflexivity.
Qed.

(** C5 (amended): [add] returns the tween itself and appends one action;
    a duration and an easing that are given (truthy) are stored in
    [prevDuration] and [prevEasing] and used for this action; a duration or
    an easing that is omitted is replaced by the constants [0.5] and
    ["045"], whatever was stored before, and leaves the stored value as it
    was. *)
Theorem C5_add_uses_fixed_defaults (s : Tween.local) props duration easing :
  (∃ s', Tween.add props duration easing s = Ret This s'
         ∧ Tween.actions (Tween.self s') =
             Tween.actions (Tween.self s) ++
             [Action props
                (if truthy_number duration then duration else Some 0.5%float)
                (if truthy_string easing then easing else Some "045")]
         ∧ Tween.prevDuration (Tween.self s') =
             (if truthy_number duration then duration
              else Tween.prevDuration (Tween.self s))
         ∧ Tween.prevEasing (Tween.self s') =
             (if truthy_string easing then easing
              else Tween.prevEasing (Tween.self s)))
  ∧ (∃ s', Tween.add props None None s = Ret This s'
           ∧ Tween.actions (Tween.self s') =
               Tween.actions (Tween.self s) ++
               [Action props (Some 0.5%float) (Some "045")]
           ∧ Tween.prevDuration (Tween.self s') = Tween.prevDuration (Tween.self s)
           ∧ Tween.prevEasing (Tween.self s') = Tween.prevEasing (Tween.self s)).
Proof.
  split; (eexists; split; [apply add_ret|]); by destruct s as [[] ? ?].
Qed.


(** ** Decomposing an action *)

Section Decompose.
Context `{Platform}.
Implicit Types s : Tween.local.
Local Open Scope eff_scope.

(** A numeric target: the current value, the difference, and kind [0]. *)
Lemma decompose_number s props key t :
  prop_get props key = VNumber t →
  Tween.decompose props key s =
    Ret tt
      (Tween.Local
         (Tween.set_types (Tween.types (Tween.self s) ++ [0])
            (Tween.set_change
               (Tween.change (Tween.self s) ++
                [Scalar (VNumber (t - to_number (obj_get (Tween.ctx s) key))%float)])
               (Tween.set_before
                  (Tween.before (Tween.self s) ++ [Scalar (obj_get (Tween.ctx s) key)])
                  (Tween.self s))))
         (Tween.ctx s) (Tween.emitted s)).
Proof.
  intros Hget. destruct s as [x c e].
  unfold Tween.decompose, bind, Tween.read. rewrite Hget. by destruct x.
Qed.

(** A string target is taken for an angle unless it starts with
    ["false"]: the test looks for the text of the comparison
    ["rad" > -1]. *)
Lemma decompose_string s props key t :
  prop_get props key = VString t →
  indexOf t "false" ≠ 0 →
  Tween.decompose props key s =
    Ret tt
      (Tween.Local
         (Tween.set_types (Tween.types (Tween.self s) ++ [2])
            (Tween.set_change
               (Tween.change (Tween.self s) ++
                [Scalar (VNumber (circWrappedDistance (obj_get (Tween.ctx s) key)
                                                      (parseFloat t)))])
               (Tween.set_before
                  (Tween.before (Tween.self s) ++ [Scalar (obj_get (Tween.ctx s) key)])
                  (Tween.self s))))
         (Tween.ctx s) (Tween.emitted s)).
Proof.
  intros Hget Hidx. destruct s as [x c e].
  unfold Tween.decompose, bind, Tween.read. rewrite Hget, needle_false.
  apply Z.eqb_neq in Hidx. rewrite Hidx. by destruct x.
Qed.

(** The kind that [decompose] records is [kind_of] the target; when the
    colour parser throws, nothing is recorded. *)
Lemma decompose_kind s props key :
  match Tween.decompose props key s with
  | Ret _ s' =>
      Tween.types (Tween.self s') =
      Tween.types (Tween.self s) ++ [kind_of (prop_get props key)]
  | Throw _ s' =>
      kind_of (prop_get props key) = 1
      ∧ Tween.types (Tween.self s') = Tween.types (Tween.self s)
  end.
Proof.
  destruct s as [x c e].
  unfold Tween.decompose, Tween.decompose_color, bind, Tween.read, Tween.upd,
    Tween.this, modify, throw, kind_of.
  rewrite needle_false.
  destruct (prop_get props key) as [| b | t | t]; cbn;
    try destruct (indexOf t "false" =? 0); cbn;
    try destruct (cq_color (obj_get c key)) as [[[b0 b1] b2]|]; cbn;
    try destruct (cq_color _) as [[[a0 a1] a2]|]; cbn;
    by destruct x.
Qed.

Lemma assoc_numeric kv key :
  numeric kv → key ∈ kv.*1 → ∃ t, assoc kv key = Some (VNumber t).
Proof.
  induction 1 as [|[k v] kv [t Hv] _ IH]; cbn; [by intros ?%elem_of_nil|].
  intros Hin. case_bool_decide as Hk.
  - simpl in Hv. subst v. by exists t.
  - apply elem_of_cons in Hin as [->|Hin]; [done | by apply IH].
Qed.

End Decompose.

(** ** Selecting an action *)

Section Select.
Context `{Platform}.
Implicit Types s : Tween.local.
Local Open Scope eff_scope.

Lemma decompose_keeps_but_arrays props key :
  keeps but_arrays (Tween.decompose props key).
Proof.
  intros [x c e].
  unfold Tween.decompose, Tween.decompose_color, bind, Tween.read, Tween.upd,
    Tween.this, modify, throw.
  repeat (case_match; cbn); by destruct x.
Qed.

(** Over numeric targets the loop of [next] always returns. *)
Lemma for_each_decompose_numeric kv ks :
  numeric kv → ks ⊆ kv.*1 →
  total (λ _, True) (for_each (Tween.decompose (Props kv)) ks) (λ _ _, True).
Proof.
  intros Hkv Hks. apply total_for_each. intros key Hkey s _.
  destruct (assoc_numeric kv key Hkv (Hks _ Hkey)) as [t Ht].
  eexists tt, _. split; [|done].
  apply decompose_number. unfold prop_get. simpl. by rewrite Ht.
Qed.

(** Selecting an action with numeric targets returns; it makes the action
    the one to animate, fills the three arrays, and touches neither the
    context nor the rest of the tween. *)
Lemma select_numeric s kv d e :
  js_nth (Tween.actions (Tween.self s)) (Tween.index (Tween.self s))
    = Some (Action (Props kv) d e) →
  numeric kv →
  ∃ bf ch ty,
    Tween.select s =
      Ret tt
        (Tween.Local
           (Tween.set_easing e
              (Tween.set_duration d
                 (Tween.set_currentAction (Some Animate)
                    (Tween.set_types ty
                       (Tween.set_change ch
                          (Tween.set_before bf
                             (Tween.set_keys kv.*1
                                (Tween.set_current (Some (Action (Props kv) d e))
                                   (Tween.self s)))))))))
           (Tween.ctx s) (Tween.emitted s)).
Proof.
  intros Hnth Hkv. destruct s as [x c ev].
  unfold Tween.select, bind, Tween.this. cbn -[for_each Tween.decompose].
  simpl in Hnth. rewrite Hnth. cbn -[for_each Tween.decompose].
  match goal with |- context [for_each ?b ?l ?s0] =>
    pose proof (keeps_for_each but_arrays b l
                  (decompose_keeps_but_arrays (Props kv)) s0) as Hkeep;
    destruct (for_each_decompose_numeric kv l Hkv (reflexivity _) s0 I)
      as ([] & s1 & Hs1 & _)
  end.
  rewrite Hs1 in Hkeep |- *. destruct s1 as [[] ? ?], x.
  unfold but_arrays in Hkeep. cbn in Hkeep |- *. simplify_eq.
  by eexists _, _, _.
Qed.

(** Selecting an action that is not a wait: the arrays are emptied and
    filled key by key, then the handler, the duration and the easing are
    set. *)
Lemma select_animate s a :
  js_nth (Tween.actions (Tween.self s)) (Tween.index (Tween.self s)) = Some a →
  is_wait (a_props a) = false →
  Tween.select s =
    (for_each (Tween.decompose (a_props a)) (Object_keys (a_props a)) ;;
     Tween.upd (Tween.set_currentAction (Some Animate)) ;;
     Tween.upd (Tween.set_duration (a_duration a)) ;;
     Tween.upd (Tween.set_easing (a_easing a)))
      (Tween.Local
         (Tween.set_types []
            (Tween.set_before []
               (Tween.set_change []
                  (Tween.set_keys (Object_keys (a_props a))
                     (Tween.set_current (Some a) (Tween.self s))))))
         (Tween.ctx s) (Tween.emitted s)).
Proof.
  intros Hnth Hwait. destruct s as [x c e]. simpl in Hnth.
  unfold Tween.select, bind, Tween.this. cbn -[for_each Tween.decompose].
  rewrite Hnth. cbn -[for_each Tween.decompose]. rewrite Hwait.
  by destruct x.
Qed.

(** Selecting a wait: only the duration and the handler are set. *)
Lemma select_wait s a :
  js_nth (Tween.actions (Tween.self s)) (Tween.index (Tween.self s)) = Some a →
  is_wait (a_props a) = true →
  Tween.select s =
    Ret tt
      (Tween.Local
         (Tween.set_currentAction (Some Wait)
            (Tween.set_duration (a_duration a)
               (Tween.set_current (Some a) (Tween.self s))))
         (Tween.ctx s) (Tween.emitted s)).
Proof.
  intros Hnth Hwait. destruct s as [x c e]. simpl in Hnth.
  unfold Tween.select, bind, Tween.this. cbn -[for_each Tween.decompose].
  rewrite Hnth. cbn -[for_each Tween.decompose]. rewrite Hwait.
  by destruct x.
Qed.

(** Before the end of the queue [next] resets the elapsed time, moves the
    index on and selects. *)
Lemma next_select s :
  (Z.of_nat (length (Tween.actions (Tween.self s)))
     <=? Tween.index (Tween.self s) + 1) = false →
  Tween.next s =
    Tween.select
      (Tween.Local
         (Tween.set_index (Tween.index (Tween.self s) + 1)
            (Tween.set_delta (Some 0%float) (Tween.self s)))
         (Tween.ctx s) (Tween.emitted s)).
Proof.
  intros Hend. destruct s as [x c e]. simpl in Hend.
  unfold Tween.next, bind. cbn -[Tween.select Z.add Z.leb].
  destruct x. cbn -[Tween.select Z.add Z.leb] in Hend |- *. by rewrite Hend.
Qed.

(** At the end of the queue of a tween that is not looped, [next] reads
    no action: it triggers the two events, sets [finished] and asks for the
    removal. *)
Lemma next_finish s :
  (Z.of_nat (length (Tween.actions (Tween.self s)))
     <=? Tween.index (Tween.self s) + 1) = true →
  Tween.looped (Tween.self s) = false →
  Tween.next s =
    Ret tt
      (Tween.Local
         (Tween.set__remove true
            (Tween.set_finished (Some true)
               (Tween.set_index (Tween.index (Tween.self s) + 1)
                  (Tween.set_delta (Some 0%float) (Tween.self s)))))
         (Tween.ctx s) ("finish" :: "finished" :: Tween.emitted s)).
Proof.
  intros Hend Hloop. destruct s as [x c e]. simpl in Hend, Hloop.
  unfold Tween.next, bind. cbn -[Tween.select Z.add Z.leb].
  destruct x. cbn -[Tween.select Z.add Z.leb] in Hend, Hloop |- *.
  by rewrite Hend, Hloop.
Qed.

(** At the end of the queue of a looped tween, [next] triggers [loop] and
    selects the first action. *)
Lemma next_loop s :
  (Z.of_nat (length (Tween.actions (Tween.self s)))
     <=? Tween.index (Tween.self s) + 1) = true →
  Tween.looped (Tween.self s) = true →
  Tween.next s =
    Tween.select
      (Tween.Local
         (Tween.set_index 0
            (Tween.set_index (Tween.index (Tween.self s) + 1)
               (Tween.set_delta (Some 0%float) (Tween.self s))))
         (Tween.ctx s) ("loop" :: Tween.emitted s)).
Proof.
  intros Hend Hloop. destruct s as [x c e]. simpl in Hend, Hloop.
  unfold Tween.next, bind. cbn -[Tween.select Z.add Z.leb].
  destruct x. cbn -[Tween.select Z.add Z.leb] in Hend, Hloop |- *.
  by rewrite Hend, Hloop.
Qed.

(** A wait whose time has come: [step] goes on with [next]. *)
Lemma step_wait_elapsed s d a :
  Tween.current (Tween.self s) = Some a →
  Tween.currentAction (Tween.self s) = Some Wait →
  (num (Tween.duration (Tween.self s))
     <=? num (Tween.delta (Tween.self s)) + d)%float = true →
  Tween.step d s =
    Tween.next
      (Tween.Local
         (Tween.set_delta (Some (num (Tween.delta (Tween.self s)) + d)%float)
            (Tween.self s))
         (Tween.ctx s) (Tween.emitted s)).
Proof.
  intros Hcur Hact Hle. destruct s as [x c e], x. simpl in Hcur, Hact, Hle.
  subst. unfold Tween.step, bind, Tween.doWait, bind.
  cbn -[Tween.next]. unfold num in Hle. by rewrite Hle.
Qed.

End Select.

(** ** The conversion [| 0] *)

Lemma toward_zero_truncate x t : toward_zero x t ↔ t = truncate x.
Proof.
  unfold toward_zero, truncate.
  destruct (Prim2SF x) as [s|s| |s m e]; [done..|].
  destruct (0 <=? e) eqn:He.
  - apply Z.leb_le in He.
    rewrite (Z.max_l 0 (- e)), (Z.max_r 0 e), Z.pow_0_r by lia.
    pose proof (Z.pow_pos_nonneg 2 e) as Hpow.
    generalize dependent (2 ^ e). intros p Hp.
    assert (0 < Z.pos m * p) by (apply Z.mul_pos_pos; lia).
    destruct s; lia.
  - apply Z.leb_gt in He.
    rewrite (Z.max_r 0 (- e)), (Z.max_l 0 e), Z.pow_0_r, Z.mul_1_r by lia.
    assert (0 < 2 ^ (- e)) as Hq by (apply Z.pow_pos_nonneg; lia).
    generalize dependent (2 ^ (- e)). intros q Hq.
    pose proof (Z.div_mod (Z.pos m) q) as Hdiv.
    pose proof (Z.mod_pos_bound (Z.pos m) q Hq) as Hmod.
    pose proof (Z.div_pos (Z.pos m) q) as Hnonneg.
    split.
    + intros [Hsign [Hlo Hhi]].
      assert (Z.abs t = Z.pos m / q) as Habs.
      { apply (Z.div_unique (Z.pos m) q (Z.abs t) (Z.pos m - Z.abs t * q)); lia. }
      destruct s; lia.
    + intros ->. set (a := Z.pos m / q) in *.
      assert (0 ≤ a) by (apply Hnonneg; lia).
      assert (Z.pos m = q * a + Z.pos m mod q) as Hm by (apply Hdiv; lia).
      destruct s.
      * rewrite Z.abs_opp, Z.abs_eq by done. split; [lia|]. nia.
      * rewrite Z.abs_eq by done. split; [lia|]. nia.
Qed.

Lemma wraps_to_ToInt32 x : wraps_to (truncate x) (ToInt32 x).
Proof.
  unfold wraps_to, ToInt32.
  pose proof (Z.mod_pos_bound (truncate x) (2 ^ 32) eq_refl) as Hmod.
  pose proof (Z.div_mod (truncate x) (2 ^ 32)) as Hdiv.
  change (2 ^ 32) with 4294967296 in *. change (2 ^ 31) with 2147483648 in *.
  destruct (2147483648 <=? truncate x mod 4294967296) eqn:Hhigh.
  - apply Z.leb_le in Hhigh. split; [lia|].
    exists (- (truncate x / 4294967296) - 1). lia.
  - apply Z.leb_gt in Hhigh. split; [lia|].
    exists (- (truncate x / 4294967296)). lia.
Qed.

Lemma wraps_to_unique t n n' : wraps_to t n → wraps_to t n' → n = n'.
Proof.
  unfold wraps_to. change (2 ^ 32) with 4294967296.
  change (2 ^ 31) with 2147483648.
  intros [Hn [k ->]] [Hn' [k' ->]]. lia.
Qed.

(** [ToInt32] is the conversion [| 0]: rounding towards zero, then
    wrapping to 32 bits. *)
Lemma ToInt32_or_zero x n : or_zero x n ↔ n = ToInt32 x.
Proof.
  split.
  - intros (t & Ht%toward_zero_truncate & Hn). subst t.
    apply (wraps_to_unique (truncate x)); [done | apply wraps_to_ToInt32].
  - intros ->. exists (truncate x). split.
    + by apply toward_zero_truncate.
    + apply wraps_to_ToInt32.
Qed.

Lemma append_assoc (a b c : string) : (a +:+ b) +:+ c = a +:+ b +:+ c.
Proof.
  induction a as [|ch a IH]; [done|].
  change (String ch ((a +:+ b) +:+ c) = String ch (a +:+ b +:+ c)).
  by rewrite IH.
Qed.

Lemma join_three (r g b : Z) :
  Tween.join_channels [r; g; b]
    = pretty r +:+ "," +:+ pretty g +:+ "," +:+ pretty b.
Proof. reflexivity. Qed.

(** ** Stepping through a queue *)

Section Queue.
Context {host : Platform}.
Implicit Types s : Tween.local.
Local Open Scope eff_scope.

(** C1 (amended): on the context [{x: 0}], after [to({x: 10}, 1000)] and
    under a linear easing, the first [step] (of any length [d0]) selects
    the action and starts its clock at [0]: it leaves [x = 0].  A
    [step(500)] after it leaves [x = 5], and one more [step(500)], when the
    time supplied after the selecting call reaches [1000], leaves [x = 10]
    and moves the tween past the action (index [1], finished, removal
    requested). *)
Theorem C1_interpolation_counts_from_selection (d0 : float) :
  linear host →
  ∃ s1 s2 s3,
    (Tween.to x10 (Some 1000%float) None ;; Tween.step d0) (fresh x0) = Ret tt s1
    ∧ Tween.step 500 s1 = Ret tt s2
    ∧ Tween.step 500 s2 = Ret tt s3
    ∧ (obj_get (Tween.ctx s1) "x" = VNumber 0%float
       ∧ Tween.index (Tween.self s1) = 0
       ∧ Tween.delta (Tween.self s1) = Some 0%float)
    ∧ (obj_get (Tween.ctx s2) "x" = VNumber 5%float
       ∧ Tween.index (Tween.self s2) = 0
       ∧ Tween.progress (Tween.self s2) = Some 0.5%float)
    ∧ (obj_get (Tween.ctx s3) "x" = VNumber 10%float
       ∧ Tween.index (Tween.self s3) = 1
       ∧ Tween.finished (Tween.self s3) = Some true
       ∧ Tween._remove (Tween.self s3) = true).
Proof.
  intros Hlin.
  match goal with |- ∃ _ _ _, ?p ?s0 = _ ∧ _ =>
    pose (s1 := final (p s0)); pose (s2 := final (Tween.step 500 s1));
    pose (s3 := final (Tween.step 500 s2))
  end.
  exists s1, s2, s3.
  split; [by vm_compute|]. split; [by vm_compute|]. split; [by vm_compute|].
  vm_compute. fold (@ease host). rewrite !Hlin. by vm_compute.
Qed.

(** C3: the string ["rgb(255,255,255)"] does not mention ["rad"], and
    yet, on every host and every context, [next] records it as an angle
    (kind [2]) with a delta from [circWrappedDistance], without a call of
    the colour parser. *)
Theorem C3_color_string_taken_for_angle (c : object) :
  mentions_rad "rgb(255,255,255)" = false
  ∧ ∃ s, (Tween.to white (Some 1000%float) None ;; Tween.next) (fresh c) = Ret tt s
         ∧ Tween.types (Tween.self s) = [2]
         ∧ Tween.before (Tween.self s) = [Scalar (obj_get c "color")]
         ∧ Tween.change (Tween.self s) =
             [Scalar (VNumber (circWrappedDistance (obj_get c "color")
                                 (parseFloat "rgb(255,255,255)")))].
Proof.
  split; [done|].
  unfold Tween.to. unfold bind at 1. rewrite add_ret.
  rewrite next_select by done.
  erewrite select_animate by (vm_compute; reflexivity).
  cbn [a_props for_each Object_keys entries white fmap list_fmap fst].
  unfold bind at 1 2. erewrite decompose_string; [|done|by vm_compute].
  eexists. split; [reflexivity|]. done.
Qed.

(** C4: on the context [{color: "rgb(0,0,0)"}], after
    [to({color: "rgb(255,255,255)"}, 1000)], a selecting [step] and a
    [step(500)] (progress [0.5]), on every host: the property was
    decomposed as an angle, and what is written is the result of
    [circWrap] on the old string with a number appended to it, not the
    three floored channels. *)
Theorem C4_color_animated_as_angle (d0 : float) :
  ∃ s, (Tween.to white (Some 1000%float) None ;; Tween.step d0 ;; Tween.step 500)
         (fresh black) = Ret tt s
       ∧ Tween.progress (Tween.self s) = Some 0.5%float
       ∧ Tween.types (Tween.self s) = [2]
       ∧ obj_get (Tween.ctx s) "color" =
           circWrap
             (VString
                ("rgb(0,0,0)" +:+
                 NumberToString
                   (circWrappedDistance (VString "rgb(0,0,0)")
                      (parseFloat "rgb(255,255,255)")
                    * ease 0.5 (Some "045")))).
Proof.
  match goal with |- ∃ _, ?p ?s0 = _ ∧ _ => exists (final (p s0)) end.
  by vm_compute.
Qed.

(** The loop of [doAnimate] returns; it writes to the context only, and
    what it writes depends on the tween through [types], [before] and
    [change] alone. *)
Lemma animate_loop_ret mod_ (l : list (nat * string)) x c e :
  ∃ c', for_each (λ ik, Tween.animate mod_ ik.1 ik.2) l (Tween.Local x c e)
          = Ret tt (Tween.Local x c' e)
        ∧ ∀ x' e', Tween.types x' = Tween.types x →
                   Tween.before x' = Tween.before x →
                   Tween.change x' = Tween.change x →
                   for_each (λ ik, Tween.animate mod_ ik.1 ik.2) l
                     (Tween.Local x' c e')
                     = Ret tt (Tween.Local x' c' e').
Proof.
  revert c. induction l as [|[i key] l IH]; intros c.
  - by exists c.
  - cbn [for_each fst snd].
    set (c1 := Tween.ctx (final (Tween.animate mod_ i key (Tween.Local x c e)))).
    assert (∀ x' e', Tween.types x' = Tween.types x →
                     Tween.before x' = Tween.before x →
                     Tween.change x' = Tween.change x →
              Tween.animate mod_ i key (Tween.Local x' c e')
                = Ret tt (Tween.Local x' c1 e')) as Hc1.
    { intros x' e' Ht Hb Hch. subst c1.
      unfold Tween.animate, bind, Tween.this, Tween.write, modify, ret. cbn.
      rewrite Ht, Hb, Hch. by repeat case_match. }
    destruct (IH c1) as (c' & Hc' & Hother). exists c'. split.
    + unfold bind. by rewrite (Hc1 x e).
    + intros x' e' Ht Hb Hch. unfold bind. rewrite (Hc1 x' e') by done.
      by apply Hother.
Qed.

Lemma animate_all_ret mod_ keys x c e :
  ∃ c', Tween.animate_all mod_ keys (Tween.Local x c e)
          = Ret tt (Tween.Local x c' e)
        ∧ ∀ x' e', Tween.types x' = Tween.types x →
                   Tween.before x' = Tween.before x →
                   Tween.change x' = Tween.change x →
                   Tween.animate_all mod_ keys (Tween.Local x' c e')
                     = Ret tt (Tween.Local x' c' e').
Proof. apply animate_loop_ret. Qed.

(** With a current Animate action whose duration divides itself to [1],
    [forward] records progress [1], runs the loop of [doAnimate] with the
    factor of progress [1], and goes on with [next]. *)
Lemma forward_unfold s a d :
  Tween.current (Tween.self s) = Some a →
  Tween.currentAction (Tween.self s) = Some Animate →
  Tween.duration (Tween.self s) = Some d →
  ((d + 0) / d)%float = 1%float →
  Tween.forward s =
    (Tween.animate_all (ease 1 (Tween.easing (Tween.self s)))
       (Tween.keys (Tween.self s)) ;;
     Tween.next ;; ret Undefined)
      (Tween.Local
         (Tween.set_progress (Some 1%float)
            (Tween.set_delta (Some (d + 0)%float) (Tween.self s)))
         (Tween.ctx s) (Tween.emitted s)).
Proof.
  intros Hcur Hact Hdur Hd. destruct s as [x c e], x.
  simpl in Hcur, Hact, Hdur. subst.
  unfold Tween.forward, Tween.step, Tween.doAnimate, Tween.animate_all, bind,
    Tween.upd, Tween.this, modify, ret.
  cbn -[Tween.next for_each Math_min PrimFloat.leb PrimFloat.div PrimFloat.add].
  unfold num, default. rewrite Hd.
  change (Math_min 1 1) with 1%float. change (1 <=? 1)%float with true.
  unfold Tween.set_progress, Tween.set_delta. cbn -[Tween.next for_each].
  by destruct (for_each _ _ _).
Qed.

(** The colour branch of the switch of [doAnimate]. *)
Lemma animate_colour mod_ i key x c e b0 b1 b2 c0 c1 c2 :
  Tween.types x !! i = Some 1 →
  Tween.before x !! i = Some (Triple (b0, b1, b2)) →
  Tween.change x !! i = Some (Triple (c0, c1, c2)) →
  Tween.animate mod_ i key (Tween.Local x c e) =
    Ret tt
      (Tween.Local x
         (<[key := VString
                     ("rgb(" +:+
                      Tween.join_channels [ToInt32 (b0 + c0 * mod_);
                                           ToInt32 (b1 + c1 * mod_);
                                           ToInt32 (b2 + c2 * mod_)] +:+ ")")]> c)
         e).
Proof.
  intros Ht Hb Hc.
  unfold Tween.animate, bind, Tween.this, Tween.write, modify. cbn.
  by rewrite Ht, Hb, Hc.
Qed.

(** X4: the colour branch of [doAnimate] writes the string
    ["rgb(r,g,b)"]: the three channels in decimal, separated by commas
    without spaces, where each channel is [before + change * mod]
    converted with [| 0], that is rounded towards zero (not down) and
    then wrapped to a signed 32-bit integer; the conversion determines
    the channel. *)
Theorem X4_color_channels_are_truncated mod_ i key x c e b0 b1 b2 c0 c1 c2 :
  Tween.types x !! i = Some 1 →
  Tween.before x !! i = Some (Triple (b0, b1, b2)) →
  Tween.change x !! i = Some (Triple (c0, c1, c2)) →
  (∃ r g b,
     or_zero (b0 + c0 * mod_) r
     ∧ or_zero (b1 + c1 * mod_) g
     ∧ or_zero (b2 + c2 * mod_) b
     ∧ Tween.animate mod_ i key (Tween.Local x c e) =
         Ret tt
           (Tween.Local x
              (<[key := VString
                          ("rgb(" +:+ pretty r +:+ "," +:+ pretty g +:+ ","
                           +:+ pretty b +:+ ")")]> c)
              e))
  ∧ (∀ v n n', or_zero v n → or_zero v n' → n = n').
Proof.
  intros Ht Hb Hc. split.
  - exists (ToInt32 (b0 + c0 * mod_)), (ToInt32 (b1 + c1 * mod_)),
      (ToInt32 (b2 + c2 * mod_)).
    split; [by apply ToInt32_or_zero|]. split; [by apply ToInt32_or_zero|].
    split; [by apply ToInt32_or_zero|].
    rewrite (animate_colour mod_ i key x c e b0 b1 b2 c0 c1 c2 Ht Hb Hc).
    rewrite join_three. by rewrite !append_assoc.
  - intros v n n' ->%ToInt32_or_zero ->%ToInt32_or_zero. done.
Qed.

(** X2: when a looped tween runs past its last action, [next] triggers
    [loop] once and no other event, puts the index back to [0], and leaves
    [finished] and the flag [_remove] as they were: the tween is not
    removed. *)
Theorem X2_loop_wraps_without_removal s :
  Tween.looped (Tween.self s) = true →
  Z.of_nat (length (Tween.actions (Tween.self s))) ≤ Tween.index (Tween.self s) + 1 →
  Tween.emitted (final (Tween.next s)) = "loop" :: Tween.emitted s
  ∧ Tween.index (Tween.self (final (Tween.next s))) = 0
  ∧ Tween._remove (Tween.self (final (Tween.next s))) = Tween._remove (Tween.self s)
  ∧ Tween.finished (Tween.self (final (Tween.next s)))
      = Tween.finished (Tween.self s).
Proof.
  intros Hloop Hend%Z.leb_le. rewrite next_loop by done.
  match goal with |- context [Tween.select ?s0] =>
    pose proof (select_keeps_lifecycle s0) as Hlife;
    pose proof (select_keeps_cursor s0) as Hcur
  end.
  unfold lifecycle in Hlife. unfold cursor in Hcur.
  injection Hlife as -> -> ->. injection Hcur as -> _ _.
  by destruct s as [[] ? ?].
Qed.

End Queue.

(** ** The lower bound of the index *)

Create HintDb bounds.

Lemma upd_preserves_index_ok g :
  (∀ x, -1 ≤ Tween.index x → -1 ≤ Tween.index (g x)) →
  preserves index_ok (Tween.upd g).
Proof. intros Hg [x c e]. apply Hg. Qed.

#[export] Hint Extern 1 (preserves index_ok (Tween.upd _)) =>
  apply upd_preserves_index_ok; intros []; simpl; lia : bounds.
#[export] Hint Extern 1 (preserves _ (Tween.trigger _)) => by intros ? : bounds.
#[export] Hint Extern 1 (preserves _ (Tween.write _ _)) => by intros ? : bounds.
#[export] Hint Extern 1 (preserves _ (Tween.read _)) => by intros ? : bounds.
#[export] Hint Extern 1 (preserves _ Tween.this) => by intros ? : bounds.

(** Splits a [preserves] goal along the structure of the code. *)
Ltac bound_step :=
  first
    [ solve [auto with bounds nocore]
    | apply preserves_ret
    | apply preserves_throw
    | apply preserves_get
    | apply preserves_bind; [| intros ?]
    | apply preserves_for_each; intros ? ].

Ltac bound := repeat (bound_step || case_match).

Section Bounds.
Context `{Platform}.
Implicit Types s : Tween.local.

Lemma select_index_ok : preserves index_ok Tween.select.
Proof.
  intros s. unfold index_ok.
  pose proof (select_keeps_cursor s) as Hc. unfold cursor in Hc.
  injection Hc as -> _ _. done.
Qed.

Hint Resolve select_index_ok : bounds.

Lemma next_index_ok : preserves index_ok Tween.next.
Proof. unfold Tween.next, Tween.manager_remove. bound. Qed.

Hint Resolve next_index_ok : bounds.

Lemma animate_index_ok mod_ i key : preserves index_ok (Tween.animate mod_ i key).
Proof. unfold Tween.animate. bound. Qed.

Hint Resolve animate_index_ok : bounds.

Lemma doAnimate_index_ok d : preserves index_ok (Tween.doAnimate d).
Proof. unfold Tween.doAnimate. bound. Qed.

Lemma doWait_index_ok d : preserves index_ok (Tween.doWait d).
Proof. unfold Tween.doWait. bound. Qed.

Hint Resolve doAnimate_index_ok doWait_index_ok : bounds.

Lemma step_index_ok d : preserves index_ok (Tween.step d).
Proof. unfold Tween.step. bound. Qed.

Hint Resolve step_index_ok : bounds.

(** The loop of [end] only ever answers a position it went over, or [0]. *)
Lemma scan_nonneg acts n i last r :
  0 ≤ i → 0 ≤ last → Tween.scan acts n i last = Some r → 0 ≤ r.
Proof.
  revert i last. induction n as [|n IH]; intros i last Hi Hlast; simpl.
  - intros [= <-]. done.
  - destruct (js_nth acts i) as [a|]; [|done].
    apply IH; [lia|]. by destruct (is_object _).
Qed.

Lemma end_index_ok : preserves index_ok Tween.end_.
Proof.
  intros s Hs. unfold Tween.end_. rewrite final_bind.
  cbn [Tween.this]. destruct (Tween.scan _ _ _ _) as [r|] eqn:Hscan; [|done].
  apply scan_nonneg in Hscan; [|unfold index_ok in Hs; lia|lia].
  revert s Hs. change (preserves index_ok
    (bind (Tween.upd (Tween.set_index (r - 1)))
       (λ _, bind Tween.next
          (λ _, bind (Tween.upd (λ x, Tween.set_delta (Tween.duration x) x))
             (λ _, bind (Tween.step 0) (λ _, ret This)))))).
  bound.
Qed.

(** No method of a tween takes its index below [-1]. *)
Lemma method_index_ok (m : M Tween.local retval) :
  m = Tween.loop ∨ m = Tween.stop ∨ m = Tween.end_ ∨ m = Tween.forward
  ∨ m = Tween.rewind ∨ m = Tween.prev
  ∨ (∃ p d e, m = Tween.add p d e ∨ m = Tween.to p d e)
  ∨ (∃ n, m = Tween.repeat n ∨ m = Tween.wait n ∨ m = Tween.delay n) →
  preserves index_ok m.
Proof.
  intros [->|[->|[->|[->|[->|[->|[(p & d & e & [->| ->])|(n & [->|[->| ->]])]]]]]]].
  - unfold Tween.loop. bound.
  - unfold Tween.stop, Tween.manager_remove. bound.
  - apply end_index_ok.
  - unfold Tween.forward. bound.
  - unfold Tween.rewind. bound.
  - unfold Tween.prev. bound.
  - unfold Tween.add. bound.
  - unfold Tween.to, Tween.add. bound.
  - unfold Tween.repeat. bound.
  - unfold Tween.wait. bound.
  - unfold Tween.delay. bound.
Qed.

End Bounds.

(** ** The upper bound of the index *)

Lemma upd_preserves_within g :
  (∀ x, Tween.index x ≤ Z.of_nat (length (Tween.actions x)) →
        Tween.index (g x) ≤ Z.of_nat (length (Tween.actions (g x)))) →
  preserves within (Tween.upd g).
Proof. intros Hg [x c e] [Hx|He]; [left; by apply Hg | by right]. Qed.

Lemma trigger_within name : preserves within (Tween.trigger name).
Proof. intros [x c e] [Hx|He]; [by left | right; by apply elem_of_cons; right]. Qed.

#[export] Hint Extern 1 (preserves within (Tween.upd _)) =>
  apply upd_preserves_within; intros []; simpl; rewrite ?length_app; simpl; lia
  : bounds.
#[export] Hint Resolve trigger_within : bounds.

Section Within.
Context `{Platform}.
Implicit Types s : Tween.local.
Local Open Scope eff_scope.

Lemma select_within : preserves within Tween.select.
Proof.
  intros s. unfold within.
  pose proof (select_keeps_cursor s) as Hc. unfold cursor in Hc.
  pose proof (select_keeps_lifecycle s) as Hl. unfold lifecycle in Hl.
  injection Hc as -> -> _. injection Hl as -> _ _. done.
Qed.

(** Whatever the index was, [next] leaves it at most at the length, or
    triggers [finished]. *)
Lemma next_establishes_within s : within (final (Tween.next s)).
Proof.
  destruct (Z.of_nat (length (Tween.actions (Tween.self s)))
              <=? Tween.index (Tween.self s) + 1) eqn:Hend.
  - destruct (Tween.looped (Tween.self s)) eqn:Hloop.
    + rewrite next_loop by done. apply select_within. left.
      destruct s as [[] ? ?]. simpl. lia.
    + rewrite next_finish by done. right. simpl.
      apply elem_of_cons. right. by apply elem_of_cons; left.
  - rewrite next_select by done. apply select_within. left.
    apply Z.leb_gt in Hend. destruct s as [[] ? ?]. simpl in *. lia.
Qed.

Lemma next_within : preserves within Tween.next.
Proof. intros s _. apply next_establishes_within. Qed.

Hint Resolve select_within next_within : bounds.

Lemma animate_within mod_ i key : preserves within (Tween.animate mod_ i key).
Proof. unfold Tween.animate. bound. Qed.

Hint Resolve animate_within : bounds.

Lemma doAnimate_within d : preserves within (Tween.doAnimate d).
Proof. unfold Tween.doAnimate. bound. Qed.

Lemma doWait_within d : preserves within (Tween.doWait d).
Proof. unfold Tween.doWait. bound. Qed.

Hint Resolve doAnimate_within doWait_within : bounds.

Lemma step_within d : preserves within (Tween.step d).
Proof. unfold Tween.step. bound. Qed.

Hint Resolve step_within : bounds.

(** [end] puts the index where its loop sends it and calls [next] at
    once, which brings the bound back. *)
Lemma end_within : preserves within Tween.end_.
Proof.
  intros s Hs. unfold Tween.end_. rewrite final_bind.
  cbn [Tween.this]. destruct (Tween.scan _ _ _ _) as [r|]; [|done].
  rewrite final_bind. cbn [Tween.upd modify final]. rewrite final_bind.
  match goal with |- context [Tween.next ?s0] =>
    pose proof (next_establishes_within s0) as Hnext;
    destruct (Tween.next s0) as [[] s1|e s1]; [|done]
  end.
  revert s1 Hnext. change (preserves within
    (bind (Tween.upd (λ x, Tween.set_delta (Tween.duration x) x))
       (λ _, bind (Tween.step 0) (λ _, ret This)))).
  bound.
Qed.

(** An action appended to the queue the tween has. *)
Lemma append_within {A} a (r : A) :
  preserves within
    (x <- Tween.this ;;
     Tween.upd (Tween.set_actions (Tween.actions x ++ [a])) ;;
     ret r).
Proof.
  intros [x c e] [Hx|He]; [left | by right].
  destruct x. simpl in *. rewrite length_app. simpl. lia.
Qed.

Hint Resolve append_within : bounds.

(** No method of a tween takes its index past the length of [actions]
    without triggering [finished]. *)
Lemma method_within (m : M Tween.local retval) :
  m = Tween.loop ∨ m = Tween.stop ∨ m = Tween.end_ ∨ m = Tween.forward
  ∨ m = Tween.rewind ∨ m = Tween.prev
  ∨ (∃ p d e, m = Tween.add p d e ∨ m = Tween.to p d e)
  ∨ (∃ n, m = Tween.repeat n ∨ m = Tween.wait n ∨ m = Tween.delay n) →
  preserves within m.
Proof.
  intros [->|[->|[->|[->|[->|[->|[(p & d & e & [->| ->])|(n & [->|[->| ->]])]]]]]]].
  - unfold Tween.loop. bound.
  - unfold Tween.stop, Tween.manager_remove. bound.
  - apply end_within.
  - unfold Tween.forward. bound.
  - unfold Tween.rewind. bound.
  - unfold Tween.prev. bound.
  - unfold Tween.add. bound.
  - unfold Tween.to, Tween.add. bound.
  - unfold Tween.repeat. bound.
  - unfold Tween.wait. bound.
  - unfold Tween.delay. bound.
Qed.

End Within.

(** ** The manager's collection *)

Section Manager.
Context `{Platform}.
Implicit Types w : TweenManager.t.
Local Open Scope eff_scope.

Lemma indexOf_absent (l : list nat) x : TweenManager.indexOf l x = -1 ↔ x ∉ l.
Proof.
  induction l as [|y l IH]; simpl.
  - split; [intros _; apply not_elem_of_nil | done].
  - rewrite not_elem_of_cons. case_bool_decide as Hy.
    + split; [done | intros [? _]; congruence].
    + destruct (TweenManager.indexOf l x =? -1) eqn:Hi.
      * apply Z.eqb_eq in Hi. split; [|done]. intros _. split; [congruence|].
        by apply IH.
      * apply Z.eqb_neq in Hi. split; [|intros [_ Hx]; by apply IH in Hx].
        assert (-1 ≤ TweenManager.indexOf l x) as Hge.
        { clear. induction l as [|z l IHl]; simpl; [done|].
          case_bool_decide; [lia|]. destruct (_ =? _); lia. }
        lia.
Qed.

Lemma deref_preserves (J : TweenManager.t → Prop) r :
  preserves J (TweenManager.deref r).
Proof. intros w Hw. unfold TweenManager.deref. by case_match. Qed.

Lemma on_tween_keeps_tweens {A} r (m : M Tween.local A) :
  keeps TweenManager.tweens (TweenManager.on_tween r m).
Proof. intros w. unfold TweenManager.on_tween. by repeat case_match. Qed.

Lemma on_tween_once {A} r (m : M Tween.local A) :
  preserves once (TweenManager.on_tween r m).
Proof. intros w. unfold once. by rewrite on_tween_keeps_tweens. Qed.

Lemma on_tween_heap_ok {A} r (m : M Tween.local A) :
  preserves index_ok m → preserves heap_ok (TweenManager.on_tween r m).
Proof.
  intros Hm w Hw. unfold TweenManager.on_tween.
  destruct (TweenManager.heap w !! r) as [x|] eqn:Hr; [|done].
  destruct (TweenManager.contexts w !! Tween.context x) as [c|]; [|done].
  assert (index_ok (Tween.Local x c [])) as Hx.
  { unfold heap_ok in Hw. rewrite Forall_lookup in Hw. by apply (Hw r). }
  apply Hm in Hx.
  destruct (m _) as [a l|e l]; simpl in *; by apply Forall_insert.
Qed.

Lemma remove_once r : preserves once (TweenManager.remove r).
Proof. by intros w. Qed.

Lemma remove_heap_ok r : preserves heap_ok (TweenManager.remove r).
Proof.
  intros w Hw. unfold heap_ok. simpl. apply Forall_alter; [done|].
  by intros [].
Qed.

Lemma add_once r : preserves once (TweenManager.add r).
Proof.
  intros w Hw. unfold TweenManager.add, bind, modify, get_state. simpl.
  destruct (_ =? -1) eqn:Hi; simpl; [|done].
  apply Z.eqb_eq, indexOf_absent in Hi. unfold once. simpl.
  apply NoDup_app. split; [done|]. split; [|apply NoDup_singleton].
  intros y Hy ->%list_elem_of_singleton. done.
Qed.

Lemma add_heap_ok r : preserves heap_ok (TweenManager.add r).
Proof.
  intros w Hw. unfold TweenManager.add, bind, modify, get_state. simpl.
  assert (Forall (λ x, -1 ≤ Tween.index x)
            (alter (Tween.set__remove false) r (TweenManager.heap w))).
  { apply Forall_alter; [done|]. by intros []. }
  by destruct (_ =? -1).
Qed.

Hint Resolve deref_preserves on_tween_once remove_once remove_heap_ok
  add_once add_heap_ok : bounds.

Lemma discard_once object safe : preserves once (TweenManager.discard object safe).
Proof. unfold TweenManager.discard, TweenManager.discard_one. bound. Qed.

Lemma discard_heap_ok object safe :
  preserves heap_ok (TweenManager.discard object safe).
Proof. unfold TweenManager.discard, TweenManager.discard_one. bound. Qed.

Lemma tween_once context : preserves once (TweenManager.tween context).
Proof.
  unfold TweenManager.tween. bound.
Qed.

Lemma tween_heap_ok context : preserves heap_ok (TweenManager.tween context).
Proof.
  intros w Hw. unfold TweenManager.tween.
  rewrite final_bind. cbn [get_state]. rewrite final_bind. cbn [modify].
  rewrite final_bind_ret. apply add_heap_ok.
  unfold heap_ok. simpl. apply Forall_app. split; [done|].
  by apply Forall_singleton.
Qed.

Hint Resolve discard_once discard_heap_ok tween_once tween_heap_ok : bounds.

(** The body of the loop of [step], case by case. *)
Lemma step_body_unfold d i r w :
  TweenManager.step_body d i r w =
    match TweenManager.heap w !! r with
    | None => Throw TypeError w
    | Some x =>
        match (if Tween._remove x then Ret tt w
               else TweenManager.on_tween r (Tween.step d) w) with
        | Throw e w1 => Throw e w1
        | Ret _ w1 =>
            match TweenManager.heap w1 !! r with
            | None => Throw TypeError w1
            | Some x1 =>
                if Tween._remove x1
                then Ret (i - 1)
                       (TweenManager.set_tweens
                          (delete (Z.to_nat i) (TweenManager.tweens w1)) w1)
                else Ret i w1
            end
        end
    end.
Proof.
  unfold TweenManager.step_body, bind, TweenManager.deref.
  destruct (TweenManager.heap w !! r) as [x|]; [|done].
  destruct (Tween._remove x); cbn [ret].
  - destruct (TweenManager.heap w !! r) as [x1|]; [|done].
    by destruct (Tween._remove x1).
  - destruct (TweenManager.on_tween r (Tween.step d) w) as [[] w1|e w1]; [|done].
    destruct (TweenManager.heap w1 !! r) as [x1|]; [|done].
    by destruct (Tween._remove x1).
Qed.

Lemma step_body_once d i r : preserves once (TweenManager.step_body d i r).
Proof.
  intros w Hw. rewrite step_body_unfold.
  destruct (TweenManager.heap w !! r) as [x|]; [|done].
  assert (once (final (if Tween._remove x then Ret tt w
                       else TweenManager.on_tween r (Tween.step d) w))) as Hw1.
  { destruct (Tween._remove x); [done | by apply on_tween_once]. }
  destruct (if Tween._remove x then _ else _) as [[] w1|e w1]; [|done].
  simpl in Hw1. destruct (TweenManager.heap w1 !! r) as [x1|]; [|done].
  destruct (Tween._remove x1); [|done].
  unfold once. simpl. eapply sublist_NoDup; [done | apply sublist_delete].
Qed.

Lemma step_body_heap_ok d i r : preserves heap_ok (TweenManager.step_body d i r).
Proof.
  intros w Hw. rewrite step_body_unfold.
  destruct (TweenManager.heap w !! r) as [x|]; [|done].
  assert (heap_ok (final (if Tween._remove x then Ret tt w
                          else TweenManager.on_tween r (Tween.step d) w))) as Hw1.
  { destruct (Tween._remove x); [done|].
    by apply on_tween_heap_ok; [apply step_index_ok|]. }
  destruct (if Tween._remove x then _ else _) as [[] w1|e w1]; [|done].
  simpl in Hw1. destruct (TweenManager.heap w1 !! r) as [x1|]; [|done].
  by destruct (Tween._remove x1).
Qed.

(** What every round of the loop of [step] preserves, the loop does. *)
Lemma step_loop_preserves (J : TweenManager.t → Prop) d :
  (∀ i r, preserves J (TweenManager.step_body d i r)) →
  ∀ fuel i w o, J w → TweenManager.step_loop fuel d i w = Some o → J (final o).
Proof.
  intros Hbody. induction fuel as [|fuel IH]; intros i w o Hw; simpl; [done|].
  destruct (i <? _); [|by intros [= <-]].
  destruct (js_nth _ i) as [r|]; [|by intros [= <-]].
  specialize (Hbody i r w Hw).
  destruct (TweenManager.step_body d i r w) as [i' w'|e w']; simpl in Hbody.
  - by apply IH.
  - by intros [= <-].
Qed.

Lemma step_preserves (J : TweenManager.t → Prop) d w :
  (∀ i r, preserves J (TweenManager.step_body d i r)) →
  (∀ v w, J w → J (TweenManager.set_delta v w)) →
  J w → J (from_option final w (TweenManager.step d w)).
Proof.
  intros Hbody Hdelta Hw. unfold TweenManager.step.
  destruct (TweenManager.step_loop _ _ _ _) as [o|] eqn:Ho; simpl; [|done].
  eapply step_loop_preserves; [done| |done]. by apply Hdelta.
Qed.

(** The methods of a tween, called by reference. *)
Lemma call_once this m : preserves once (Bound.call this m).
Proof.
  destruct m; unfold Bound.call, Bound.play, Bound.discard; bound.
Qed.

Lemma call_heap_ok this m : preserves heap_ok (Bound.call this m).
Proof.
  destruct m; unfold Bound.call, Bound.play, Bound.discard; bound;
    apply on_tween_heap_ok;
    first [ apply next_index_ok | apply step_index_ok
          | apply upd_preserves_index_ok; by intros []
          | apply method_index_ok; eauto 20 ].
Qed.

(** Every operation of a caller keeps both invariants. *)
Lemma exec1_once o w : once w → once (exec1 o w).
Proof.
  intros Hw. destruct o; simpl.
  - by apply tween_once.
  - by apply add_once.
  - by apply remove_once.
  - by apply discard_once.
  - by apply step_preserves; [apply step_body_once | |].
  - by apply call_once.
Qed.

Lemma exec1_heap_ok o w : heap_ok w → heap_ok (exec1 o w).
Proof.
  intros Hw. destruct o; simpl.
  - by apply tween_heap_ok.
  - by apply add_heap_ok.
  - by apply remove_heap_ok.
  - by apply discard_heap_ok.
  - by apply step_preserves; [apply step_body_heap_ok | |].
  - by apply call_heap_ok.
Qed.

Lemma exec_invariant (J : TweenManager.t → Prop) ops w :
  (∀ o w, J w → J (exec1 o w)) → J w → J (exec ops w).
Proof.
  intros Hstep. revert w. unfold exec.
  induction ops as [|o ops IH]; intros w Hw; simpl; [done|].
  by apply IH, Hstep.
Qed.

(** What [add] of the manager does, in full. *)
Lemma manager_add_ret r w :
  TweenManager.add r w =
    Ret tt
      (TweenManager.Make
         (if bool_decide (r ∈ TweenManager.tweens w) then TweenManager.tweens w
          else TweenManager.tweens w ++ [r])
         (TweenManager.delta w)
         (alter (Tween.set__remove false) r (TweenManager.heap w))
         (TweenManager.contexts w) (TweenManager.events w)).
Proof.
  unfold TweenManager.add, bind, modify, get_state. simpl.
  destruct (_ =? -1) eqn:Hi.
  - apply Z.eqb_eq, indexOf_absent in Hi. by rewrite bool_decide_eq_false_2.
  - apply Z.eqb_neq in Hi. rewrite bool_decide_eq_true_2; [done|].
    destruct (decide (r ∈ TweenManager.tweens w)) as [|Hr]; [done|].
    by apply indexOf_absent in Hr.
Qed.

(** A method that keeps the bound on the tween it runs on, keeps it on
    the store: the events of the call are recorded for that tween, and
    the events recorded before stay. *)
Lemma on_tween_heap_within {A} r (m : M Tween.local A) :
  preserves within m → preserves heap_within (TweenManager.on_tween r m).
Proof.
  intros Hm w Hw. unfold TweenManager.on_tween.
  destruct (TweenManager.heap w !! r) as [x|] eqn:Hr; [|done].
  destruct (TweenManager.contexts w !! Tween.context x) as [c|]; [|done].
  assert (heap_within (TweenManager.store w r (Tween.context x)
                         (final (m (Tween.Local x c []))))) as Hstore.
  { intros r' x'. unfold TweenManager.store. simpl.
    destruct (decide (r' = r)) as [->|Hne].
    - rewrite list_lookup_insert_eq by (by eapply lookup_lt_Some).
      intros [= <-]. destruct (Hw r x Hr) as [Hx|He].
      + destruct (Hm (Tween.Local x c [])) as [Hl|Hl]; [by left | by left |].
        right. apply elem_of_app. left.
        by apply (list_elem_of_fmap_2 (λ name, (name, r))).
      + right. apply elem_of_app. by right.
    - rewrite list_lookup_insert_ne by done. intros Hx'.
      destruct (Hw r' x' Hx') as [Hx|He]; [by left|].
      right. apply elem_of_app. by right. }
  by destruct (m _).
Qed.

(** Setting or clearing the flag of a tween leaves the bound alone. *)
Lemma flag_heap_within b r w :
  heap_within w →
  heap_within
    (TweenManager.set_heap
       (alter (Tween.set__remove b) r (TweenManager.heap w)) w).
Proof.
  intros Hw r' x'. simpl. destruct (decide (r' = r)) as [->|Hne].
  - rewrite list_lookup_alter_eq.
    destruct (TweenManager.heap w !! r) as [x|] eqn:Hr; [|done]. simpl.
    intros [= <-]. destruct (Hw r x Hr); [left; by destruct x | by right].
  - rewrite list_lookup_alter_ne by done. apply Hw.
Qed.

Lemma remove_heap_within r : preserves heap_within (TweenManager.remove r).
Proof. intros w Hw. by apply flag_heap_within. Qed.

Lemma add_heap_within r : preserves heap_within (TweenManager.add r).
Proof.
  intros w Hw. unfold TweenManager.add, bind, modify, get_state. simpl.
  pose proof (flag_heap_within false r w Hw) as Hflag.
  by destruct (_ =? -1).
Qed.

Hint Resolve remove_heap_within add_heap_within : bounds.

Lemma discard_heap_within object safe :
  preserves heap_within (TweenManager.discard object safe).
Proof. unfold TweenManager.discard, TweenManager.discard_one. bound. Qed.

(** A tween just constructed has the index [-1]. *)
Lemma tween_heap_within context :
  preserves heap_within (TweenManager.tween context).
Proof.
  intros w Hw. unfold TweenManager.tween.
  rewrite final_bind. cbn [get_state]. rewrite final_bind. cbn [modify].
  rewrite final_bind_ret. apply add_heap_within.
  intros r x. simpl. intros Hx. apply lookup_app_Some in Hx as [Hx|[_ Hx]].
  - by apply Hw.
  - apply list_lookup_singleton_Some in Hx as [_ <-]. left. simpl. lia.
Qed.

Hint Resolve discard_heap_within tween_heap_within : bounds.

Lemma step_body_heap_within d i r :
  preserves heap_within (TweenManager.step_body d i r).
Proof.
  intros w Hw. rewrite step_body_unfold.
  destruct (TweenManager.heap w !! r) as [x|]; [|done].
  assert (heap_within (final (if Tween._remove x then Ret tt w
                              else TweenManager.on_tween r (Tween.step d) w)))
    as Hw1.
  { destruct (Tween._remove x); [done|].
    by apply on_tween_heap_within; [apply step_within|]. }
  destruct (if Tween._remove x then _ else _) as [[] w1|e w1]; [|done].
  simpl in Hw1. destruct (TweenManager.heap w1 !! r) as [x1|]; [|done].
  by destruct (Tween._remove x1).
Qed.

Lemma call_heap_within this m : preserves heap_within (Bound.call this m).
Proof.
  destruct m; unfold Bound.call, Bound.play, Bound.discard; bound;
    apply on_tween_heap_within;
    first [ apply next_within | apply step_within
          | apply upd_preserves_within; by intros []
          | apply method_within; eauto 20 ].
Qed.

Lemma exec1_heap_within o w : heap_within w → heap_within (exec1 o w).
Proof.
  intros Hw. destruct o; simpl.
  - by apply tween_heap_within.
  - by apply add_heap_within.
  - by apply remove_heap_within.
  - by apply discard_heap_within.
  - by apply step_preserves; [apply step_body_heap_within | |].
  - by apply call_heap_within.
Qed.

(** C7 (amended): whatever a caller does with the manager and its
    tweens, the index of every tween lies at or above [-1], and at or
    below the length of [actions] as long as the tween has not triggered
    [finished].  A call of [next] on a tween whose index lies below the
    length of [actions] leaves the index within [0, length]; and
    whenever the index, once incremented, has reached the length (or
    passed it), the end of the sequence is handled before an action is
    read: a tween that is not looped is finished on the spot, with the
    index where the increment put it, and a looped one gets [loop]
    triggered and its index reset to [0] before [select] reads
    [actions].  (Past its finish the index is not bounded by the length:
    a [next] on a tween that has finished increments it again.) *)
Theorem C7_index_bounds :
  (∀ contexts ops r x,
     TweenManager.heap (exec ops (TweenManager.new contexts)) !! r = Some x →
     -1 ≤ Tween.index x
     ∧ (Tween.index x ≤ Z.of_nat (length (Tween.actions x))
        ∨ ("finished", r)
            ∈ TweenManager.events (exec ops (TweenManager.new contexts))))
  ∧ (∀ s : Tween.local,
       -1 ≤ Tween.index (Tween.self s)
          < Z.of_nat (length (Tween.actions (Tween.self s))) →
       0 ≤ Tween.index (Tween.self (final (Tween.next s)))
         ≤ Z.of_nat (length (Tween.actions (Tween.self (final (Tween.next s))))))
  ∧ (∀ s : Tween.local,
       Z.of_nat (length (Tween.actions (Tween.self s)))
         ≤ Tween.index (Tween.self s) + 1 →
       if Tween.looped (Tween.self s)
       then Tween.next s =
              Tween.select
                (Tween.Local
                   (Tween.set_index 0
                      (Tween.set_index (Tween.index (Tween.self s) + 1)
                         (Tween.set_delta (Some 0%float) (Tween.self s))))
                   (Tween.ctx s) ("loop" :: Tween.emitted s))
       else Tween.next s =
              Ret tt
                (Tween.Local
                   (Tween.set__remove true
                      (Tween.set_finished (Some true)
                         (Tween.set_index (Tween.index (Tween.self s) + 1)
                            (Tween.set_delta (Some 0%float) (Tween.self s)))))
                   (Tween.ctx s) ("finish" :: "finished" :: Tween.emitted s))).
Proof.
  split; [|split].
  - intros contexts ops r x Hx. split.
    + assert (heap_ok (exec ops (TweenManager.new contexts))) as Hok.
      { apply exec_invariant; [apply exec1_heap_ok | by apply Forall_nil]. }
      unfold heap_ok in Hok. rewrite Forall_lookup in Hok. by apply (Hok r).
    + assert (heap_within (exec ops (TweenManager.new contexts))) as Hin.
      { apply exec_invariant; [apply exec1_heap_within | by intros ? ?]. }
      by apply Hin.
  - intros s Hs. pose proof (next_cursor s) as Hc.
    unfold cursor, advance in Hc. injection Hc as -> -> _.
    destruct (_ && _) eqn:Hwrap; [|lia].
    apply andb_true_iff in Hwrap as [Hend%Z.leb_le _]. lia.
  - intros s Hend%Z.leb_le.
    destruct (Tween.looped (Tween.self s)) eqn:Hloop.
    + by apply next_loop.
    + by apply next_finish.
Qed.

(** C8: a tween is at most once in the manager's collection.  [add] is
    an idempotent insert: it clears the flag [_remove] of the tween and
    appends the tween only when it is absent, so that on a tween that is
    present it changes nothing but the flag, and a second [add] changes
    nothing at all.  Every operation of a caller on the manager and on
    the tweens ([tween], [add], [remove], [discard], [step] and the
    methods of a tween) takes a collection without repetition to one
    without repetition, and so the collection of a manager never repeats
    a tween. *)
Theorem C8_collection_holds_each_tween_once :
  (∀ w r, r ∈ TweenManager.tweens w →
          TweenManager.add r w =
            Ret tt
              (TweenManager.set_heap
                 (alter (Tween.set__remove false) r (TweenManager.heap w)) w))
  ∧ (∀ w r, r ∉ TweenManager.tweens w →
            TweenManager.add r w =
              Ret tt
                (TweenManager.set_tweens (TweenManager.tweens w ++ [r])
                   (TweenManager.set_heap
                      (alter (Tween.set__remove false) r (TweenManager.heap w)) w)))
  ∧ (∀ w r, final (TweenManager.add r (final (TweenManager.add r w)))
            = final (TweenManager.add r w))
  ∧ (∀ o w, once w → once (exec1 o w))
  ∧ (∀ contexts ops, once (exec ops (TweenManager.new contexts))).
Proof.
  split; [|split; [|split; [|split]]].
  - intros w r Hr. rewrite manager_add_ret, bool_decide_eq_true_2 by done.
    by destruct w.
  - intros w r Hr. rewrite manager_add_ret, bool_decide_eq_false_2 by done.
    by destruct w.
  - intros w r. rewrite !manager_add_ret. cbn [final TweenManager.tweens
      TweenManager.heap TweenManager.delta TweenManager.contexts
      TweenManager.events].
    rewrite list_alter_alter_eq.
    assert (r ∈ (if bool_decide (r ∈ TweenManager.tweens w)
                 then TweenManager.tweens w else TweenManager.tweens w ++ [r]))
      as Hin.
    { case_bool_decide; [done|]. apply elem_of_app. right. by left. }
    by rewrite (bool_decide_eq_true_2 _ Hin).
  - apply exec1_once.
  - intros contexts ops. apply exec_invariant; [apply exec1_once|].
    apply NoDup_nil_2.
Qed.

(** ** One pass of the manager over its collection *)

Lemma on_tween_heap_other {A} r (m : M Tween.local A) w r' :
  r' ≠ r →
  TweenManager.heap (final (TweenManager.on_tween r m w)) !! r'
    = TweenManager.heap w !! r'.
Proof.
  intros Hr. unfold TweenManager.on_tween.
  destruct (TweenManager.heap w !! r) as [x|]; [|done].
  destruct (TweenManager.contexts w !! Tween.context x) as [c|]; [|done].
  destruct (m _); simpl; by rewrite list_lookup_insert_ne.
Qed.

(** A round that returns: the other tweens are as they were; a tween
    that was flagged is not stepped; and the entry is excised exactly
    when the tween is flagged after the round. *)
Lemma step_body_ret d i r w i' w' :
  TweenManager.step_body d i r w = Ret i' w' →
  (∀ r', r' ≠ r → TweenManager.heap w' !! r' = TweenManager.heap w !! r')
  ∧ (flagged (TweenManager.heap w) r = true
     → TweenManager.heap w' = TweenManager.heap w)
  ∧ (if flagged (TweenManager.heap w') r
     then i' = i - 1
          ∧ TweenManager.tweens w' = delete (Z.to_nat i) (TweenManager.tweens w)
     else i' = i ∧ TweenManager.tweens w' = TweenManager.tweens w).
Proof.
  rewrite step_body_unfold. unfold flagged.
  destruct (TweenManager.heap w !! r) as [x|] eqn:Hx; [|done]. simpl.
  destruct (Tween._remove x) eqn:Hflag.
  - rewrite Hx, Hflag. intros [= <- <-]. simpl. by rewrite Hx; simpl; rewrite Hflag.
  - pose proof (on_tween_heap_other r (Tween.step d) w) as Hother.
    pose proof (on_tween_keeps_tweens r (Tween.step d) w) as Htweens.
    destruct (TweenManager.on_tween r (Tween.step d) w) as [[] w1|e w1]; [|done].
    simpl in Hother, Htweens.
    destruct (TweenManager.heap w1 !! r) as [x1|] eqn:Hx1; [|done].
    destruct (Tween._remove x1) eqn:Hflag1; intros [= <- <-]; simpl;
      rewrite Hx1; simpl; rewrite Hflag1, ?Htweens; by repeat split.
Qed.

(** The rounds given to the loop of [step] suffice, on every collection:
    each round moves one entry from the part not yet visited. *)
Lemma step_loop_total d fuel :
  ∀ i w,
    (Z.to_nat (Z.of_nat (length (TweenManager.tweens w)) - i) < fuel)%nat →
    is_Some (TweenManager.step_loop fuel d i w).
Proof.
  induction fuel as [|fuel IH]; intros i w Hfuel; [lia|].
  cbn [TweenManager.step_loop].
  destruct (i <? _) eqn:Hi; [|done]. apply Z.ltb_lt in Hi.
  unfold js_nth. destruct (i <? 0) eqn:Hneg; [done|]. apply Z.ltb_ge in Hneg.
  destruct (TweenManager.tweens w !! Z.to_nat i) as [r|] eqn:Hr; [|done].
  destruct (TweenManager.step_body d i r w) as [i' w'|e w'] eqn:Hbody; [|done].
  apply step_body_ret in Hbody as (_ & _ & Hcase). apply IH.
  destruct (flagged _ r); destruct Hcase as [-> ->].
  - rewrite length_delete by done. lia.
  - lia.
Qed.

(** X1: [step] of the manager always ends: on every store, with or
    without repetitions in the collection, the pass has a result (it
    returns, or a tween has thrown). *)
Theorem X1_manager_step_ends d w : is_Some (TweenManager.step d w).
Proof. unfold TweenManager.step. apply step_loop_total. simpl. lia. Qed.

Lemma remove_keeps_tweens r : keeps TweenManager.tweens (TweenManager.remove r).
Proof. by intros w. Qed.

Lemma deref_keeps {B} (f : TweenManager.t → B) r : keeps f (TweenManager.deref r).
Proof. intros w. unfold TweenManager.deref. by case_match. Qed.

Hint Resolve remove_keeps_tweens deref_keeps on_tween_keeps_tweens : frames.


(** ** What the methods return *)

Lemma on_tween_ret {A} r (m : M Tween.local A) w x c a l :
  TweenManager.heap w !! r = Some x →
  TweenManager.contexts w !! Tween.context x = Some c →
  m (Tween.Local x c []) = Ret a l →
  TweenManager.on_tween r m w
    = Ret a (TweenManager.store w r (Tween.context x) l).
Proof. intros Hx Hc Hm. unfold TweenManager.on_tween. by rewrite Hx, Hc, Hm. Qed.

(** The loop of [discard] of the manager over the tweens [l], all of
    them in the store: it returns, it touches nothing but flags, and it
    flags exactly the tweens of [l] that are bound to [object] and are not
    [safe]. *)
Lemma discard_loop_spec object safe (l : list nat) :
  ∀ w,
    Forall (λ r, is_Some (TweenManager.heap w !! r)) l →
    ∃ h, for_each (TweenManager.discard_one object safe) l w
           = Ret tt (TweenManager.set_heap h w)
         ∧ ∀ r, h !! r =
             (λ x, if bool_decide (r ∈ l) && bool_decide (Tween.context x = object)
                      && negb (bool_decide (Some r = safe))
                   then Tween.set__remove true x else x)
             <$> TweenManager.heap w !! r.
Proof.
  induction l as [|r0 l IH]; intros w Hrefs.
  - exists (TweenManager.heap w). split; [by destruct w|].
    intros r. rewrite bool_decide_eq_false_2 by apply not_elem_of_nil.
    by destruct (_ !! r).
  - apply Forall_cons in Hrefs as [[x0 Hx0] Hrefs].
    cbn [for_each].
    set (hit := bool_decide (Tween.context x0 = object)
                && negb (bool_decide (Some r0 = safe))).
    set (w1 := if hit
               then TweenManager.set_heap
                      (alter (Tween.set__remove true) r0 (TweenManager.heap w)) w
               else w).
    assert (TweenManager.discard_one object safe r0 w = Ret tt w1) as Hone.
    { unfold TweenManager.discard_one, bind, TweenManager.deref.
      rewrite Hx0. fold hit. subst w1. by destruct hit. }
    rewrite (bind_Ret _ _ _ _ _ Hone).
    destruct (IH w1) as (h & Hh & Hspec).
    { subst w1. destruct hit; [|done]. simpl.
      eapply Forall_impl; [done|]. intros r [x Hr].
      destruct (decide (r0 = r)) as [->|Hne].
      - rewrite list_lookup_alter_eq, Hr. by eexists.
      - rewrite list_lookup_alter_ne by done. by eexists. }
    exists h. split.
    { rewrite Hh. subst w1. by destruct hit, w. }
    intros r. rewrite Hspec. subst w1 hit.
    destruct (decide (r = r0)) as [->|Hne].
    + rewrite (bool_decide_eq_true_2 (r0 ∈ r0 :: l)) by left.
      destruct (bool_decide (Tween.context x0 = object)) eqn:Hb,
               (negb (bool_decide (Some r0 = safe))) eqn:Hc; simpl;
        rewrite ?list_lookup_alter_eq, Hx0; simpl;
        rewrite ?Hb, ?Hc, ?andb_false_r; simpl;
        by destruct (bool_decide (r0 ∈ l)).
    + assert (bool_decide (r ∈ r0 :: l) = bool_decide (r ∈ l)) as ->.
      { apply bool_decide_ext. rewrite elem_of_cons.
        split; [by intros [?|?] | by right]. }
      destruct (bool_decide (Tween.context x0 = object)
                && negb (bool_decide (Some r0 = safe))); simpl; [|done].
      by rewrite list_lookup_alter_ne.
Qed.

(** [discard] of the manager returns when the collection holds tweens. *)
Lemma discard_total object safe w :
  Forall (λ r, is_Some (TweenManager.heap w !! r)) (TweenManager.tweens w) →
  ∃ w', TweenManager.discard object safe w = Ret tt w'.
Proof.
  intros Hrefs. unfold TweenManager.discard.
  rewrite (bind_Ret get_state _ w w w eq_refl).
  destruct (discard_loop_spec object safe _ w Hrefs) as (h & -> & _).
  by eexists.
Qed.

(** X3: on a store whose collection holds tweens, [discard] of the tween
    [this] returns the tween itself, leaves the collection as it is, and
    flags for removal exactly the other tweens of the collection that are
    bound to the same context; [this] and the tweens of other contexts are
    as they were. *)
Theorem X3_discard_flags_the_others w this x :
  Forall (λ r, is_Some (TweenManager.heap w !! r)) (TweenManager.tweens w) →
  TweenManager.heap w !! this = Some x →
  ∃ w', Bound.call this Bound.discard_ w = Ret This w'
        ∧ TweenManager.tweens w' = TweenManager.tweens w
        ∧ ∀ r y, TweenManager.heap w !! r = Some y →
                 TweenManager.heap w' !! r =
                   Some (if bool_decide (r ∈ TweenManager.tweens w)
                            && bool_decide (Tween.context y = Tween.context x)
                            && negb (bool_decide (r = this))
                         then Tween.set__remove true y else y).
Proof.
  intros Hrefs Hx.
  destruct (discard_loop_spec (Tween.context x) (Some this)
              (TweenManager.tweens w) w Hrefs) as (h & Hh & Hspec).
  exists (TweenManager.set_heap h w). split; [|split; [done|]].
  - unfold Bound.call, Bound.discard.
    rewrite (bind_Ret (TweenManager.deref this) _ w x w)
      by (unfold TweenManager.deref; by rewrite Hx).
    unfold TweenManager.discard. unfold bind at 1.
    rewrite (bind_Ret get_state _ w w w eq_refl), Hh. done.
  - intros r y Hy. simpl. rewrite Hspec, Hy. simpl.
    assert (bool_decide (Some r = Some this) = bool_decide (r = this)) as ->; [|done].
    apply bool_decide_ext. split; [by intros [= ->] | by intros ->].
Qed.

(** C10: on a tween of a store whose references are to objects of the
    store, [delay] and [repeat] return [undefined], so that a chain that
    goes on after them throws, whereas [add], [to], [wait], [loop], [play],
    [stop] and [discard] return the tween itself. *)
Theorem C10_what_the_builders_return w this :
  wf w → is_Some (TweenManager.heap w !! this) →
  (∀ t, ∃ w', Bound.call this (Bound.delay t) w = Ret Undefined w')
  ∧ (∀ n, ∃ w', Bound.call this (Bound.repeat n) w = Ret Undefined w')
  ∧ (∀ t m, ∃ w', Bound.chain (Some this) [Bound.delay t; m] w
                  = Throw TypeError w')
  ∧ (∀ n m, ∃ w', Bound.chain (Some this) [Bound.repeat n; m] w
                  = Throw TypeError w')
  ∧ (∀ p d e, ∃ w', Bound.call this (Bound.add p d e) w = Ret This w')
  ∧ (∀ p d e, ∃ w', Bound.call this (Bound.to p d e) w = Ret This w')
  ∧ (∀ t, ∃ w', Bound.call this (Bound.wait t) w = Ret This w')
  ∧ (∃ w', Bound.call this Bound.loop w = Ret This w')
  ∧ (∃ w', Bound.call this Bound.play_ w = Ret This w')
  ∧ (∃ w', Bound.call this Bound.stop w = Ret This w')
  ∧ (∃ w', Bound.call this Bound.discard_ w = Ret This w').
Proof.
  intros [Hrefs Hctxs] [x Hx].
  assert (is_Some (TweenManager.contexts w !! Tween.context x)) as [c Hc].
  { rewrite Forall_lookup in Hctxs. by apply (Hctxs this). }
  repeat split.
  - intros t. eexists. by apply (on_tween_ret this _ w x c).
  - intros n. eexists. by apply (on_tween_ret this _ w x c).
  - intros t m. eexists. cbn [Bound.chain Bound.call]. unfold bind.
    by rewrite (on_tween_ret this (Tween.delay t) w x c _ _ Hx Hc eq_refl).
  - intros n m. eexists. cbn [Bound.chain Bound.call]. unfold bind.
    by rewrite (on_tween_ret this (Tween.repeat n) w x c _ _ Hx Hc eq_refl).
  - intros p d e. eexists. apply (on_tween_ret this _ w x c); [done..|].
    apply add_ret.
  - intros p d e. eexists. apply (on_tween_ret this _ w x c); [done..|].
    apply add_ret.
  - intros t. eexists. by apply (on_tween_ret this _ w x c).
  - eexists. by apply (on_tween_ret this _ w x c).
  - unfold Bound.call, Bound.play, bind, TweenManager.deref. rewrite Hx.
    rewrite manager_add_ret. eexists.
    erewrite (on_tween_ret this _ _ _ c); [done| | |done].
    + simpl. by rewrite list_lookup_alter_eq, Hx.
    + done.
  - eexists. by apply (on_tween_ret this _ w x c).
  - unfold Bound.call, Bound.discard, bind, TweenManager.deref. rewrite Hx.
    destruct (discard_total (Tween.context x) (Some this) w Hrefs) as [w' ->].
    by eexists.
Qed.

End Manager.

(** ** Numeric targets: selection and interpolation *)

Section Interpolation.
Context `{Platform}.
Implicit Types s : Tween.local.
Local Open Scope eff_scope.

Lemma assoc_targets nums p :
  NoDup nums.*1 → p ∈ nums →
  assoc ((λ p, (p.1, VNumber p.2)) <$> nums) p.1 = Some (VNumber p.2).
Proof.
  induction nums as [|q nums IH]; [by intros _ ?%elem_of_nil|].
  rewrite fmap_cons, NoDup_cons. intros [Hq Hnd] Hp. cbn.
  apply elem_of_cons in Hp as [->|Hp]; [by rewrite bool_decide_eq_true_2|].
  rewrite bool_decide_eq_false_2; [by apply IH|].
  intros Heq. apply Hq. rewrite Heq. by apply list_elem_of_fmap_2.
Qed.

Lemma decompose_loop_targets nums c e :
  NoDup nums.*1 →
  ∀ rest pre x,
    nums = pre ++ rest →
    Tween.before x = before_of c <$> pre →
    Tween.change x = change_of c <$> pre →
    Tween.types x = (λ _, 0) <$> pre →
    for_each (Tween.decompose (targets nums)) rest.*1 (Tween.Local x c e) =
      Ret tt
        (Tween.Local
           (Tween.set_types ((λ _, 0) <$> nums)
              (Tween.set_change (change_of c <$> nums)
                 (Tween.set_before (before_of c <$> nums) x)))
           c e).
Proof.
  intros Hnd. induction rest as [|p rest IH]; intros pre x -> Hb Hc Ht.
  - rewrite app_nil_r. destruct x. simpl in *. by subst.
  - cbn [fmap list_fmap for_each].
    erewrite bind_Ret; last first.
    { apply (decompose_number _ _ _ p.2). unfold prop_get. cbn [targets entries].
      rewrite assoc_targets; [done..|]. apply elem_of_app. right. by left. }
    cbn [Tween.self Tween.ctx Tween.emitted].
    rewrite (IH (pre ++ [p])).
    + done.
    + by rewrite <-app_assoc.
    + cbn. by rewrite Hb, fmap_app.
    + cbn. by rewrite Hc, fmap_app.
    + cbn. by rewrite Ht, fmap_app.
Qed.


(** Selecting numeric targets: the arrays hold, key by key, the value the
    context has now and its distance to the target. *)
Lemma select_targets s nums d e :
  js_nth (Tween.actions (Tween.self s)) (Tween.index (Tween.self s))
    = Some (Action (targets nums) d e) →
  NoDup nums.*1 →
  Tween.select s =
    Ret tt
      (Tween.Local
         (Tween.set_easing e
            (Tween.set_duration d
               (Tween.set_currentAction (Some Animate)
                  (Tween.set_types ((λ _, 0) <$> nums)
                     (Tween.set_change (change_of (Tween.ctx s) <$> nums)
                        (Tween.set_before (before_of (Tween.ctx s) <$> nums)
                           (Tween.set_keys nums.*1
                              (Tween.set_current (Some (Action (targets nums) d e))
                                 (Tween.self s)))))))))
         (Tween.ctx s) (Tween.emitted s)).
Proof.
  intros Hnth Hnd. rewrite (select_animate s _ Hnth) by done.
  cbn [a_props a_duration a_easing Tween.ctx Tween.emitted].
  assert (Object_keys (targets nums) = nums.*1) as ->.
  { unfold Object_keys, targets, entries. rewrite <-list_fmap_compose.
    by apply list_fmap_ext. }
  erewrite bind_Ret; last first.
  { by apply (decompose_loop_targets nums _ _ Hnd nums []). }
  by destruct s as [[] ? ?].
Qed.

(** The loop of [doAnimate] over arrays filled for numeric targets. *)
Lemma animate_loop_targets mod_ c0 x e rest :
  ∀ pre c,
    Tween.before x = before_of c0 <$> (pre ++ rest) →
    Tween.change x = change_of c0 <$> (pre ++ rest) →
    Tween.types x = (λ _, 0) <$> (pre ++ rest) →
    for_each (λ ik, Tween.animate mod_ ik.1 ik.2)
      (imap (λ i k, ((length pre + i)%nat, k)) rest.*1) (Tween.Local x c e) =
      Ret tt (Tween.Local x (animated c0 mod_ rest c) e).
Proof.
  induction rest as [|p rest IH]; intros pre c Hb Hc Ht; [done|].
  cbn [fmap list_fmap imap for_each fst snd].
  assert (Tween.animate mod_ (length pre + 0) p.1 (Tween.Local x c e) =
          Ret tt (Tween.Local x (obj_set c p.1 (written c0 mod_ p)) e)) as Hp.
  { unfold Tween.animate, bind, Tween.this. cbn [Tween.self].
    rewrite Ht, Hb, Hc, !list_lookup_fmap, Nat.add_0_r, !list_lookup_middle by done.
    done. }
  rewrite (bind_Ret _ _ _ _ _ Hp).
  rewrite (imap_ext _ (λ i k, ((length (pre ++ [p]) + i)%nat, k))).
  - rewrite IH by (by rewrite <-app_assoc). done.
  - intros i k _. rewrite length_app. simpl. f_equal. lia.
Qed.

Lemma animate_all_targets mod_ c0 x c e nums :
  Tween.before x = before_of c0 <$> nums →
  Tween.change x = change_of c0 <$> nums →
  Tween.types x = (λ _, 0) <$> nums →
  Tween.animate_all mod_ nums.*1 (Tween.Local x c e) =
    Ret tt (Tween.Local x (animated c0 mod_ nums c) e).
Proof.
  intros Hb Hc Ht. unfold Tween.animate_all.
  by apply (animate_loop_targets mod_ c0 x e nums []).
Qed.

Lemma animated_cons c0 mod_ p nums c :
  animated c0 mod_ (p :: nums) c
    = animated c0 mod_ nums (obj_set c p.1 (written c0 mod_ p)).
Proof. reflexivity. Qed.

(** What the loop leaves in the context, name by name. *)
Lemma animated_lookup_ne c0 mod_ nums c k :
  k ∉ nums.*1 → animated c0 mod_ nums c !! k = c !! k.
Proof.
  revert c. induction nums as [|p nums IH]; intros c; [done|].
  rewrite fmap_cons, not_elem_of_cons. intros [Hk Hnot].
  rewrite animated_cons, IH by done.
  unfold obj_set. by rewrite lookup_insert_ne.
Qed.

Lemma animated_lookup c0 mod_ nums c p :
  NoDup nums.*1 → p ∈ nums →
  animated c0 mod_ nums c !! p.1 = Some (written c0 mod_ p).
Proof.
  revert c. induction nums as [|q nums IH]; intros c; [by intros _ ?%elem_of_nil|].
  rewrite fmap_cons, NoDup_cons. intros [Hq Hnd] Hp. rewrite animated_cons.
  apply elem_of_cons in Hp as [->|Hp]; [|by apply IH].
  rewrite animated_lookup_ne by done. unfold obj_set. by rewrite lookup_insert_eq.
Qed.

(** One [step] of a tween that is animating numeric targets. *)
Lemma step_animating s c0 nums dt :
  animating (Tween.self s) c0 nums →
  Tween.step dt s =
    (let p := Math_min 1 ((num (Tween.delta (Tween.self s)) + dt)
                          / num (Tween.duration (Tween.self s))) in
     if (1 <=? p)%float then Tween.next else ret tt)
      (Tween.Local
         (Tween.set_progress
            (Some (Math_min 1 ((num (Tween.delta (Tween.self s)) + dt)
                               / num (Tween.duration (Tween.self s)))))
            (Tween.set_delta (Some (num (Tween.delta (Tween.self s)) + dt)%float)
               (Tween.self s)))
         (animated c0
            (ease (Math_min 1 ((num (Tween.delta (Tween.self s)) + dt)
                               / num (Tween.duration (Tween.self s))))
                  (Tween.easing (Tween.self s)))
            nums (Tween.ctx s))
         (Tween.emitted s)).
Proof.
  intros ([a Ha] & Hact & Hk & Hb & Hc & Ht). destruct s as [x c e], x.
  cbn [Tween.self Tween.ctx Tween.emitted Tween.current Tween.currentAction
       Tween.keys Tween.before Tween.change Tween.types] in *.
  subst.
  unfold Tween.step, Tween.doAnimate, bind, Tween.upd, Tween.this, modify, ret.
  cbn -[Tween.next Tween.animate_all Math_min PrimFloat.leb PrimFloat.div
        PrimFloat.add animated].
  by rewrite (animate_all_targets _ c0 _ c e nums).
Qed.


(** What [next] does when it comes to an action with numeric targets. *)
Lemma next_targets s nums d e :
  js_nth (Tween.actions (Tween.self s)) (Tween.index (Tween.self s) + 1)
    = Some (Action (targets nums) d e) →
  NoDup nums.*1 →
  ∃ x', Tween.next s = Ret tt (Tween.Local x' (Tween.ctx s) (Tween.emitted s))
        ∧ animating x' (Tween.ctx s) nums
        ∧ Tween.current x' = Some (Action (targets nums) d e)
        ∧ Tween.index x' = Tween.index (Tween.self s) + 1
        ∧ Tween.delta x' = Some 0%float
        ∧ Tween.duration x' = d
        ∧ Tween.easing x' = e
        ∧ Tween.actions x' = Tween.actions (Tween.self s)
        ∧ Tween.looped x' = Tween.looped (Tween.self s)
        ∧ Tween.finished x' = Tween.finished (Tween.self s)
        ∧ Tween._remove x' = Tween._remove (Tween.self s).
Proof.
  intros Hnth Hnd.
  assert ((Z.of_nat (length (Tween.actions (Tween.self s)))
             <=? Tween.index (Tween.self s) + 1) = false) as Hin.
  { apply Z.leb_gt. unfold js_nth in Hnth.
    destruct (_ <? 0) eqn:Hneg; [done|]. apply Z.ltb_ge in Hneg.
    apply lookup_lt_Some in Hnth. lia. }
  rewrite (next_select s Hin).
  rewrite (select_targets _ nums d e) by (by destruct s as [[] ? ?]).
  eexists. split; [reflexivity|]. destruct s as [[] ? ?].
  unfold animating. cbn. by eauto 10.
Qed.

(** X5: when the action that [next] comes to has numeric targets, [next]
    returns without a write to the context and without an event; the
    action is current with the handler [animate], its duration and its
    easing, the elapsed time is [0], and the arrays hold, key by key, the
    value the context has at this moment and its distance to the target. *)
Theorem X5_next_snapshots_numeric_targets s nums d e :
  js_nth (Tween.actions (Tween.self s)) (Tween.index (Tween.self s) + 1)
    = Some (Action (targets nums) d e) →
  NoDup nums.*1 →
  ∃ x', Tween.next s = Ret tt (Tween.Local x' (Tween.ctx s) (Tween.emitted s))
        ∧ animating x' (Tween.ctx s) nums
        ∧ Tween.current x' = Some (Action (targets nums) d e)
        ∧ Tween.index x' = Tween.index (Tween.self s) + 1
        ∧ Tween.delta x' = Some 0%float
        ∧ Tween.duration x' = d
        ∧ Tween.easing x' = e
        ∧ Tween.actions x' = Tween.actions (Tween.self s)
        ∧ Tween.looped x' = Tween.looped (Tween.self s)
        ∧ Tween.finished x' = Tween.finished (Tween.self s)
        ∧ Tween._remove x' = Tween._remove (Tween.self s).
Proof. apply next_targets. Qed.

(** X6: while a tween animates numeric targets, [step(dt)] records the
    progress [min(1, (delta + dt) / duration)] and writes, for every
    target, the value taken at selection plus the distance taken at
    selection times the eased progress: what the property holds now does
    not enter.  No other property of the context is written; and as long
    as the progress is below [1] the call returns with the queue where it
    was. *)
Theorem X6_step_interpolates_from_the_snapshot s c0 nums dt :
  animating (Tween.self s) c0 nums →
  NoDup nums.*1 →
  let p := Math_min 1 ((num (Tween.delta (Tween.self s)) + dt)
                       / num (Tween.duration (Tween.self s))) in
  let s' := final (Tween.step dt s) in
  progress_of s' = Some p
  ∧ (∀ k t, (k, t) ∈ nums →
       Tween.ctx s' !! k =
         Some (js_add (obj_get c0 k)
                 ((t - to_number (obj_get c0 k))
                  * ease p (Tween.easing (Tween.self s)))%float))
  ∧ (∀ k, k ∉ nums.*1 → Tween.ctx s' !! k = Tween.ctx s !! k)
  ∧ ((1 <=? p)%float = false →
       Tween.step dt s = Ret tt s'
       ∧ cursor s' = cursor s
       ∧ Tween.emitted s' = Tween.emitted s
       ∧ Tween.delta (Tween.self s')
           = Some (num (Tween.delta (Tween.self s)) + dt)%float).
Proof.
  intros Hs Hnd p s'. subst s'. rewrite (step_animating s c0 nums dt Hs).
  cbv zeta. fold p.
  set (s1 := Tween.Local _ _ _).
  assert (progress_of (final ((if (1 <=? p)%float then Tween.next else ret tt) s1))
          = Some p
          ∧ Tween.ctx (final ((if (1 <=? p)%float then Tween.next else ret tt) s1))
            = Tween.ctx s1) as [Hp Hctx].
  { destruct (1 <=? p)%float.
    - by rewrite next_keeps_progress, next_keeps_ctx.
    - done. }
  split; [done|]. rewrite Hctx. subst s1. cbn [Tween.ctx].
  split; [|split].
  - intros k t Hk. apply (animated_lookup c0 _ nums _ (k, t)); done.
  - intros k Hk. by apply animated_lookup_ne.
  - intros ->. cbn [ret final]. by destruct s as [[] ? ?].
Qed.

(** The loop of [end] from position [i] to the end of [acts]: it answers
    the last position at or after [i] whose action has a property map,
    and [last] when there is none. *)
Lemma scan_spec acts n :
  ∀ i last,
    0 ≤ i → i + Z.of_nat n = Z.of_nat (length acts) →
    ∃ r, Tween.scan acts n i last = Some r
         ∧ ((i ≤ r < Z.of_nat (length acts)
             ∧ (∃ a, js_nth acts r = Some a ∧ is_object (a_props a) = true)
             ∧ ∀ j a, r < j → js_nth acts j = Some a → is_object (a_props a) = false)
            ∨ (r = last
               ∧ ∀ j a, i ≤ j → js_nth acts j = Some a
                        → is_object (a_props a) = false)).
Proof.
  induction n as [|n IH]; intros i last Hi Hlen; cbn [Tween.scan].
  - exists last. split; [done|]. right. split; [done|].
    intros j a Hj Hnth. unfold js_nth in Hnth.
    destruct (j <? 0); [done|]. apply lookup_lt_Some in Hnth. lia.
  - assert (is_Some (js_nth acts i)) as [a Ha].
    { unfold js_nth. rewrite (proj2 (Z.ltb_ge _ _)) by lia.
      apply lookup_lt_is_Some. lia. }
    rewrite Ha.
    destruct (IH (i + 1) (if is_object (a_props a) then i else last))
      as (r & Hr & Hcase); [lia..|].
    exists r. split; [done|].
    destruct Hcase as [(Hrange & Hobj & Hafter)|[-> Hnone]].
    + left. split; [lia|]. done.
    + destruct (is_object (a_props a)) eqn:Hobj.
      * left. split; [lia|]. split; [by exists a|].
        intros j a' Hj. apply Hnone. lia.
      * right. split; [done|]. intros j a' Hj Hnth.
        destruct (decide (j = i)) as [->|Hne]; [congruence|].
        apply (Hnone j); [lia | done].
Qed.

(** Which position the loop of [end] answers, from an index that is at
    least [-1]. *)
Lemma scan_from_index (acts : list action) (idx : Z) :
  -1 ≤ idx →
  ∃ r, Tween.scan acts (Z.to_nat (Z.of_nat (length acts) - (idx + 1))) (idx + 1) 0
         = Some r
       ∧ ((idx < r < Z.of_nat (length acts)
           ∧ (∃ a, js_nth acts r = Some a ∧ is_object (a_props a) = true)
           ∧ ∀ j a, r < j → js_nth acts j = Some a → is_object (a_props a) = false)
          ∨ (r = 0
             ∧ ∀ j a, idx < j → js_nth acts j = Some a
                      → is_object (a_props a) = false)).
Proof.
  intros Hidx.
  destruct (decide (idx + 1 ≤ Z.of_nat (length acts))) as [Hle|Hgt].
  - destruct (scan_spec acts (Z.to_nat (Z.of_nat (length acts) - (idx + 1)))
                (idx + 1) 0) as (r & Hr & Hcase); [lia..|].
    exists r. split; [done|].
    destruct Hcase as [(Hrange & Hobj & Hafter)|[-> Hnone]].
    + left. split; [lia|]. done.
    + right. split; [done|]. intros j a Hj. apply Hnone. lia.
  - replace (Z.to_nat _) with 0%nat by lia. exists 0. split; [done|].
    right. split; [done|]. intros j a Hj Hnth. unfold js_nth in Hnth.
    destruct (j <? 0); [done|]. apply lookup_lt_Some in Hnth. lia.
Qed.

(** X7: [end] on a tween whose index is at least [-1] reads no action
    that is not there: it looks at the actions after the index and picks
    the last one of them that has a property map; when none of them has
    one it picks position [0], whatever the first action is and wherever
    the index stands.  It then puts the index just before the position it
    picked and goes on with [next], the elapsed time set to the duration,
    and [step(0)]. *)
Theorem X7_end_picks_the_last_animation s :
  -1 ≤ Tween.index (Tween.self s) →
  ∃ r, Tween.end_ s =
         (Tween.upd (Tween.set_index (r - 1)) ;;
          Tween.next ;;
          Tween.upd (λ x, Tween.set_delta (Tween.duration x) x) ;;
          Tween.step 0 ;;
          ret This) s
       ∧ ((Tween.index (Tween.self s) < r
             < Z.of_nat (length (Tween.actions (Tween.self s)))
           ∧ (∃ a, js_nth (Tween.actions (Tween.self s)) r = Some a
                   ∧ is_object (a_props a) = true)
           ∧ ∀ j a, r < j → js_nth (Tween.actions (Tween.self s)) j = Some a
                    → is_object (a_props a) = false)
          ∨ (r = 0
             ∧ ∀ j a, Tween.index (Tween.self s) < j
                      → js_nth (Tween.actions (Tween.self s)) j = Some a
                      → is_object (a_props a) = false)).
Proof.
  intros Hidx.
  destruct (scan_from_index (Tween.actions (Tween.self s))
              (Tween.index (Tween.self s)) Hidx) as (r & Hr & Hcase).
  exists r. split; [|done].
  unfold Tween.end_. unfold bind at 1. cbn [Tween.this]. by rewrite Hr.
Qed.

(** The loop of [end] when the last action with a property map after the
    index is known. *)
Lemma scan_last acts idx r a :
  -1 ≤ idx < r →
  js_nth acts r = Some a → is_object (a_props a) = true →
  (∀ j a', r < j → js_nth acts j = Some a' → is_object (a_props a') = false) →
  Tween.scan acts (Z.to_nat (Z.of_nat (length acts) - (idx + 1))) (idx + 1) 0
    = Some r.
Proof.
  intros Hidx Ha Hobj Hafter.
  assert (r < Z.of_nat (length acts)) as Hr.
  { unfold js_nth in Ha. destruct (r <? 0); [done|].
    apply lookup_lt_Some in Ha. lia. }
  destruct (scan_spec acts (Z.to_nat (Z.of_nat (length acts) - (idx + 1)))
              (idx + 1) 0) as (r' & -> & Hcase); [lia..|].
  f_equal. destruct Hcase as [(Hrange & (a' & Ha' & Hobj') & Hafter')|[_ Hnone]].
  - destruct (Z.lt_trichotomy r' r) as [Hlt|[->|Hlt]]; [|done|].
    + specialize (Hafter' r a Hlt Ha). congruence.
    + specialize (Hafter r' a' Hlt Ha'). congruence.
  - specialize (Hnone r a ltac:(lia) Ha). congruence.
Qed.

(** [end] up to its last call of [next], when the action it picks has
    numeric targets. *)
Lemma end_targets s r nums d e :
  -1 ≤ Tween.index (Tween.self s) < r →
  js_nth (Tween.actions (Tween.self s)) r
    = Some (Action (targets nums) (Some d) e) →
  (∀ j a, r < j → js_nth (Tween.actions (Tween.self s)) j = Some a
          → is_object (a_props a) = false) →
  NoDup nums.*1 →
  ((d + 0) / d)%float = 1%float →
  ∃ x1, Tween.end_ s =
          (Tween.next ;; ret This)
            (Tween.Local x1 (animated (Tween.ctx s) (ease 1 e) nums (Tween.ctx s))
               (Tween.emitted s))
        ∧ Tween.progress x1 = Some 1%float
        ∧ Tween.index x1 = r
        ∧ Tween.actions x1 = Tween.actions (Tween.self s)
        ∧ Tween.looped x1 = Tween.looped (Tween.self s).
Proof.
  intros Hidx Hr Hafter Hnd Hd.
  unfold Tween.end_. unfold bind at 1. cbn [Tween.this].
  rewrite (scan_last _ _ r _ Hidx Hr eq_refl Hafter).
  unfold bind at 1. cbn [Tween.upd modify].
  set (s0 := Tween.Local _ _ _).
  destruct (next_targets s0 nums (Some d) e)
    as (x1 & Hnext & Hanim & Hcur & Hindex & Hdelta & Hdur & Heas & Hacts & Hloop
        & _).
  { subst s0. destruct s as [[] ? ?]. cbn in *. by rewrite Z.sub_add. }
  { done. }
  unfold bind at 1. rewrite Hnext.
  unfold bind at 1. cbn [Tween.upd modify Tween.self Tween.ctx Tween.emitted].
  set (s2 := Tween.Local _ _ _).
  assert (animating (Tween.self s2) (Tween.ctx s) nums) as Hs2.
  { subst s2 s0. destruct s as [[] ? ?], x1. unfold animating in *. cbn in *.
    done. }
  unfold bind at 1. rewrite (step_animating s2 _ nums 0 Hs2).
  replace (num (Tween.delta (Tween.self s2))) with d
    by (subst s2; destruct x1; simpl in *; by subst).
  replace (num (Tween.duration (Tween.self s2))) with d
    by (subst s2; destruct x1; simpl in *; by subst).
  rewrite Hd. change (Math_min 1 1) with 1%float.
  change (1 <=? 1)%float with true. cbv beta iota zeta.
  replace (Tween.easing (Tween.self s2)) with e
    by (subst s2; destruct x1; simpl in *; by subst).
  eexists. split; [reflexivity|].
  subst s2 s0. destruct s as [[] ? ?], x1. cbn in *. subst.
  by rewrite Z.sub_add.
Qed.

(** X8: [end] on a tween whose last action with a property map after
    the index is the action at [r], with numeric targets and a duration
    [d] that divides itself to [1]: the actions between the index and [r]
    are passed over without being applied; the action at [r] is selected
    on the context as it is at the call and brought to progress [1], so
    that every target holds the value of progress [1] and no other
    property is written; then, in the same call, [next] moves the cursor
    past [r]. *)
Theorem X8_end_completes_the_last_animation s r nums d e :
  -1 ≤ Tween.index (Tween.self s) < r →
  js_nth (Tween.actions (Tween.self s)) r
    = Some (Action (targets nums) (Some d) e) →
  (∀ j a, r < j → js_nth (Tween.actions (Tween.self s)) j = Some a
          → is_object (a_props a) = false) →
  NoDup nums.*1 →
  ((d + 0) / d)%float = 1%float →
  let s' := final (Tween.end_ s) in
  progress_of s' = Some 1%float
  ∧ (∀ k t, (k, t) ∈ nums →
       Tween.ctx s' !! k =
         Some (js_add (obj_get (Tween.ctx s) k)
                 ((t - to_number (obj_get (Tween.ctx s) k)) * ease 1 e)%float))
  ∧ (∀ k, k ∉ nums.*1 → Tween.ctx s' !! k = Tween.ctx s !! k)
  ∧ cursor s' = advance (r, Tween.actions (Tween.self s),
                         Tween.looped (Tween.self s)).
Proof.
  intros Hidx Hr Hafter Hnd Hd s'. subst s'.
  destruct (end_targets s r nums d e Hidx Hr Hafter Hnd Hd)
    as (x1 & -> & Hp & Hi & Ha & Hl).
  rewrite final_bind_ret, next_keeps_progress, next_keeps_ctx, next_cursor.
  cbn [Tween.ctx]. split; [done|]. split; [|split].
  - intros k t Hk. apply (animated_lookup _ _ nums _ (k, t)); done.
  - intros k Hk. by apply animated_lookup_ne.
  - unfold cursor. cbn [Tween.self]. by rewrite Hi, Ha, Hl.
Qed.

(** X9: on a tween that animates numeric targets with a duration [d]
    for which [0 / d] is [0], [rewind] returns [undefined]; it puts the
    elapsed time and the progress back to [0] and writes, for every
    target, the value of progress [0]; the queue stays where it was: the
    tween does not go back to an earlier action. *)
Theorem X9_rewind_restarts_the_current_action s c0 nums d :
  animating (Tween.self s) c0 nums →
  NoDup nums.*1 →
  Tween.duration (Tween.self s) = Some d →
  (0 / d)%float = 0%float →
  ∃ s', Tween.rewind s = Ret Undefined s'
        ∧ progress_of s' = Some 0%float
        ∧ Tween.delta (Tween.self s') = Some 0%float
        ∧ cursor s' = cursor s
        ∧ Tween.current (Tween.self s') = Tween.current (Tween.self s)
        ∧ Tween.emitted s' = Tween.emitted s
        ∧ (∀ k t, (k, t) ∈ nums →
             Tween.ctx s' !! k =
               Some (js_add (obj_get c0 k)
                       ((t - to_number (obj_get c0 k))
                        * ease 0 (Tween.easing (Tween.self s)))%float))
        ∧ (∀ k, k ∉ nums.*1 → Tween.ctx s' !! k = Tween.ctx s !! k).
Proof.
  intros Hs Hnd Hd Hzero. unfold Tween.rewind.
  unfold bind at 1. cbn [Tween.upd modify].
  set (s0 := Tween.Local _ _ _).
  assert (animating (Tween.self s0) c0 nums) as Hs0.
  { subst s0. by destruct s as [[] ? ?]. }
  unfold bind. rewrite (step_animating s0 c0 nums 0 Hs0).
  replace (num (Tween.delta (Tween.self s0))) with 0%float
    by (subst s0; by destruct s as [[] ? ?]).
  replace (num (Tween.duration (Tween.self s0))) with d
    by (subst s0; destruct s as [[] ? ?]; simpl in *; by subst).
  change (0 + 0)%float with 0%float. rewrite Hzero.
  change (Math_min 1 0) with 0%float. change (1 <=? 0)%float with false.
  cbv zeta. cbn [ret]. eexists. split; [reflexivity|].
  subst s0. destruct s as [[] c e]. cbn.
  repeat split.
  - intros k t Hk. apply (animated_lookup c0 _ nums _ (k, t)); done.
  - intros k Hk. by apply animated_lookup_ne.
Qed.


End Interpolation.

(** ** A wait before an action, and [forward] *)

Section Gating.
Context {host : Platform}.
Implicit Types s : Tween.local.
Local Open Scope eff_scope.

(** A wait whose time has not come: [step] only adds to the elapsed
    time. *)
Lemma step_wait_pending s d a :
  Tween.current (Tween.self s) = Some a →
  Tween.currentAction (Tween.self s) = Some Wait →
  (num (Tween.duration (Tween.self s))
     <=? num (Tween.delta (Tween.self s)) + d)%float = false →
  Tween.step d s =
    Ret tt
      (Tween.Local
         (Tween.set_delta (Some (num (Tween.delta (Tween.self s)) + d)%float)
            (Tween.self s))
         (Tween.ctx s) (Tween.emitted s)).
Proof.
  intros Hcur Hact Hle. destruct s as [x c e], x. simpl in Hcur, Hact, Hle.
  subst. unfold Tween.step, bind, Tween.doWait, bind.
  cbn -[Tween.next]. unfold num in Hle. by rewrite Hle.
Qed.

(** The queue [wait(200)], [to(targets, duration, easing)] after a first
    [step], which selects the wait and drops the time it was given. *)
Lemma wait_then_to_selected (c : object) nums dur e (d1 : float) :
  (Tween.wait (Some 200%float) ;; Tween.to (targets nums) dur e ;; Tween.step d1)
    (fresh c) =
  Ret tt
    (Tween.Local
       (Tween.set_currentAction (Some Wait)
          (Tween.set_duration (Some 200%float)
             (Tween.set_current (Some (Action (Tag "wait") (Some 200%float) None))
                (Tween.set_index 0
                   (Tween.set_delta (Some 0%float)
                      (Tween.set_actions
                         [Action (Tag "wait") (Some 200%float) None;
                          Action (targets nums)
                            (if truthy_number dur then dur else Some 0.5%float)
                            (if truthy_string e then e else Some "045")]
                         (Tween.set_prevEasing
                            (if truthy_string e then e else Some "045")
                            (Tween.set_prevDuration
                               (if truthy_number dur then dur
                                else Some 0.5%float)
                               (Tween.new 0)))))))))
       c []).
Proof.
  unfold Tween.to, Tween.add.
  destruct (truthy_number dur), (truthy_string e); by vm_compute.
Qed.


(** What one [step] of a tween that animates numeric targets leaves in
    the context and records as progress, whether it goes on with [next]
    or not. *)
Lemma step_animating_writes s c0 nums dt :
  animating (Tween.self s) c0 nums →
  NoDup nums.*1 →
  let p := Math_min 1 ((num (Tween.delta (Tween.self s)) + dt)
                       / num (Tween.duration (Tween.self s))) in
  progress_of (final (Tween.step dt s)) = Some p
  ∧ (∀ k t, (k, t) ∈ nums →
       Tween.ctx (final (Tween.step dt s)) !! k =
         Some (js_add (obj_get c0 k)
                 ((t - to_number (obj_get c0 k))
                  * ease p (Tween.easing (Tween.self s)))%float))
  ∧ (∀ k, k ∉ nums.*1 →
       Tween.ctx (final (Tween.step dt s)) !! k = Tween.ctx s !! k).
Proof.
  intros Hs Hnd p. rewrite (step_animating s c0 nums dt Hs).
  cbv zeta. fold p.
  set (s1 := Tween.Local _ _ _).
  assert (progress_of (final ((if (1 <=? p)%float then Tween.next else ret tt) s1))
          = Some p
          ∧ Tween.ctx (final ((if (1 <=? p)%float then Tween.next else ret tt) s1))
            = Tween.ctx s1) as [Hp Hctx].
  { destruct (1 <=? p)%float.
    - by rewrite next_keeps_progress, next_keeps_ctx.
    - done. }
  split; [done|]. rewrite Hctx. subst s1. cbn [Tween.ctx]. split.
  - intros k t Hk. apply (animated_lookup c0 _ nums _ (k, t)); done.
  - intros k Hk. by apply animated_lookup_ne.
Qed.

(** C6 (amended): the queue [wait(200)], then an Animate action with
    numeric targets, on a tween of the context [c].  The first [step],
    whatever time it supplies, selects the wait and starts its clock at
    [0]: its time is not counted.  A [step(100)] after it leaves the wait
    current with [100] counted; both calls leave the context as it was.
    The third call, of a time [d3], ends the wait only when the time
    counted since the selection reaches [200] ([200 <= 100 + d3]);
    otherwise the wait stays current.  The call that ends the wait makes
    the Animate action current (index [1], elapsed time [0]) with the
    values of the context taken as the starting values, and still writes
    nothing.  The first write comes with the call after that: a
    [step(d4)] records the progress [min(1, (0 + d4) / duration)] and
    writes to every target its starting value plus its distance to the
    target times the eased progress, and to no other property. *)
Theorem C6_wait_counts_from_its_selection (c : object) nums dur e (d1 d3 d4 : float) :
  NoDup nums.*1 →
  let dur' := if truthy_number dur then dur else Some 0.5%float in
  let e' := if truthy_string e then e else Some "045" in
  ∃ s1 s2,
    (Tween.wait (Some 200%float) ;; Tween.to (targets nums) dur e ;; Tween.step d1)
      (fresh c) = Ret tt s1
    ∧ Tween.step 100 s1 = Ret tt s2
    ∧ (Tween.ctx s1 = c
       ∧ Tween.currentAction (Tween.self s1) = Some Wait
       ∧ Tween.index (Tween.self s1) = 0
       ∧ Tween.delta (Tween.self s1) = Some 0%float)
    ∧ (Tween.ctx s2 = c
       ∧ Tween.currentAction (Tween.self s2) = Some Wait
       ∧ Tween.index (Tween.self s2) = 0
       ∧ Tween.delta (Tween.self s2) = Some 100%float)
    ∧ ((200 <=? 100 + d3)%float = false →
         ∃ s3, Tween.step d3 s2 = Ret tt s3
               ∧ Tween.ctx s3 = c
               ∧ Tween.currentAction (Tween.self s3) = Some Wait
               ∧ Tween.index (Tween.self s3) = 0
               ∧ Tween.delta (Tween.self s3) = Some (100 + d3)%float)
    ∧ ((200 <=? 100 + d3)%float = true →
         ∃ s3, Tween.step d3 s2 = Ret tt s3
               ∧ Tween.ctx s3 = c
               ∧ Tween.currentAction (Tween.self s3) = Some Animate
               ∧ Tween.current (Tween.self s3) = Some (Action (targets nums) dur' e')
               ∧ Tween.index (Tween.self s3) = 1
               ∧ Tween.delta (Tween.self s3) = Some 0%float
               ∧ let p := Math_min 1 ((0 + d4) / num dur') in
                 progress_of (final (Tween.step d4 s3)) = Some p
                 ∧ (∀ k t, (k, t) ∈ nums →
                      Tween.ctx (final (Tween.step d4 s3)) !! k =
                        Some (js_add (obj_get c k)
                                ((t - to_number (obj_get c k)) * ease p e')%float))
                 ∧ (∀ k, k ∉ nums.*1 →
                      Tween.ctx (final (Tween.step d4 s3)) !! k = c !! k)).
Proof.
  intros Hnd dur' e'. eexists _, _.
  split; [apply wait_then_to_selected|].
  fold dur' e'. set (s1 := Tween.Local _ c []).
  assert (Tween.step 100 s1 =
            Ret tt (Tween.Local (Tween.set_delta (Some 100%float) (Tween.self s1))
                      c [])) as Hs2.
  { by rewrite (step_wait_pending s1 100 (Action (Tag "wait") (Some 200%float) None)). }
  split; [exact Hs2|]. set (s2 := Tween.Local _ c []).
  split; [done|]. split; [done|]. split.
  - intros Hle.
    rewrite (step_wait_pending s2 d3 (Action (Tag "wait") (Some 200%float) None))
      by done.
    eexists. split; [reflexivity|]. done.
  - intros Hle.
    rewrite (step_wait_elapsed s2 d3 (Action (Tag "wait") (Some 200%float) None))
      by done.
    match goal with |- context [Tween.next ?s0] =>
      destruct (next_targets s0 nums dur' e')
        as (x3 & -> & Hanim & Hcur & Hindex & Hdelta & Hdur & Heas & _);
        [done | done |]
    end.
    eexists. split; [reflexivity|]. cbn [Tween.ctx Tween.self].
    split; [done|]. split; [apply Hanim|]. split; [done|]. split; [done|].
    split; [done|].
    pose proof (step_animating_writes (Tween.Local x3 c []) c nums d4 Hanim Hnd)
      as Hstep.
    cbn [Tween.self Tween.ctx] in Hstep. rewrite Hdelta, Hdur, Heas in Hstep.
    exact Hstep.
Qed.

(** C9 (amended): on a tween whose current action is an Animate action
    with a duration [d] that divides itself to [1] (every finite duration
    but [0]), [forward] records progress [1]; when the action has numeric
    targets it writes to each of them the value taken at selection plus
    the distance taken at selection times the eased progress [1], and to
    no other property; and then, in the same call, it goes on with
    [next]: the index is one greater than before the call, or [0] when
    the tween is looped and the incremented index has reached the length
    of [actions]. *)
Theorem C9_forward_completes_then_advances s a d :
  Tween.current (Tween.self s) = Some a →
  Tween.currentAction (Tween.self s) = Some Animate →
  Tween.duration (Tween.self s) = Some d →
  ((d + 0) / d)%float = 1%float →
  let s' := final (Tween.forward s) in
  progress_of s' = Some 1%float
  ∧ Tween.index (Tween.self s') =
      (if (Z.of_nat (length (Tween.actions (Tween.self s)))
             <=? Tween.index (Tween.self s) + 1)
          && Tween.looped (Tween.self s)
       then 0 else Tween.index (Tween.self s) + 1)
  ∧ Tween.actions (Tween.self s') = Tween.actions (Tween.self s)
  ∧ (∀ c0 nums,
       animating (Tween.self s) c0 nums →
       NoDup nums.*1 →
       (∀ k t, (k, t) ∈ nums →
          Tween.ctx s' !! k =
            Some (js_add (obj_get c0 k)
                    ((t - to_number (obj_get c0 k))
                     * ease 1 (Tween.easing (Tween.self s)))%float))
       ∧ (∀ k, k ∉ nums.*1 → Tween.ctx s' !! k = Tween.ctx s !! k)).
Proof.
  intros Hcur Hact Hdur Hd s'. subst s'.
  pose proof (forward_unfold s a d Hcur Hact Hdur Hd) as Hf.
  destruct s as [x c e]. cbn [Tween.self Tween.ctx Tween.emitted] in Hf |- *.
  destruct (animate_all_ret (ease 1 (Tween.easing x)) (Tween.keys x) x c e)
    as (c' & Hx & Hother).
  assert (∀ c0 nums, animating x c0 nums →
            c' = animated c0 (ease 1 (Tween.easing x)) nums c) as Hc'.
  { intros c0 nums (_ & _ & Hk & Hb & Hc & Ht).
    rewrite Hk, (animate_all_targets _ c0 x c e nums Hb Hc Ht) in Hx.
    by injection Hx. }
  unfold bind at 1 in Hf. rewrite Hother in Hf by (by destruct x).
  rewrite Hf, final_bind_ret.
  rewrite next_keeps_progress, next_keeps_ctx.
  match goal with |- context [Tween.next ?s0] =>
    pose proof (next_cursor s0) as Hcursor
  end.
  unfold cursor, advance in Hcursor. injection Hcursor as -> -> _.
  split; [by destruct x|]. split; [by destruct x|]. split; [by destruct x|].
  intros c0 nums Hanim Hnd. cbn [Tween.ctx]. rewrite (Hc' c0 nums Hanim). split.
  - intros k t Hk. apply (animated_lookup c0 _ nums _ (k, t)); done.
  - intros k Hk. by apply animated_lookup_ne.
Qed.

End Gating.

(** ** The pass of the manager, entry by entry; [play], [stop] and [tween] *)

Section Pass.
Context `{Platform}.
Implicit Types w : TweenManager.t.
Local Open Scope eff_scope.

Lemma with_tweens_idem {A} l l' (o : outcome TweenManager.t A) :
  with_tweens l' (with_tweens l o) = with_tweens l' o.
Proof. by destruct o. Qed.

Lemma with_tweens_same {A} (o : outcome TweenManager.t A) :
  with_tweens (TweenManager.tweens (final o)) o = o.
Proof. by destruct o as [a []|e []]. Qed.

(** A method of a tween does not look at the manager's collection. *)
Lemma on_tween_set_tweens {A} r (m : M Tween.local A) l w :
  TweenManager.on_tween r m (TweenManager.set_tweens l w)
    = with_tweens l (TweenManager.on_tween r m w).
Proof.
  unfold TweenManager.on_tween. cbn.
  destruct (TweenManager.heap w !! r) as [x|]; [|done].
  destruct (TweenManager.contexts w !! Tween.context x) as [c|]; [|done].
  by destruct (m _).
Qed.

Lemma visit_set_tweens d r l w :
  visit d r (TweenManager.set_tweens l w) = with_tweens l (visit d r w).
Proof.
  unfold visit, bind, TweenManager.deref. cbn.
  destruct (TweenManager.heap w !! r) as [x|]; [|done].
  destruct (Tween._remove x); [done|]. apply on_tween_set_tweens.
Qed.

Lemma for_each_visit_set_tweens d rs l w :
  for_each (visit d) rs (TweenManager.set_tweens l w)
    = with_tweens l (for_each (visit d) rs w).
Proof.
  revert w. induction rs as [|r rs IH]; intros w; [done|].
  cbn [for_each]. unfold bind. rewrite visit_set_tweens.
  destruct (visit d r w) as [[] w1|e w1]; cbn; [apply IH | done].
Qed.

(** The loop of [step] over the part [suf] of the collection that it has
    not visited yet: but for the collection, it leaves what visiting the
    tweens of [suf] one after the other leaves. *)
Lemma step_loop_visits d suf :
  ∀ pre w fuel,
    TweenManager.tweens w = pre ++ suf →
    (length suf < fuel)%nat →
    ∃ l', TweenManager.step_loop fuel d (Z.of_nat (length pre)) w
          = Some (with_tweens l' (for_each (visit d) suf w)).
Proof.
  induction suf as [|r suf IH]; intros pre w fuel Htweens Hfuel;
    (destruct fuel as [|fuel]; [simpl in Hfuel; lia|]); cbn [TweenManager.step_loop].
  - rewrite Htweens, app_nil_r, Z.ltb_irrefl. exists (TweenManager.tweens w).
    by destruct w.
  - assert ((Z.of_nat (length pre) <? Z.of_nat (length (TweenManager.tweens w)))
            = true) as ->.
    { apply Z.ltb_lt. rewrite Htweens, length_app. simpl. lia. }
    assert (js_nth (TweenManager.tweens w) (Z.of_nat (length pre)) = Some r) as ->.
    { unfold js_nth. rewrite (proj2 (Z.ltb_ge _ _)) by lia.
      rewrite Nat2Z.id, Htweens. by apply list_lookup_middle. }
    rewrite step_body_unfold. cbn [for_each]. unfold bind at 1.
    unfold visit at 1. unfold bind at 1, TweenManager.deref at 1.
    destruct (TweenManager.heap w !! r) as [x|] eqn:Hx;
      [|exists (TweenManager.tweens w); by destruct w].
    destruct (Tween._remove x) eqn:Hflag; cbn [ret].
    + rewrite Hx, Hflag, Nat2Z.id, Htweens, delete_middle.
      replace (Z.of_nat (length pre) - 1 + 1) with (Z.of_nat (length pre)) by lia.
      destruct (IH pre (TweenManager.set_tweens (pre ++ suf) w) fuel)
        as (l' & ->); [done | simpl in Hfuel; lia |].
      exists l'. by rewrite for_each_visit_set_tweens, with_tweens_idem.
    + pose proof (on_tween_keeps_tweens r (Tween.step d) w) as Hkeep.
      unfold TweenManager.on_tween in *. rewrite Hx in *.
      destruct (TweenManager.contexts w !! Tween.context x) as [c|];
        [|exists (TweenManager.tweens w); by destruct w].
      destruct (Tween.step d _) as [[] l1|e l1];
        [|eexists; by rewrite with_tweens_same].
      cbn [final] in Hkeep.
      set (w1 := TweenManager.store w r (Tween.context x) l1) in *.
      assert (TweenManager.heap w1 !! r = Some (Tween.self l1)) as ->.
      { subst w1. cbn. apply list_lookup_insert_eq.
        by apply lookup_lt_Some in Hx. }
      destruct (Tween._remove (Tween.self l1)).
      * rewrite Nat2Z.id, Hkeep, Htweens, delete_middle.
        replace (Z.of_nat (length pre) - 1 + 1) with (Z.of_nat (length pre))
          by lia.
        destruct (IH pre (TweenManager.set_tweens (pre ++ suf) w1) fuel)
          as (l' & ->); [done | simpl in Hfuel; lia |].
        exists l'. by rewrite for_each_visit_set_tweens, with_tweens_idem.
      * destruct (IH (pre ++ [r]) w1 fuel) as (l' & Hl').
        { by rewrite Hkeep, Htweens, <-app_assoc. }
        { simpl in Hfuel. lia. }
        replace (Z.of_nat (length (pre ++ [r]))) with (Z.of_nat (length pre) + 1)
          in Hl' by (rewrite length_app; simpl; lia).
        by exists l'.
Qed.

(** X10: a pass of [step] of the manager steps the tweens of the
    collection as it found it, one after the other in their order, each
    one once unless it is flagged when its turn comes: the excisions made
    on the way make the loop neither skip an entry nor come to one twice.
    The pass ends as this sequence of calls ends (it returns, or it stops
    at the first tween that throws), and but for the collection it leaves
    the store that the sequence leaves. *)
Theorem X10_pass_steps_each_entry_once_in_order d w :
  ∃ l', TweenManager.step d w =
          Some (with_tweens l'
                  (for_each (visit d) (TweenManager.tweens w)
                     (TweenManager.set_delta (TweenManager.delta w + d)%float w))).
Proof.
  unfold TweenManager.step.
  apply (step_loop_visits d (TweenManager.tweens w) []); [done|]. simpl. lia.
Qed.


Lemma list_insert_alter_same {A} (f : A → A) (l : list A) i y :
  <[i := y]> (alter f i l) = <[i := y]> l.
Proof.
  rewrite !list_insert_alter, list_alter_alter_eq. by apply list_alter_ext.
Qed.

(** What [stop] does to the store, in full. *)
Lemma stop_ret w this x c :
  TweenManager.heap w !! this = Some x →
  TweenManager.contexts w !! Tween.context x = Some c →
  Bound.call this Bound.stop w =
    Ret This
      (TweenManager.set_heap
         (<[this := Tween.set__remove true x]> (TweenManager.heap w)) w).
Proof.
  intros Hx Hc. unfold Bound.call.
  erewrite (on_tween_ret this _ w x c); [|done..|reflexivity].
  unfold TweenManager.store, TweenManager.set_heap. cbn.
  by rewrite (list_insert_id _ _ c Hc).
Qed.

(** What [play] does to the store, in full. *)
Lemma play_ret w this x c :
  TweenManager.heap w !! this = Some x →
  TweenManager.contexts w !! Tween.context x = Some c →
  Bound.call this Bound.play_ w =
    Ret This
      (TweenManager.Make
         (if bool_decide (this ∈ TweenManager.tweens w) then TweenManager.tweens w
          else TweenManager.tweens w ++ [this])
         (TweenManager.delta w)
         (<[this := Tween.set_finished (Some false) (Tween.set__remove false x)]>
            (TweenManager.heap w))
         (TweenManager.contexts w) (TweenManager.events w)).
Proof.
  intros Hx Hc. unfold Bound.call, Bound.play.
  rewrite (bind_Ret (TweenManager.deref this) _ w x w)
    by (unfold TweenManager.deref; by rewrite Hx).
  rewrite (bind_Ret _ _ _ _ _ (manager_add_ret this w)).
  erewrite bind_Ret; last first.
  { apply (on_tween_ret this _ _ (Tween.set__remove false x) c).
    - cbn. by rewrite list_lookup_alter_eq, Hx.
    - by destruct x.
    - reflexivity. }
  cbn. unfold TweenManager.store. cbn.
  by rewrite (list_insert_id _ _ c Hc), list_insert_alter_same.
Qed.

(** X11: [play] returns the tween; it clears the flag [_remove] and the
    field [finished] and appends the tween to the collection when it is
    not in it.  Nothing else changes: the index, the current action, the
    elapsed time and the queue of the tween are as they were (a tween
    that had finished is not put back to its first action), and so are
    the other tweens, the contexts and the events. *)
Theorem X11_play_reinserts_without_restarting w this x c :
  TweenManager.heap w !! this = Some x →
  TweenManager.contexts w !! Tween.context x = Some c →
  ∃ w', Bound.call this Bound.play_ w = Ret This w'
        ∧ TweenManager.tweens w' =
            (if bool_decide (this ∈ TweenManager.tweens w)
             then TweenManager.tweens w else TweenManager.tweens w ++ [this])
        ∧ TweenManager.heap w' !! this
            = Some (Tween.set_finished (Some false) (Tween.set__remove false x))
        ∧ (∀ r, r ≠ this → TweenManager.heap w' !! r = TweenManager.heap w !! r)
        ∧ TweenManager.contexts w' = TweenManager.contexts w
        ∧ TweenManager.events w' = TweenManager.events w
        ∧ TweenManager.delta w' = TweenManager.delta w.
Proof.
  intros Hx Hc. eexists. split; [by apply (play_ret w this x c)|]. cbn.
  split; [done|]. split.
  { apply list_lookup_insert_eq. by apply lookup_lt_Some in Hx. }
  split; [|done]. intros r Hr. by apply list_lookup_insert_ne.
Qed.

(** X12: on a tween that is in the collection and not flagged,
    [stop()] followed by [play()] returns the tween and gives the store
    back as it was but for the field [finished] of the tween, which [play]
    writes: it is [false] afterwards, whatever it was before ([undefined]
    on a tween that was never played and never finished), so that the
    store is exactly as it was when [finished] was [false].  At the level
    of the manager, [remove] followed by [add] gives the store back
    exactly. *)
Theorem X12_play_undoes_stop w this x c :
  TweenManager.heap w !! this = Some x →
  TweenManager.contexts w !! Tween.context x = Some c →
  this ∈ TweenManager.tweens w →
  Tween._remove x = false →
  Bound.chain (Some this) [Bound.stop; Bound.play_] w =
    Ret (Some this)
      (TweenManager.set_heap
         (<[this := Tween.set_finished (Some false) x]> (TweenManager.heap w)) w)
  ∧ (Tween.finished x = Some false →
       Bound.chain (Some this) [Bound.stop; Bound.play_] w = Ret (Some this) w)
  ∧ (TweenManager.remove this ;; TweenManager.add this) w = Ret tt w.
Proof.
  intros Hx Hc Hin Hflag.
  assert (Bound.chain (Some this) [Bound.stop; Bound.play_] w =
            Ret (Some this)
              (TweenManager.set_heap
                 (<[this := Tween.set_finished (Some false) x]>
                    (TweenManager.heap w)) w)) as Hchain.
  { cbn [Bound.chain].
    rewrite (bind_Ret _ _ _ _ _ (stop_ret w this x c Hx Hc)).
    erewrite bind_Ret; last first.
    { apply (play_ret _ this (Tween.set__remove true x) c).
      - cbn. apply list_lookup_insert_eq. by apply lookup_lt_Some in Hx.
      - by destruct x. }
    cbn. rewrite bool_decide_eq_true_2 by done.
    rewrite list_insert_insert_eq.
    destruct x. cbn in *. by subst. }
  split; [done|]. split.
  - intros Hfin. rewrite Hchain. f_equal.
    rewrite list_insert_id; [by destruct w|].
    destruct x. cbn in *. by subst.
  - unfold bind, TweenManager.remove, modify. cbn [final].
    rewrite manager_add_ret. cbn.
    rewrite bool_decide_eq_true_2 by done.
    rewrite list_alter_alter_eq.
    assert (alter (Tween.set__remove false ∘ Tween.set__remove true) this
              (TweenManager.heap w) = TweenManager.heap w) as ->; [|by destruct w].
    apply list_eq. intros j. destruct (decide (j = this)) as [->|Hne].
    + rewrite list_lookup_alter_eq, Hx. destruct x. cbn in *. by subst.
    + by rewrite list_lookup_alter_ne.
Qed.

(** X13: on a store whose collection refers to tweens of the store,
    [tween(context)] returns a reference to a new tween: the tween is as
    its constructor leaves it (index [-1], no action, not flagged), bound
    to [context], and appended at the end of the collection; the tweens
    there were, the contexts and the events are untouched. *)
Theorem X13_tween_appends_a_new_tween w context :
  Forall (λ r, is_Some (TweenManager.heap w !! r)) (TweenManager.tweens w) →
  TweenManager.tween context w =
    Ret (length (TweenManager.heap w))
      (TweenManager.Make
         (TweenManager.tweens w ++ [length (TweenManager.heap w)])
         (TweenManager.delta w)
         (TweenManager.heap w ++ [Tween.new context])
         (TweenManager.contexts w) (TweenManager.events w)).
Proof.
  intros Hrefs. unfold TweenManager.tween.
  rewrite (bind_Ret get_state _ w w w eq_refl).
  erewrite bind_Ret by reflexivity.
  rewrite (bind_Ret _ _ _ _ _ (manager_add_ret _ _)).
  cbn. rewrite bool_decide_eq_false_2.
  - f_equal. f_equal.
    rewrite <-(Nat.add_0_r (length (TweenManager.heap w))) at 1.
    by rewrite alter_app_r.
  - intros Hin. rewrite Forall_forall in Hrefs.
    apply Hrefs, lookup_lt_is_Some in Hin. lia.
Qed.

End Pass.

(** ** What a pass keeps of the collection *)

Section Rounds.
Context `{Platform}.
Implicit Types w : TweenManager.t.
Local Open Scope eff_scope.





End Rounds.

(** ** Edges of the queue *)

Section Edges.
Context `{Platform}.
Implicit Types s : Tween.local.
Local Open Scope eff_scope.

Lemma bind_Throw {S A B} (m : M S A) (k : A → M S B) st e st' :
  m st = Throw e st' → bind m k st = Throw e st'.
Proof. intros Hm. unfold bind. by rewrite Hm. Qed.

(** A wait whose duration is no number: [step] only adds to the elapsed
    time. *)
Lemma step_wait_nan s d a :
  Tween.current (Tween.self s) = Some a →
  Tween.currentAction (Tween.self s) = Some Wait →
  num (Tween.duration (Tween.self s)) = nan →
  Tween.step d s =
    Ret tt
      (Tween.Local
         (Tween.set_delta (Some (num (Tween.delta (Tween.self s)) + d)%float)
            (Tween.self s))
         (Tween.ctx s) (Tween.emitted s)).
Proof.
  intros Hcur Hact Hdur. destruct s as [x c e], x. simpl in Hcur, Hact, Hdur.
  subst. unfold Tween.step, bind, Tween.doWait, bind.
  cbn -[Tween.next PrimFloat.leb PrimFloat.add num]. rewrite Hdur.
  rewrite FloatAxioms.leb_spec. done.
Qed.

Lemma steps_wait_nan ds :
  ∀ s a,
    Tween.current (Tween.self s) = Some a →
    Tween.currentAction (Tween.self s) = Some Wait →
    num (Tween.duration (Tween.self s)) = nan →
    ∃ x', for_each Tween.step ds s
            = Ret tt (Tween.Local x' (Tween.ctx s) (Tween.emitted s))
          ∧ ∀ dl, Tween.set_delta dl x' = Tween.set_delta dl (Tween.self s).
Proof.
  induction ds as [|d ds IH]; intros s a Hcur Hact Hdur.
  - exists (Tween.self s). by destruct s.
  - cbn [for_each]. rewrite (bind_Ret _ _ _ _ _ (step_wait_nan s d a Hcur Hact Hdur)).
    match goal with |- context [for_each _ _ ?s1] =>
      destruct (IH s1 a) as (x' & -> & Hx'); [by destruct s as [[] ? ?]..|]
    end.
    exists x'. split; [done|]. intros dl. rewrite Hx'. by destruct s as [[] ? ?].
Qed.

(** X14: a wait whose time is [undefined] or [NaN] ([wait()] without an
    argument) never elapses.  When [next] comes to it, it becomes the
    current action, and after every sequence of [step] calls, whatever
    times they supply, the tween is what it was then but for its elapsed
    time: the index has not moved on, no event was triggered, neither
    [finished] nor the flag [_remove] was touched, and the context is as
    it was. *)
Theorem X14_wait_without_time_never_elapses s t e (ds : list float) :
  js_nth (Tween.actions (Tween.self s)) (Tween.index (Tween.self s) + 1)
    = Some (Action (Tag "wait") t e) →
  num t = nan →
  ∃ dl, (Tween.next ;; for_each Tween.step ds) s =
          Ret tt
            (Tween.Local
               (Tween.set_delta dl
                  (Tween.set_currentAction (Some Wait)
                     (Tween.set_duration t
                        (Tween.set_current (Some (Action (Tag "wait") t e))
                           (Tween.set_index (Tween.index (Tween.self s) + 1)
                              (Tween.self s))))))
               (Tween.ctx s) (Tween.emitted s)).
Proof.
  intros Hnth Hnan.
  assert ((Z.of_nat (length (Tween.actions (Tween.self s)))
             <=? Tween.index (Tween.self s) + 1) = false) as Hin.
  { apply Z.leb_gt. unfold js_nth in Hnth.
    destruct (_ <? 0) eqn:Hneg; [done|]. apply Z.ltb_ge in Hneg.
    apply lookup_lt_Some in Hnth. lia. }
  unfold bind. rewrite (next_select s Hin).
  rewrite (select_wait _ (Action (Tag "wait") t e))
    by (by destruct s as [[] ? ?]).
  cbn [a_duration Tween.self Tween.ctx Tween.emitted].
  match goal with |- context [for_each _ _ ?s1] =>
    destruct (steps_wait_nan ds s1 (Action (Tag "wait") t e))
      as (x' & -> & Hx'); [by destruct s as [[] ? ?]..|]
  end.
  exists (Tween.delta x'). f_equal. f_equal.
  cbn [Tween.self] in Hx'. specialize (Hx' (Tween.delta x')).
  destruct s as [[] ? ?], x'. cbn in *. by simplify_eq.
Qed.

(** [step] on a tween without a current action starts with [next]. *)
Lemma step_no_current s d :
  Tween.current (Tween.self s) = None →
  Tween.step d s =
    (Tween.next ;;
     x <- Tween.this ;;
     match Tween.currentAction x with
     | Some Animate => Tween.doAnimate d
     | Some Wait => Tween.doWait d
     | None => ret tt
     end)
      (Tween.Local
         (Tween.set_delta (Some (num (Tween.delta (Tween.self s)) + d)%float)
            (Tween.self s))
         (Tween.ctx s) (Tween.emitted s)).
Proof. intros Hcur. destruct s as [x c e], x. simpl in Hcur. by subst. Qed.

(** Selecting where there is no action: a TypeError. *)
Lemma select_none s :
  js_nth (Tween.actions (Tween.self s)) (Tween.index (Tween.self s)) = None →
  Tween.select s =
    Throw TypeError
      (Tween.Local (Tween.set_current None (Tween.self s))
         (Tween.ctx s) (Tween.emitted s)).
Proof.
  intros Hnth. destruct s as [x c e]. simpl in Hnth.
  unfold Tween.select, bind, Tween.this. cbn -[for_each Tween.decompose].
  rewrite Hnth. by destruct x.
Qed.

(** X15: a looped tween without actions cannot be stepped.  [step] on
    it (no action is current) triggers [loop], puts the index to [0] and
    throws a TypeError when it reads the action there; the context is
    untouched, and the tween is left looped, without actions and without
    a current action, so that every later [step] throws again. *)
Theorem X15_looped_empty_tween_throws s d :
  Tween.actions (Tween.self s) = [] →
  Tween.looped (Tween.self s) = true →
  Tween.current (Tween.self s) = None →
  -1 ≤ Tween.index (Tween.self s) →
  ∃ s', Tween.step d s = Throw TypeError s'
        ∧ Tween.emitted s' = "loop" :: Tween.emitted s
        ∧ Tween.ctx s' = Tween.ctx s
        ∧ Tween.actions (Tween.self s') = []
        ∧ Tween.looped (Tween.self s') = true
        ∧ Tween.current (Tween.self s') = None
        ∧ Tween.index (Tween.self s') = 0
        ∧ Tween._remove (Tween.self s') = Tween._remove (Tween.self s)
        ∧ Tween.finished (Tween.self s') = Tween.finished (Tween.self s).
Proof.
  intros Hacts Hloop Hcur Hidx. destruct s as [x c e], x.
  cbn in Hacts, Hloop, Hcur, Hidx. subst.
  eexists. split.
  - rewrite step_no_current by done. apply bind_Throw.
    rewrite next_loop; [|cbn; apply Z.leb_le; lia|done].
    by apply select_none.
  - done.
Qed.


(** The loop of [next] over keys whose targets are strings that do not
    start with ["false"]: each is recorded as an angle. *)
Lemma decompose_loop_strings props c e (kl : list (string * string)) :
  Forall (λ p, prop_get props p.1 = VString p.2 ∧ indexOf p.2 "false" ≠ 0) kl →
  ∀ x,
    for_each (Tween.decompose props) kl.*1 (Tween.Local x c e) =
      Ret tt
        (Tween.Local
           (Tween.set_types (Tween.types x ++ ((λ _, 2) <$> kl))
              (Tween.set_change
                 (Tween.change x ++
                  ((λ p, Scalar (VNumber (circWrappedDistance (obj_get c p.1)
                                            (parseFloat p.2)))) <$> kl))
                 (Tween.set_before
                    (Tween.before x ++ ((λ p, Scalar (obj_get c p.1)) <$> kl))
                    x)))
           c e).
Proof.
  induction 1 as [|p kl [Hget Hidx] _ IH]; intros x.
  - cbn. rewrite !app_nil_r. by destruct x.
  - cbn [fmap list_fmap for_each].
    rewrite (bind_Ret _ _ _ _ _ (decompose_string _ _ _ _ Hget Hidx)).
    cbn [Tween.self Tween.ctx Tween.emitted]. rewrite IH.
    destruct x. cbn. by rewrite <-!app_assoc.
Qed.

Lemma repeat_letters :
  Forall (λ p, prop_get (Tag "repeat") p.1 = VString p.2
               ∧ indexOf p.2 "false" ≠ 0)
         [("0", "r"); ("1", "e"); ("2", "p"); ("3", "e"); ("4", "a"); ("5", "t")].
Proof. repeat constructor; by vm_compute. Qed.

(** X16: the action that [repeat(times)] queues repeats nothing.  When
    [next] comes to it, the string ["repeat"] is taken for a property map:
    its six letters are targets named ["0"] to ["5"], each recorded as an
    angle, with the handler [animate] and [times] as the duration; the
    index moves on by one as for any other action, and nothing is
    triggered. *)
Theorem X16_repeat_is_animated_letter_by_letter s times e :
  js_nth (Tween.actions (Tween.self s)) (Tween.index (Tween.self s) + 1)
    = Some (Action (Tag "repeat") times e) →
  ∃ x', Tween.next s = Ret tt (Tween.Local x' (Tween.ctx s) (Tween.emitted s))
        ∧ Tween.index x' = Tween.index (Tween.self s) + 1
        ∧ Tween.actions x' = Tween.actions (Tween.self s)
        ∧ Tween.currentAction x' = Some Animate
        ∧ Tween.duration x' = times
        ∧ Tween.keys x' = ["0"; "1"; "2"; "3"; "4"; "5"]
        ∧ Tween.types x' = [2; 2; 2; 2; 2; 2]
        ∧ Tween.before x' =
            (λ k, Scalar (obj_get (Tween.ctx s) k)) <$> ["0"; "1"; "2"; "3"; "4"; "5"]
        ∧ Tween.change x' =
            (λ kl, Scalar (VNumber (circWrappedDistance (obj_get (Tween.ctx s) kl.1)
                                      (parseFloat kl.2))))
            <$> [("0", "r"); ("1", "e"); ("2", "p"); ("3", "e"); ("4", "a");
                 ("5", "t")].
Proof.
  intros Hnth.
  assert ((Z.of_nat (length (Tween.actions (Tween.self s)))
             <=? Tween.index (Tween.self s) + 1) = false) as Hin.
  { apply Z.leb_gt. unfold js_nth in Hnth.
    destruct (_ <? 0) eqn:Hneg; [done|]. apply Z.ltb_ge in Hneg.
    apply lookup_lt_Some in Hnth. lia. }
  rewrite (next_select s Hin).
  rewrite (select_animate _ (Action (Tag "repeat") times e))
    by (by destruct s as [[] ? ?]).
  cbn [a_props a_duration a_easing Tween.ctx Tween.emitted].
  change (Object_keys (Tag "repeat"))
    with ([("0", "r"); ("1", "e"); ("2", "p"); ("3", "e"); ("4", "a");
           ("5", "t")].*1 : list string).
  rewrite (bind_Ret _ _ _ _ _ (decompose_loop_strings _ _ _ _ repeat_letters _)).
  eexists. split; [reflexivity|]. by destruct s as [[] ? ?].
Qed.


(** X17: [next] never writes to the context, whatever it does (select an
    action, wrap a looped tween, finish the tween) and also when it
    throws; nor does it change the recorded progress. *)
Theorem X17_next_never_writes_the_context s :
  Tween.ctx (final (Tween.next s)) = Tween.ctx s
  ∧ progress_of (final (Tween.next s)) = progress_of s.
Proof. split; [apply next_keeps_ctx | apply next_keeps_progress]. Qed.

End Edges.

(** ** The progress is clamped *)

(** A number that is not [NaN] and neither above nor below [1] is at
    most [1]. *)
Lemma SFcompare_one_cases sq :
  sq ≠ S754_nan →
  SFltb (S754_finite false 4503599627370496 (-52)) sq = false →
  SFltb sq (S754_finite false 4503599627370496 (-52)) = false →
  SFleb sq (S754_finite false 4503599627370496 (-52)) = true.
Proof.
  intros Hnan Hgt Hlt. unfold SFltb, SFleb in *.
  destruct sq as [sg|sg| |sg m e]; try done; try (by destruct sg).
  destruct sg; [done|]. unfold SFcompare in *.
  rewrite (Z.compare_antisym e (-52)) in Hgt.
  destruct (e ?= -52) eqn:He; try done.
  change (CompOpp Eq) with Eq in Hgt. cbv iota in Hgt.
  change (Pos.compare_cont Eq 4503599627370496 m)
    with (Pos.compare_cont (CompOpp Eq) 4503599627370496 m) in Hgt.
  rewrite <-Pos.compare_cont_antisym in Hgt.
  by destruct (Pos.compare_cont Eq m _).
Qed.

Lemma Prim2SF_one : Prim2SF 1 = S754_finite false 4503599627370496 (-52).
Proof. by vm_compute. Qed.

(** [Math.min(1, q)] is [NaN] or at most [1]. *)
Lemma Math_min_one q :
  is_nan (Math_min 1 q) = true ∨ (Math_min 1 q <=? 1)%float = true.
Proof.
  unfold Math_min. change (is_nan 1) with false.
  change (get_sign 1) with false. cbv beta iota. cbn [orb].
  destruct (is_nan q) eqn:Hnan; [by left|]. right.
  destruct (1 <? q)%float eqn:Hgt; [by vm_compute|].
  destruct (q <? 1)%float eqn:Hlt.
  - rewrite FloatAxioms.ltb_spec in Hlt. rewrite FloatAxioms.leb_spec.
    unfold SFltb in Hlt. unfold SFleb.
    by destruct (SFcompare _ _) as [[]|].
  - rewrite FloatAxioms.ltb_spec in Hgt, Hlt. rewrite FloatAxioms.leb_spec.
    rewrite Prim2SF_one in *. apply SFcompare_one_cases; [|done..].
    intros Hq. unfold is_nan in Hnan. rewrite FloatAxioms.eqb_spec, Hq in Hnan.
    done.
Qed.

Section Progress.
Context `{Platform}.
Implicit Types s : Tween.local.
Local Open Scope eff_scope.

(** [step] on a tween whose current action is animated, whatever its
    arrays hold. *)
Lemma step_animate s d a :
  Tween.current (Tween.self s) = Some a →
  Tween.currentAction (Tween.self s) = Some Animate →
  ∃ c', Tween.step d s =
          (let p := Math_min 1 ((num (Tween.delta (Tween.self s)) + d)
                                / num (Tween.duration (Tween.self s))) in
           if (1 <=? p)%float then Tween.next else ret tt)
            (Tween.Local
               (Tween.set_progress
                  (Some (Math_min 1 ((num (Tween.delta (Tween.self s)) + d)
                                     / num (Tween.duration (Tween.self s)))))
                  (Tween.set_delta
                     (Some (num (Tween.delta (Tween.self s)) + d)%float)
                     (Tween.self s)))
               c' (Tween.emitted s)).
Proof.
  intros Hcur Hact. destruct s as [x c e], x.
  cbn [Tween.self Tween.ctx Tween.emitted Tween.current Tween.currentAction] in *.
  subst.
  unfold Tween.step, Tween.doAnimate, bind, Tween.upd, Tween.this, modify, ret.
  cbn -[Tween.next Tween.animate_all Math_min PrimFloat.leb PrimFloat.div
        PrimFloat.add].
  match goal with |- context [Tween.animate_all ?m ?ks (Tween.Local ?x ?c ?e)] =>
    destruct (animate_all_ret m ks x c e) as (c' & -> & _)
  end.
  by exists c'.
Qed.

(** X18: whenever [step] runs an animated action, whatever the elapsed
    time, the time supplied and the duration are, the progress it records
    is [Math.min(1, (delta + d) / duration)], which is [NaN] or at most
    [1]; and when this progress is not at least [1], the call returns
    with the cursor where it was and without an event. *)
Theorem X18_progress_never_exceeds_one s d a :
  Tween.current (Tween.self s) = Some a →
  Tween.currentAction (Tween.self s) = Some Animate →
  ∃ p, progress_of (final (Tween.step d s)) = Some p
       ∧ p = Math_min 1 ((num (Tween.delta (Tween.self s)) + d)
                         / num (Tween.duration (Tween.self s)))
       ∧ (is_nan p = true ∨ (p <=? 1)%float = true)
       ∧ ((1 <=? p)%float = false →
            ∃ s', Tween.step d s = Ret tt s'
                  ∧ cursor s' = cursor s
                  ∧ Tween.emitted s' = Tween.emitted s).
Proof.
  intros Hcur Hact. destruct (step_animate s d a Hcur Hact) as [c' ->].
  cbv zeta. set (p := Math_min 1 _). exists p.
  split; [|split; [done|split; [apply Math_min_one|]]].
  - destruct (1 <=? p)%float; [by rewrite next_keeps_progress | done].
  - intros ->. eexists. split; [reflexivity|]. by destruct s as [[] ? ?].
Qed.

End Progress.

(** ** Queues that never throw *)

Section Plain.
Context `{Platform}.
Implicit Types s : Tween.local.
Local Open Scope eff_scope.

Lemma plain_queue_cursor s s' :
  cursor s' = cursor s → plain_queue s → plain_queue s'.
Proof. unfold cursor, plain_queue, plain_tween. intros [= -> -> ->]. done. Qed.

Lemma plain_queue_advance s s' :
  cursor s' = advance (cursor s) → plain_queue s → plain_queue s'.
Proof.
  unfold cursor, advance, plain_queue, plain_tween.
  intros [= -> -> ->] (Hacts & Hidx & Hloop).
  split; [done|]. split; [|done]. destruct (_ && _); lia.
Qed.

Lemma plain_queue_at s s' :
  Tween.actions (Tween.self s') = Tween.actions (Tween.self s) →
  Tween.looped (Tween.self s') = Tween.looped (Tween.self s) →
  -1 ≤ Tween.index (Tween.self s') →
  plain_queue s → plain_queue s'.
Proof. unfold plain_queue, plain_tween. intros -> -> ? (? & ? & ?). done. Qed.

(** Selecting a plain action returns. *)
Lemma select_plain s a :
  js_nth (Tween.actions (Tween.self s)) (Tween.index (Tween.self s)) = Some a →
  plain a → ∃ s', Tween.select s = Ret tt s'.
Proof.
  intros Hnth [Hwait|(kv & Hprops & Hkv)].
  - rewrite (select_wait s a Hnth Hwait). by eexists.
  - destruct a as [p d e]. simpl in Hprops. subst p.
    destruct (select_numeric s kv d e Hnth Hkv) as (bf & ch & ty & ->).
    by eexists.
Qed.

Lemma plain_lookup s i :
  plain_queue s →
  0 ≤ i < Z.of_nat (length (Tween.actions (Tween.self s))) →
  ∃ a, js_nth (Tween.actions (Tween.self s)) i = Some a ∧ plain a.
Proof.
  intros (Hacts & _) Hi. unfold js_nth. rewrite (proj2 (Z.ltb_ge _ _)) by lia.
  destruct (lookup_lt_is_Some_2 (Tween.actions (Tween.self s)) (Z.to_nat i))
    as [a Ha]; [lia|].
  exists a. split; [done|]. rewrite Forall_lookup in Hacts. by apply (Hacts _ _ Ha).
Qed.

(** On a plain queue [next] returns. *)
Lemma next_plain : total plain_queue Tween.next (λ _, plain_queue).
Proof.
  intros s Hs.
  assert (∃ s', Tween.next s = Ret tt s') as [s' Hs'].
  { destruct (Z.of_nat (length (Tween.actions (Tween.self s)))
                <=? Tween.index (Tween.self s) + 1) eqn:Hend.
    - destruct (Tween.looped (Tween.self s)) eqn:Hloop.
      + rewrite (next_loop s Hend Hloop).
        match goal with |- ∃ _, Tween.select ?s0 = _ =>
          destruct (plain_lookup s0 0) as (a & Ha & Hplain)
        end.
        { apply (plain_queue_at s); [by destruct s as [[] ? ?]..| |done].
          by destruct s as [[] ? ?]. }
        { destruct Hs as (Hacts & Hidx & Hne). specialize (Hne Hloop).
          destruct s as [[] ? ?]. cbn in *. destruct actions; [done|].
          cbn. lia. }
        apply (select_plain _ a); [|done]. by destruct s as [[] ? ?].
      + rewrite (next_finish s Hend Hloop). by eexists.
    - rewrite (next_select s Hend).
      match goal with |- ∃ _, Tween.select ?s0 = _ =>
        destruct (plain_lookup s0 (Tween.index (Tween.self s) + 1))
          as (a & Ha & Hplain)
      end.
      { apply (plain_queue_at s); [by destruct s as [[] ? ?]..| |done].
        destruct Hs as (_ & Hidx & _). destruct s as [[] ? ?]. cbn in *. lia. }
      { apply Z.leb_gt in Hend. destruct Hs as (Hacts & Hidx & Hne).
        destruct s as [[] ? ?]. cbn in *. lia. }
      apply (select_plain _ a); [|done]. by destruct s as [[] ? ?]. }
  exists tt, s'. split; [done|].
  apply (plain_queue_advance s); [|done].
  rewrite <-next_cursor. by rewrite Hs'.
Qed.

Lemma upd_plain g :
  (∀ x, Tween.index (g x) = Tween.index x
        ∧ Tween.actions (g x) = Tween.actions x
        ∧ Tween.looped (g x) = Tween.looped x) →
  total plain_queue (Tween.upd g) (λ _, plain_queue).
Proof.
  intros Hg s Hs. eexists tt, _. split; [reflexivity|].
  apply (plain_queue_cursor s); [|done]. by apply upd_keeps_cursor.
Qed.

Lemma this_plain : total plain_queue Tween.this (λ _, plain_queue).
Proof. intros s Hs. by exists (Tween.self s), s. Qed.

Lemma animate_all_plain mod_ keys :
  total plain_queue (Tween.animate_all mod_ keys) (λ _, plain_queue).
Proof.
  intros [x c e] Hs. destruct (animate_all_ret mod_ keys x c e) as (c' & -> & _).
  by eexists tt, _.
Qed.

Lemma step_plain d : total plain_queue (Tween.step d) (λ _, plain_queue).
Proof.
  unfold Tween.step, Tween.doAnimate, Tween.doWait.
  apply (total_bind _ (λ _, plain_queue)); [apply upd_plain; by intros []|].
  intros _.
  apply (total_bind _ (λ _, plain_queue)); [apply this_plain|]. intros x.
  apply (total_bind _ (λ _, plain_queue)).
  { destruct (Tween.current x); [by apply total_ret | apply next_plain]. }
  intros _. apply (total_bind _ (λ _, plain_queue)); [apply this_plain|].
  intros x1.
  destruct (Tween.currentAction x1) as [[]|]; [| |by apply total_ret].
  - apply (total_bind _ (λ _, plain_queue)); [apply this_plain|]. intros x2.
    apply (total_bind _ (λ _, plain_queue)); [apply upd_plain; by intros []|].
    intros _.
    apply (total_bind _ (λ _, plain_queue)); [apply animate_all_plain|].
    intros _.
    destruct (1 <=? _)%float; [apply next_plain | by apply total_ret].
  - apply (total_bind _ (λ _, plain_queue)); [apply this_plain|]. intros x2.
    destruct (_ <=? _)%float; [apply next_plain | by apply total_ret].
Qed.

(** X19: a tween whose actions are waits and property maps with numeric
    targets, whose index is at least [-1], and that is not both looped and
    without actions, never throws when it is stepped: every sequence of
    [step] calls returns, whatever times the calls supply and whatever the
    context holds, and leaves a tween of the same kind. *)
Theorem X19_plain_queue_never_throws s (ds : list float) :
  plain_queue s →
  ∃ s', for_each Tween.step ds s = Ret tt s' ∧ plain_queue s'.
Proof.
  intros Hs.
  destruct (total_for_each plain_queue Tween.step ds (λ d _, step_plain d) s Hs)
    as ([] & s' & Hs' & Hplain).
  by exists s'.
Qed.


End Plain.

(** A step leaves a tween bound to the context it was bound to. *)

Lemma upd_keeps_binding g :
  (∀ x, Tween.context (g x) = Tween.context x) → keeps binding (Tween.upd g).
Proof. intros Hg [x c e]. apply Hg. Qed.

#[export] Hint Extern 1 (keeps binding (Tween.upd _)) =>
  apply upd_keeps_binding; by intros [] : frames.

Section BindingFrame.
Context `{Platform}.

Lemma decompose_color_keeps_binding v target :
  keeps binding (Tween.decompose_color v target).
Proof. unfold Tween.decompose_color. frame. Qed.

Hint Resolve decompose_color_keeps_binding : frames.

Lemma decompose_keeps_binding props key :
  keeps binding (Tween.decompose props key).
Proof. unfold Tween.decompose. frame. Qed.

Hint Resolve decompose_keeps_binding : frames.

Lemma select_keeps_binding : keeps binding Tween.select.
Proof. unfold Tween.select. frame. Qed.

Hint Resolve select_keeps_binding : frames.

Lemma next_keeps_binding : keeps binding Tween.next.
Proof. unfold Tween.next, Tween.manager_remove. frame. Qed.

Hint Resolve next_keeps_binding : frames.

Lemma animate_keeps_binding mod_ i key : keeps binding (Tween.animate mod_ i key).
Proof. unfold Tween.animate. frame. Qed.

Hint Resolve animate_keeps_binding : frames.

(** No [step] binds a tween to another context. *)
Lemma step_keeps_binding d : keeps binding (Tween.step d).
Proof.
  unfold Tween.step, Tween.doAnimate, Tween.doWait, Tween.animate_all. frame.
Qed.

End BindingFrame.

Section PlainStore.
Context `{Platform}.
Implicit Types w : TweenManager.t.
Local Open Scope eff_scope.

(** Stepping a tween of a plain store returns and leaves a plain store. *)
Lemma on_tween_step_plain d r w x :
  plain_store w →
  TweenManager.heap w !! r = Some x →
  ∃ w', TweenManager.on_tween r (Tween.step d) w = Ret tt w'
        ∧ plain_store w'
        ∧ TweenManager.tweens w' = TweenManager.tweens w.
Proof.
  intros [[Hrefs Hctx] Hplain] Hx.
  assert (is_Some (TweenManager.contexts w !! Tween.context x)) as [c Hc].
  { rewrite Forall_lookup in Hctx. by apply (Hctx r). }
  assert (plain_queue (Tween.Local x c [])) as Hq.
  { rewrite Forall_lookup in Hplain. by apply (Hplain r). }
  destruct (step_plain d _ Hq) as ([] & l & Hl & Hl').
  pose proof (step_keeps_binding d (Tween.Local x c [])) as Hb.
  rewrite Hl in Hb. unfold binding in Hb. cbn in Hb.
  rewrite (on_tween_ret r _ w x c tt l Hx Hc Hl).
  eexists. split; [reflexivity|]. split; [|done].
  unfold plain_store, wf, TweenManager.store. cbn. split; [split|].
  - eapply Forall_impl; [exact Hrefs|]. intros r' [y Hy].
    apply lookup_lt_is_Some. rewrite length_insert.
    by apply lookup_lt_Some in Hy.
  - apply Forall_insert.
    + eapply Forall_impl; [exact Hctx|]. intros y [cy Hy].
      apply lookup_lt_is_Some. rewrite length_insert.
      by apply lookup_lt_Some in Hy.
    + rewrite Hb. apply lookup_lt_is_Some. rewrite length_insert.
      by apply lookup_lt_Some in Hc.
  - by apply Forall_insert.
Qed.

Lemma visit_plain d l :
  ∀ r, r ∈ l →
       total (λ w, plain_store w ∧ TweenManager.tweens w = l) (visit d r)
             (λ _ w, plain_store w ∧ TweenManager.tweens w = l).
Proof.
  intros r Hr w [Hw Hl]. unfold visit, bind, TweenManager.deref.
  assert (is_Some (TweenManager.heap w !! r)) as [x Hx].
  { destruct Hw as [[Hrefs _] _]. rewrite Forall_forall in Hrefs.
    apply Hrefs. by rewrite Hl. }
  rewrite Hx. destruct (Tween._remove x); [by exists tt, w|].
  destruct (on_tween_step_plain d r w x Hw Hx) as (w' & -> & Hw' & Ht).
  exists tt, w'. split; [done|]. split; [done|]. by rewrite Ht.
Qed.

Lemma step_body_plain d i r : preserves plain_store (TweenManager.step_body d i r).
Proof.
  intros w Hw. rewrite step_body_unfold.
  destruct (TweenManager.heap w !! r) as [x|] eqn:Hx; [|done].
  assert (∃ w1, (if Tween._remove x then Ret tt w
                 else TweenManager.on_tween r (Tween.step d) w) = Ret tt w1
                ∧ plain_store w1) as (w1 & -> & Hw1).
  { destruct (Tween._remove x); [by exists w|].
    destruct (on_tween_step_plain d r w x Hw Hx) as (w' & -> & Hw' & _).
    by exists w'. }
  destruct (TweenManager.heap w1 !! r) as [x1|]; [|done].
  destruct (Tween._remove x1); [|done].
  destruct Hw1 as [[Hrefs Hctx] Hplain]. split; [|done]. split; [|done]. cbn.
  by apply Forall_delete.
Qed.

(** X20: [step] of the manager on a store whose references are to objects
    of the store and whose tweens are all plain (waits and numeric targets,
    no looped tween without actions) never throws: the pass
    returns, whatever time it supplies and whatever the contexts hold, and
    it leaves a store of the same kind. *)
Theorem X20_plain_store_steps_without_throwing d w :
  plain_store w →
  ∃ w', TweenManager.step d w = Some (Ret tt w') ∧ plain_store w'.
Proof.
  intros Hw.
  set (w0 := TweenManager.set_delta (TweenManager.delta w + d)%float w).
  assert (plain_store w0) as Hw0 by done.
  destruct (total_for_each
              (λ w1, plain_store w1 ∧ TweenManager.tweens w1 = TweenManager.tweens w)
              (visit d) (TweenManager.tweens w)
              (visit_plain d (TweenManager.tweens w)) w0 (conj Hw0 eq_refl))
    as ([] & w1 & Hw1 & _).
  unfold TweenManager.step. fold w0.
  destruct (step_loop_visits d (TweenManager.tweens w0) [] w0
              (S (length (TweenManager.tweens w0))) eq_refl (Nat.lt_succ_diag_r _))
    as (l' & Hl').
  change (Z.of_nat (length [])) with 0 in Hl'. rewrite Hl'.
  change (TweenManager.tweens w0) with (TweenManager.tweens w). rewrite Hw1.
  eexists. split; [reflexivity|].
  pose proof (step_loop_preserves plain_store d (step_body_plain d) _ _ _ _
                Hw0 Hl') as Hfinal.
  change (TweenManager.tweens w0) with (TweenManager.tweens w) in Hfinal.
  by rewrite Hw1 in Hfinal.
Qed.

End PlainStore.

(** ** The kinds of targets; [forward] on a wait *)

Section Kinds.
Context `{Platform}.
Implicit Types s : Tween.local.
Local Open Scope eff_scope.

(** One round of the loop of [next]: what it records, and what it throws. *)
Lemma decompose_outcome s props key :
  match Tween.decompose props key s with
  | Ret _ s' =>
      Tween.types (Tween.self s') =
      Tween.types (Tween.self s) ++ [kind_of (prop_get props key)]
  | Throw e s' => e = ColorError ∧ kind_of (prop_get props key) = 1
  end.
Proof.
  destruct s as [x c e].
  unfold Tween.decompose, Tween.decompose_color, bind, Tween.read, Tween.upd,
    Tween.this, modify, throw, kind_of.
  rewrite needle_false.
  destruct (prop_get props key) as [| b | t | t]; cbn;
    try destruct (indexOf t "false" =? 0); cbn;
    try destruct (cq_color (obj_get c key)) as [[[b0 b1] b2]|]; cbn;
    try destruct (cq_color _) as [[[a0 a1] a2]|]; cbn;
    by destruct x.
Qed.

Lemma decompose_loop_outcome props keys :
  ∀ s,
    match for_each (Tween.decompose props) keys s with
    | Ret _ s' =>
        Tween.types (Tween.self s') =
        Tween.types (Tween.self s) ++ ((λ k, kind_of (prop_get props k)) <$> keys)
    | Throw e s' =>
        e = ColorError ∧ ∃ k, k ∈ keys ∧ kind_of (prop_get props k) = 1
    end.
Proof.
  induction keys as [|k keys IH]; intros s.
  - cbn. by rewrite app_nil_r.
  - cbn [for_each]. unfold bind. pose proof (decompose_outcome s props k) as Hk.
    destruct (Tween.decompose props k s) as [[] s1|e s1].
    + specialize (IH s1). destruct (for_each _ keys s1) as [[] s2|e s2].
      * rewrite IH, Hk, <-app_assoc. done.
      * destruct IH as [-> (k' & Hin & Hkind)]. split; [done|].
        exists k'. split; [by right | done].
    + destruct Hk as [-> Hkind]. split; [done|]. exists k. split; [by left|done].
Qed.

(** X21: how [next] classifies the targets of the property map it comes
    to.  Key by key, a number is recorded as kind [0]; a string is recorded
    as kind [2], an angle, unless it starts with ["false"]; every other
    target, and a string that starts with ["false"], goes to the colour
    parser and is recorded as kind [1].  [next] returns with these kinds
    in [types], in the order of the keys, or it throws what the colour
    parser throws, and then some target is of kind [1]. *)
Theorem X21_targets_are_classified_by_kind s a :
  js_nth (Tween.actions (Tween.self s)) (Tween.index (Tween.self s) + 1) = Some a →
  is_wait (a_props a) = false →
  match Tween.next s with
  | Ret _ s' =>
      Tween.types (Tween.self s') =
        (λ k, kind_of (prop_get (a_props a) k)) <$> Object_keys (a_props a)
      ∧ Tween.currentAction (Tween.self s') = Some Animate
  | Throw e s' =>
      e = ColorError
      ∧ ∃ k, k ∈ Object_keys (a_props a) ∧ kind_of (prop_get (a_props a) k) = 1
  end.
Proof.
  intros Hnth Hwait.
  assert ((Z.of_nat (length (Tween.actions (Tween.self s)))
             <=? Tween.index (Tween.self s) + 1) = false) as Hin.
  { apply Z.leb_gt. unfold js_nth in Hnth.
    destruct (_ <? 0) eqn:Hneg; [done|]. apply Z.ltb_ge in Hneg.
    apply lookup_lt_Some in Hnth. lia. }
  rewrite (next_select s Hin).
  rewrite (select_animate _ a) by (by destruct s as [[] ? ?]).
  unfold bind at 1.
  match goal with |- context [for_each ?b ?l ?s0] =>
    pose proof (decompose_loop_outcome (a_props a) l s0) as Hloop;
    destruct (for_each b l s0) as [[] s1|e s1]
  end; [|done].
  cbn in Hloop. destruct s1 as [[] ? ?]. cbn in *. by subst.
Qed.

(** [step] on a wait that has elapsed, as [forward] sets it up. *)
Lemma forward_wait s a d :
  Tween.current (Tween.self s) = Some a →
  Tween.currentAction (Tween.self s) = Some Wait →
  Tween.duration (Tween.self s) = Some d →
  (d <=? d + 0)%float = true →
  Tween.forward s =
    (Tween.next ;; ret Undefined)
      (Tween.Local (Tween.set_delta (Some (d + 0)%float) (Tween.self s))
         (Tween.ctx s) (Tween.emitted s)).
Proof.
  intros Hcur Hact Hdur Hle. unfold Tween.forward.
  unfold bind at 1. cbn [Tween.upd modify].
  unfold bind at 1.
  rewrite (step_wait_elapsed _ 0 a); [| by destruct s as [[] ? ?]..|].
  - destruct s as [[] ? ?]. cbn in *. by subst.
  - destruct s as [[] ? ?]. cbn in *. by subst.
Qed.

(** X22: [forward] on a tween that is waiting, with a duration [d] that
    is a number ([d <= d + 0]), ends the wait at once: it writes nothing
    to the context, leaves the recorded progress as it is, and moves the
    cursor on with [next] (one further, or back to [0] when a looped tween
    wraps). *)
Theorem X22_forward_ends_a_wait s a d :
  Tween.current (Tween.self s) = Some a →
  Tween.currentAction (Tween.self s) = Some Wait →
  Tween.duration (Tween.self s) = Some d →
  (d <=? d + 0)%float = true →
  Tween.ctx (final (Tween.forward s)) = Tween.ctx s
  ∧ cursor (final (Tween.forward s)) = advance (cursor s)
  ∧ progress_of (final (Tween.forward s)) = progress_of s.
Proof.
  intros Hcur Hact Hdur Hle. rewrite (forward_wait s a d Hcur Hact Hdur Hle).
  rewrite final_bind_ret, next_keeps_ctx, next_cursor, next_keeps_progress.
  by destruct s as [[] ? ?].
Qed.

End Kinds.

(** ** Concrete runs *)

(** The facts about the test data that the runs below rest on. *)
Lemma numeric_x10 : numeric [("x", VNumber 10%float)].
Proof. repeat constructor. by eexists. Defined.

Lemma linear_test_host : linear test_host.
Proof. intros p e. reflexivity. Defined.

(** C1, as the claim states it, fails: with a linear easing a single
    [step(500)] leaves [x = 0], and when the supplied time has reached
    [1000] (a second [step(500)]) [x] is [5] and the tween is still on
    its first action. *)
Lemma C1_first_step_is_not_counted :
  ∃ s1 s2,
    (Tween.to x10 (Some 1000%float) None ;; @Tween.step test_host 500)%eff
      (fresh x0) = Ret tt s1
    ∧ @Tween.step test_host 500 s1 = Ret tt s2
    ∧ obj_get (Tween.ctx s1) "x" = VNumber 0%float
    ∧ obj_get (Tween.ctx s2) "x" = VNumber 5%float
    ∧ Tween.index (Tween.self s2) = 0
    ∧ Tween.finished (Tween.self s2) = None.
Proof.
  match goal with |- ∃ _ _, ?p ?s0 = _ ∧ _ =>
    exists (final (p s0)), (final (@Tween.step test_host 500 (final (p s0))))
  end.
  by vm_compute.
Qed.

(** C1 (amended) on the test host, with a selecting [step(500)]. *)
Lemma C1_witness :
  linear test_host
  ∧ ltac:(let T := type of (@C1_interpolation_counts_from_selection
                              test_host 500%float linear_test_host)
          in exact T).
Proof.
  split; [exact linear_test_host|].
  exact (@C1_interpolation_counts_from_selection test_host 500%float
           linear_test_host).
Defined.

(** C9, as the claim states it, fails: on the selected first (and only)
    action of the tween, [forward] writes the final value [x = 10] and
    leaves the index at [1], past the action it was on (index [0]); the
    tween has finished. *)
Lemma C9_forward_moves_the_cursor :
  ∃ s, @Tween.forward test_host selected_x10 = Ret Undefined s
       ∧ Tween.index (Tween.self selected_x10) = 0
       ∧ Tween.current (Tween.self selected_x10)
           = Some (Action x10 (Some 1000%float) (Some "045"))
       ∧ obj_get (Tween.ctx s) "x" = VNumber 10%float
       ∧ Tween.index (Tween.self s) = 1
       ∧ Tween.finished (Tween.self s) = Some true.
Proof. exists (final (@Tween.forward test_host selected_x10)). by vm_compute. Qed.

Lemma selected_x10_current :
  Tween.current (Tween.self selected_x10)
    = Some (Action x10 (Some 1000%float) (Some "045")).
Proof. by vm_compute. Defined.

Lemma selected_x10_handler :
  Tween.currentAction (Tween.self selected_x10) = Some Animate.
Proof. by vm_compute. Defined.

Lemma selected_x10_duration :
  Tween.duration (Tween.self selected_x10) = Some 1000%float.
Proof. by vm_compute. Defined.

Lemma thousand_divides_itself : ((1000 + 0) / 1000)%float = 1%float.
Proof. by vm_compute. Defined.

Lemma selected_x10_in_range :
  -1 ≤ Tween.index (Tween.self selected_x10)
     < Z.of_nat (length (Tween.actions (Tween.self selected_x10))).
Proof. by vm_compute. Defined.

Lemma running_once : once running.
Proof. unfold once. vm_compute. apply NoDup_singleton. Defined.

Lemma running_wf : wf running.
Proof. split; vm_compute; repeat constructor; by eexists. Defined.

Lemma running_allocated : is_Some (TweenManager.heap running !! 0%nat).
Proof. vm_compute. by eexists. Defined.


(** C7, as the claim states it, fails: two calls of [next] on a tween
    without actions leave its index at [1], above the length [0]; and the
    tween of [replayed], which a manager stepped to its end, which was
    played again and stepped twice more, has one action and the index
    [2]. *)
Lemma C7_index_passes_the_length :
  (∃ s, (@Tween.next test_host ;; @Tween.next test_host)%eff (fresh ∅) = Ret tt s
        ∧ Tween.index (Tween.self s) = 1
        ∧ Tween.actions (Tween.self s) = [])
  ∧ Tween.index <$> TweenManager.heap replayed !! 0%nat = Some 2
  ∧ length ∘ Tween.actions <$> TweenManager.heap replayed !! 0%nat = Some 1%nat.
Proof.
  split; [|by vm_compute].
  match goal with |- ∃ _, ?p ?s0 = _ ∧ _ => exists (final (p s0)) end.
  by vm_compute.
Qed.

(** C7 (amended), its bound on [next], for the tween [selected_x10]. *)
Lemma C7_witness :
  -1 ≤ Tween.index (Tween.self selected_x10)
     < Z.of_nat (length (Tween.actions (Tween.self selected_x10)))
  ∧ ltac:(let T := type of (proj1 (proj2 (@C7_index_bounds test_host))
                              selected_x10 selected_x10_in_range)
          in exact T).
Proof.
  split; [exact selected_x10_in_range|].
  exact (proj1 (proj2 (@C7_index_bounds test_host))
           selected_x10 selected_x10_in_range).
Defined.

(** C8, its step from one collection to the next, for a frame of the
    manager [running]. *)
Lemma C8_witness :
  once running
  ∧ ltac:(let T := type of (proj1 (proj2 (proj2 (proj2
                              (@C8_collection_holds_each_tween_once test_host))))
                              (ManagerStep 500) running running_once)
          in exact T).
Proof.
  split; [exact running_once|].
  exact (proj1 (proj2 (proj2 (proj2
           (@C8_collection_holds_each_tween_once test_host))))
           (ManagerStep 500) running running_once).
Defined.

(** C10 on the test host, for the tween of the manager [running]. *)
Lemma C10_witness :
  (wf running ∧ is_Some (TweenManager.heap running !! 0%nat))
  ∧ ltac:(let T := type of (@C10_what_the_builders_return test_host running
                              0%nat running_wf running_allocated)
          in exact T).
Proof.
  split; [exact (conj running_wf running_allocated)|].
  exact (@C10_what_the_builders_return test_host running 0%nat running_wf
           running_allocated).
Defined.

Lemma on_last_of_loop_looped : Tween.looped (Tween.self on_last_of_loop) = true.
Proof. by vm_compute. Defined.

Lemma on_last_of_loop_at_end :
  Z.of_nat (length (Tween.actions (Tween.self on_last_of_loop)))
    ≤ Tween.index (Tween.self on_last_of_loop) + 1.
Proof. by vm_compute. Defined.

(** X2 on the test host, for the tween [on_last_of_loop]. *)
Lemma X2_witness :
  (Tween.looped (Tween.self on_last_of_loop) = true
   ∧ Z.of_nat (length (Tween.actions (Tween.self on_last_of_loop)))
       ≤ Tween.index (Tween.self on_last_of_loop) + 1)
  ∧ ltac:(let T := type of (@X2_loop_wraps_without_removal test_host
                              on_last_of_loop on_last_of_loop_looped
                              on_last_of_loop_at_end)
          in exact T).
Proof.
  split; [exact (conj on_last_of_loop_looped on_last_of_loop_at_end)|].
  exact (@X2_loop_wraps_without_removal test_host on_last_of_loop
           on_last_of_loop_looped on_last_of_loop_at_end).
Defined.

Lemma two_on_one_refs :
  Forall (λ r, is_Some (TweenManager.heap two_on_one !! r))
         (TweenManager.tweens two_on_one).
Proof. vm_compute. repeat constructor; by eexists. Defined.

Lemma two_on_one_first :
  TweenManager.heap two_on_one !! 0%nat = Some (Tween.new 0).
Proof. by vm_compute. Defined.

(** X3 on the test host, for the first of the two tweens of
    [two_on_one]. *)
Lemma X3_witness :
  (Forall (λ r, is_Some (TweenManager.heap two_on_one !! r))
          (TweenManager.tweens two_on_one)
   ∧ TweenManager.heap two_on_one !! 0%nat = Some (Tween.new 0))
  ∧ ltac:(let T := type of (@X3_discard_flags_the_others test_host two_on_one
                              0%nat _ two_on_one_refs two_on_one_first)
          in exact T).
Proof.
  split; [exact (conj two_on_one_refs two_on_one_first)|].
  exact (@X3_discard_flags_the_others test_host two_on_one 0%nat _
           two_on_one_refs two_on_one_first).
Defined.

(** The channels of the middle of black and white are [127]; a channel of
    [-127.5] becomes [-127], not [-128], and [2 ^ 31] wraps to
    [- 2 ^ 31]. *)
Lemma X4_witness :
  (Tween.types black_to_white !! 0%nat = Some 1
   ∧ Tween.before black_to_white !! 0%nat = Some (Triple (0, 0, 0)%float)
   ∧ Tween.change black_to_white !! 0%nat = Some (Triple (255, 255, 255)%float))
  ∧ ltac:(let T := type of (@X4_color_channels_are_truncated test_host 0.5 0
                              "color" black_to_white black [] 0 0 0 255 255 255
                              eq_refl eq_refl eq_refl)
          in exact T)
  ∧ @Tween.animate test_host 0.5 0 "color" (Tween.Local black_to_white black [])
      = Ret tt (Tween.Local black_to_white
                  (<["color" := VString "rgb(127,127,127)"]> black) [])
  ∧ ToInt32 (-127.5) = -127
  ∧ ToInt32 2147483648 = -2147483648.
Proof.
  split; [done|]. split; [|done].
  exact (@X4_color_channels_are_truncated test_host 0.5 0 "color"
           black_to_white black [] 0 0 0 255 255 255 eq_refl eq_refl eq_refl).
Defined.

(** The facts about the test data that the runs of the further
    properties rest on. *)
Lemma to_ten_nodup : NoDup to_ten.*1.
Proof. apply NoDup_singleton. Defined.

Lemma queued_x10_first :
  js_nth (Tween.actions (Tween.self queued_x10))
         (Tween.index (Tween.self queued_x10) + 1)
    = Some (Action (targets to_ten) (Some 1000%float) (Some "045")).
Proof. by vm_compute. Defined.

(** X5 for the tween [queued_x10]. *)
Lemma X5_witness :
  (js_nth (Tween.actions (Tween.self queued_x10))
          (Tween.index (Tween.self queued_x10) + 1)
     = Some (Action (targets to_ten) (Some 1000%float) (Some "045"))
   ∧ NoDup to_ten.*1)
  ∧ ltac:(let T := type of (@X5_next_snapshots_numeric_targets test_host
                              queued_x10 to_ten _ _ queued_x10_first
                              to_ten_nodup)
          in exact T).
Proof.
  split; [exact (conj queued_x10_first to_ten_nodup)|].
  exact (@X5_next_snapshots_numeric_targets test_host queued_x10 to_ten _ _
           queued_x10_first to_ten_nodup).
Defined.

Lemma selected_x10_animating :
  @animating test_host (Tween.self selected_x10) x0 to_ten.
Proof.
  split; [vm_compute; by eexists|]. repeat split; by vm_compute.
Defined.

(** C6, as the claim states it, fails: after [wait(200)],
    [to({x: 10}, 1000)] and two calls [step(100)] the supplied time has
    reached [200], and yet the call that follows, a [step(50)], does not
    begin the Animate action: the wait is still current, with [150]
    counted, since the time of the call that selected the wait was
    dropped.  With a [step(100)] as the third call the Animate action
    becomes current and [x] is still [0]; the fourth call writes first. *)
Lemma C6_wait_outlasts_the_supplied_time :
  (∃ s, @Tween.step test_host 50 gated_x10 = Ret tt s
        ∧ Tween.currentAction (Tween.self s) = Some Wait
        ∧ Tween.index (Tween.self s) = 0
        ∧ Tween.delta (Tween.self s) = Some 150%float
        ∧ Tween.ctx s = x0)
  ∧ (∃ s3 s4, @Tween.step test_host 100 gated_x10 = Ret tt s3
              ∧ Tween.currentAction (Tween.self s3) = Some Animate
              ∧ Tween.ctx s3 = x0
              ∧ @Tween.step test_host 100 s3 = Ret tt s4
              ∧ obj_get (Tween.ctx s4) "x" = VNumber 1%float).
Proof.
  split.
  - exists (final (@Tween.step test_host 50 gated_x10)). by vm_compute.
  - exists (final (@Tween.step test_host 100 gated_x10)),
      (final (@Tween.step test_host 100
                (final (@Tween.step test_host 100 gated_x10)))).
    by vm_compute.
Qed.

(** C6 (amended) on the test host, for the context [{x: 0}] and
    [to({x: 10}, 1000)] after the wait. *)
Lemma C6_witness :
  NoDup to_ten.*1
  ∧ ltac:(let T := type of (@C6_wait_counts_from_its_selection test_host x0
                              to_ten (Some 1000%float) None 100 100 500
                              to_ten_nodup)
          in exact T).
Proof.
  split; [exact to_ten_nodup|].
  exact (@C6_wait_counts_from_its_selection test_host x0 to_ten
           (Some 1000%float) None 100 100 500 to_ten_nodup).
Defined.

(** C9 (amended) on the test host, for the tween [selected_x10], whose
    action has the numeric target [{x: 10}]. *)
Lemma C9_witness :
  (Tween.current (Tween.self selected_x10)
     = Some (Action x10 (Some 1000%float) (Some "045"))
   ∧ Tween.currentAction (Tween.self selected_x10) = Some Animate
   ∧ Tween.duration (Tween.self selected_x10) = Some 1000%float
   ∧ ((1000 + 0) / 1000)%float = 1%float
   ∧ @animating test_host (Tween.self selected_x10) x0 to_ten
   ∧ NoDup to_ten.*1)
  ∧ ltac:(let T := type of (@C9_forward_completes_then_advances test_host
                              selected_x10 _ _ selected_x10_current
                              selected_x10_handler selected_x10_duration
                              thousand_divides_itself)
          in exact T)
  ∧ ltac:(let T := type of (proj2 (proj2 (proj2
                      (@C9_forward_completes_then_advances test_host
                         selected_x10 _ _ selected_x10_current
                         selected_x10_handler selected_x10_duration
                         thousand_divides_itself)))
                      x0 to_ten selected_x10_animating to_ten_nodup)
          in exact T).
Proof.
  split; [|split].
  - exact (conj selected_x10_current
             (conj selected_x10_handler
                (conj selected_x10_duration
                   (conj thousand_divides_itself
                      (conj selected_x10_animating to_ten_nodup))))).
  - exact (@C9_forward_completes_then_advances test_host selected_x10 _ _
             selected_x10_current selected_x10_handler selected_x10_duration
             thousand_divides_itself).
  - exact (proj2 (proj2 (proj2
             (@C9_forward_completes_then_advances test_host
                selected_x10 _ _ selected_x10_current
                selected_x10_handler selected_x10_duration
                thousand_divides_itself)))
             x0 to_ten selected_x10_animating to_ten_nodup).
Defined.

(** X6 on the test host: a [step(250)] of the tween [selected_x10]. *)
Lemma X6_witness :
  (@animating test_host (Tween.self selected_x10) x0 to_ten ∧ NoDup to_ten.*1)
  ∧ ltac:(let T := type of (@X6_step_interpolates_from_the_snapshot test_host
                              selected_x10 x0 to_ten 250%float
                              selected_x10_animating to_ten_nodup)
          in exact T).
Proof.
  split; [exact (conj selected_x10_animating to_ten_nodup)|].
  exact (@X6_step_interpolates_from_the_snapshot test_host selected_x10 x0
           to_ten 250%float selected_x10_animating to_ten_nodup).
Defined.

Lemma queued_x10_index : -1 ≤ Tween.index (Tween.self queued_x10).
Proof. by vm_compute. Defined.

(** X7 on the test host, for the tween [queued_x10]. *)
Lemma X7_witness :
  -1 ≤ Tween.index (Tween.self queued_x10)
  ∧ ltac:(let T := type of (@X7_end_picks_the_last_animation test_host
                              queued_x10 queued_x10_index)
          in exact T).
Proof.
  split; [exact queued_x10_index|].
  exact (@X7_end_picks_the_last_animation test_host queued_x10 queued_x10_index).
Defined.

Lemma queued_x10_before_first : -1 ≤ Tween.index (Tween.self queued_x10) < 0.
Proof. by vm_compute. Defined.

Lemma queued_x10_at_first :
  js_nth (Tween.actions (Tween.self queued_x10)) 0
    = Some (Action (targets to_ten) (Some 1000%float) (Some "045")).
Proof. by vm_compute. Defined.

Lemma queued_x10_nothing_after :
  ∀ j a, 0 < j → js_nth (Tween.actions (Tween.self queued_x10)) j = Some a
         → is_object (a_props a) = false.
Proof.
  intros j a Hj Hnth. exfalso. unfold js_nth in Hnth.
  destruct (j <? 0); [done|]. apply lookup_lt_Some in Hnth.
  change (length (Tween.actions (Tween.self queued_x10))) with 1%nat in Hnth.
  lia.
Defined.

(** X8 on the test host: [end] on the tween [queued_x10]. *)
Lemma X8_witness :
  (-1 ≤ Tween.index (Tween.self queued_x10) < 0
   ∧ js_nth (Tween.actions (Tween.self queued_x10)) 0
       = Some (Action (targets to_ten) (Some 1000%float) (Some "045"))
   ∧ (∀ j a, 0 < j → js_nth (Tween.actions (Tween.self queued_x10)) j = Some a
             → is_object (a_props a) = false)
   ∧ NoDup to_ten.*1
   ∧ ((1000 + 0) / 1000)%float = 1%float)
  ∧ ltac:(let T := type of (@X8_end_completes_the_last_animation test_host
                              queued_x10 0 to_ten _ _ queued_x10_before_first
                              queued_x10_at_first queued_x10_nothing_after
                              to_ten_nodup thousand_divides_itself)
          in exact T).
Proof.
  split.
  - exact (conj queued_x10_before_first
             (conj queued_x10_at_first
                (conj queued_x10_nothing_after
                   (conj to_ten_nodup thousand_divides_itself)))).
  - exact (@X8_end_completes_the_last_animation test_host queued_x10 0 to_ten
             _ _ queued_x10_before_first queued_x10_at_first
             queued_x10_nothing_after to_ten_nodup thousand_divides_itself).
Defined.

Lemma zero_in_a_thousand : (0 / 1000)%float = 0%float.
Proof. by vm_compute. Defined.

(** X9 on the test host: [rewind] on the tween [selected_x10]. *)
Lemma X9_witness :
  (@animating test_host (Tween.self selected_x10) x0 to_ten
   ∧ NoDup to_ten.*1
   ∧ Tween.duration (Tween.self selected_x10) = Some 1000%float
   ∧ (0 / 1000)%float = 0%float)
  ∧ ltac:(let T := type of (@X9_rewind_restarts_the_current_action test_host
                              selected_x10 x0 to_ten _ selected_x10_animating
                              to_ten_nodup selected_x10_duration
                              zero_in_a_thousand)
          in exact T).
Proof.
  split.
  - exact (conj selected_x10_animating
             (conj to_ten_nodup (conj selected_x10_duration zero_in_a_thousand))).
  - exact (@X9_rewind_restarts_the_current_action test_host selected_x10 x0
             to_ten _ selected_x10_animating to_ten_nodup selected_x10_duration
             zero_in_a_thousand).
Defined.

Lemma two_on_one_context :
  TweenManager.contexts two_on_one !! Tween.context (Tween.new 0) = Some x0.
Proof. by vm_compute. Defined.

(** X11 on the test host, for the first of the two tweens of
    [two_on_one]. *)
Lemma X11_witness :
  (TweenManager.heap two_on_one !! 0%nat = Some (Tween.new 0)
   ∧ TweenManager.contexts two_on_one !! Tween.context (Tween.new 0) = Some x0)
  ∧ ltac:(let T := type of (@X11_play_reinserts_without_restarting test_host
                              two_on_one 0%nat _ _ two_on_one_first
                              two_on_one_context)
          in exact T).
Proof.
  split; [exact (conj two_on_one_first two_on_one_context)|].
  exact (@X11_play_reinserts_without_restarting test_host two_on_one 0%nat _ _
           two_on_one_first two_on_one_context).
Defined.

Lemma two_on_one_holds_first : 0%nat ∈ TweenManager.tweens two_on_one.
Proof. vm_compute. left. Defined.

(** X12 on the test host, for the first of the two tweens of
    [two_on_one], a tween just made. *)
Lemma X12_witness :
  (TweenManager.heap two_on_one !! 0%nat = Some (Tween.new 0)
   ∧ TweenManager.contexts two_on_one !! Tween.context (Tween.new 0) = Some x0
   ∧ 0%nat ∈ TweenManager.tweens two_on_one
   ∧ Tween._remove (Tween.new 0) = false)
  ∧ ltac:(let T := type of (@X12_play_undoes_stop test_host two_on_one 0%nat _ _
                              two_on_one_first two_on_one_context
                              two_on_one_holds_first eq_refl)
          in exact T).
Proof.
  split.
  - exact (conj two_on_one_first
             (conj two_on_one_context (conj two_on_one_holds_first eq_refl))).
  - exact (@X12_play_undoes_stop test_host two_on_one 0%nat _ _
             two_on_one_first two_on_one_context two_on_one_holds_first eq_refl).
Defined.

(** X13 for a third tween of the manager [two_on_one]. *)
Lemma X13_witness :
  Forall (λ r, is_Some (TweenManager.heap two_on_one !! r))
         (TweenManager.tweens two_on_one)
  ∧ ltac:(let T := type of (X13_tween_appends_a_new_tween two_on_one 0%nat
                              two_on_one_refs)
          in exact T).
Proof.
  split; [exact two_on_one_refs|].
  exact (X13_tween_appends_a_new_tween two_on_one 0%nat two_on_one_refs).
Defined.

Lemma queued_wait_first :
  js_nth (Tween.actions (Tween.self queued_wait))
         (Tween.index (Tween.self queued_wait) + 1)
    = Some (Action (Tag "wait") None None).
Proof. by vm_compute. Defined.

(** X14 on the test host: the tween [queued_wait] and the steps [100],
    [1000] and [infinity]. *)
Lemma X14_witness :
  (js_nth (Tween.actions (Tween.self queued_wait))
          (Tween.index (Tween.self queued_wait) + 1)
     = Some (Action (Tag "wait") None None)
   ∧ num None = nan)
  ∧ ltac:(let T := type of (@X14_wait_without_time_never_elapses test_host
                              queued_wait None None
                              [100%float; 1000%float; infinity]
                              queued_wait_first eq_refl)
          in exact T).
Proof.
  split; [exact (conj queued_wait_first eq_refl)|].
  exact (@X14_wait_without_time_never_elapses test_host queued_wait None None
           [100%float; 1000%float; infinity] queued_wait_first eq_refl).
Defined.

Lemma looped_empty_index : -1 ≤ Tween.index (Tween.self looped_empty).
Proof. by vm_compute. Defined.

(** X15 on the test host, for the tween [looped_empty]. *)
Lemma X15_witness :
  (Tween.actions (Tween.self looped_empty) = []
   ∧ Tween.looped (Tween.self looped_empty) = true
   ∧ Tween.current (Tween.self looped_empty) = None
   ∧ -1 ≤ Tween.index (Tween.self looped_empty))
  ∧ ltac:(let T := type of (@X15_looped_empty_tween_throws test_host
                              looped_empty 16%float eq_refl eq_refl eq_refl
                              looped_empty_index)
          in exact T).
Proof.
  split.
  - exact (conj eq_refl (conj eq_refl (conj eq_refl looped_empty_index))).
  - exact (@X15_looped_empty_tween_throws test_host looped_empty 16%float
             eq_refl eq_refl eq_refl looped_empty_index).
Defined.

Lemma queued_repeat_first :
  js_nth (Tween.actions (Tween.self queued_repeat))
         (Tween.index (Tween.self queued_repeat) + 1)
    = Some (Action (Tag "repeat") (Some 2%float) None).
Proof. by vm_compute. Defined.

(** X16 on the test host, for the tween [queued_repeat]. *)
Lemma X16_witness :
  js_nth (Tween.actions (Tween.self queued_repeat))
         (Tween.index (Tween.self queued_repeat) + 1)
    = Some (Action (Tag "repeat") (Some 2%float) None)
  ∧ ltac:(let T := type of (@X16_repeat_is_animated_letter_by_letter test_host
                              queued_repeat _ _ queued_repeat_first)
          in exact T).
Proof.
  split; [exact queued_repeat_first|].
  exact (@X16_repeat_is_animated_letter_by_letter test_host queued_repeat _ _
           queued_repeat_first).
Defined.

(** X18 on the test host: a [step(2000)] of the tween [selected_x10],
    past the duration. *)
Lemma X18_witness :
  (Tween.current (Tween.self selected_x10)
     = Some (Action x10 (Some 1000%float) (Some "045"))
   ∧ Tween.currentAction (Tween.self selected_x10) = Some Animate)
  ∧ ltac:(let T := type of (@X18_progress_never_exceeds_one test_host
                              selected_x10 2000%float _ selected_x10_current
                              selected_x10_handler)
          in exact T).
Proof.
  split; [exact (conj selected_x10_current selected_x10_handler)|].
  exact (@X18_progress_never_exceeds_one test_host selected_x10 2000%float _
           selected_x10_current selected_x10_handler).
Defined.

Lemma queued_x10_plain : plain_queue queued_x10.
Proof.
  split; [|split; [by vm_compute | by vm_compute]].
  change (Tween.actions (Tween.self queued_x10))
    with [Action (Props [("x", VNumber 10%float)]) (Some 1000%float) (Some "045")].
  apply Forall_singleton. right. eexists. split; [reflexivity|].
  exact numeric_x10.
Defined.

(** X19 on the test host: the tween [queued_x10] and the steps [0],
    [500] and [600]. *)
Lemma X19_witness :
  plain_queue queued_x10
  ∧ ltac:(let T := type of (@X19_plain_queue_never_throws test_host queued_x10
                              [0%float; 500%float; 600%float] queued_x10_plain)
          in exact T).
Proof.
  split; [exact queued_x10_plain|].
  exact (@X19_plain_queue_never_throws test_host queued_x10
           [0%float; 500%float; 600%float] queued_x10_plain).
Defined.

Lemma running_plain : plain_store running.
Proof.
  split; [exact running_wf|].
  set (h := TweenManager.heap running). vm_compute in h. subst h.
  apply Forall_singleton.
  split; [|split; [by vm_compute | by vm_compute]].
  apply Forall_singleton. right. eexists. split; [reflexivity|].
  exact numeric_x10.
Defined.

(** X20 on the test host: one more frame of the manager [running]. *)
Lemma X20_witness :
  plain_store running
  ∧ ltac:(let T := type of (@X20_plain_store_steps_without_throwing test_host
                              500%float running running_plain)
          in exact T).
Proof.
  split; [exact running_plain|].
  exact (@X20_plain_store_steps_without_throwing test_host 500%float running
           running_plain).
Defined.

Lemma queued_x10_no_wait :
  is_wait (a_props (Action (targets to_ten) (Some 1000%float) (Some "045"))) = false.
Proof. reflexivity. Defined.

(** X21 on the test host, for the tween [queued_x10]. *)
Lemma X21_witness :
  (js_nth (Tween.actions (Tween.self queued_x10))
          (Tween.index (Tween.self queued_x10) + 1)
     = Some (Action (targets to_ten) (Some 1000%float) (Some "045"))
   ∧ is_wait (a_props (Action (targets to_ten) (Some 1000%float) (Some "045")))
       = false)
  ∧ ltac:(let T := type of (@X21_targets_are_classified_by_kind test_host
                              queued_x10 _ queued_x10_first queued_x10_no_wait)
          in exact T).
Proof.
  split; [exact (conj queued_x10_first queued_x10_no_wait)|].
  exact (@X21_targets_are_classified_by_kind test_host queued_x10 _
           queued_x10_first queued_x10_no_wait).
Defined.

Lemma waiting_200_current :
  Tween.current (Tween.self waiting_200)
    = Some (Action (Tag "wait") (Some 200%float) None).
Proof. by vm_compute. Defined.

Lemma waiting_200_handler :
  Tween.currentAction (Tween.self waiting_200) = Some Wait.
Proof. by vm_compute. Defined.

Lemma waiting_200_duration :
  Tween.duration (Tween.self waiting_200) = Some 200%float.
Proof. by vm_compute. Defined.

Lemma two_hundred_reached : (200 <=? 200 + 0)%float = true.
Proof. by vm_compute. Defined.

(** X22 on the test host, for the tween [waiting_200]. *)
Lemma X22_witness :
  (Tween.current (Tween.self waiting_200)
     = Some (Action (Tag "wait") (Some 200%float) None)
   ∧ Tween.currentAction (Tween.self waiting_200) = Some Wait
   ∧ Tween.duration (Tween.self waiting_200) = Some 200%float
   ∧ (200 <=? 200 + 0)%float = true)
  ∧ ltac:(let T := type of (@X22_forward_ends_a_wait test_host waiting_200 _ _
                              waiting_200_current waiting_200_handler
                              waiting_200_duration two_hundred_reached)
          in exact T).
Proof.
  split.
  - exact (conj waiting_200_current
             (conj waiting_200_handler
                (conj waiting_200_duration two_hundred_reached))).
  - exact (@X22_forward_ends_a_wait test_host waiting_200 _ _
             waiting_200_current waiting_200_handler waiting_200_duration
             two_hundred_reached).
Defined.
